(** * Vergessen: the SM-2 scheduler and the SQLite deck store of package [deck]

    A shallow embedding of [src/deck/deck.go] (and of the later revision of the
    same package kept as [src/unnamed/part_000], which differs in
    [CalcNextRep] only), with the properties of the scheduler, of the
    in-memory deck operations and of [Sync]/[OpenDeck]; and of the commands
    of package main, [src/vergessen.go] and the later program kept as
    [src/unnamed/part_001], run on a terminal, a clock and an editor that
    are parameters of the run.

    Conventions of the embedding.
    - Go's [int] is the 64-bit two's complement integer of the amd64 port: a
      [Z] whose arithmetic wraps ([GoInt]).
    - Go's [float64] is IEEE 754 binary64 with round-to-nearest-even and no
      fused multiply-add (the amd64 port): Rocq's primitive [float].
    - A [time.Time] is the number of nanoseconds since the Unix epoch; every
      call of [time.Now()] is an argument [now] of the function that makes it.
    - A slice is a [list]; an index out of range, a nil dereference and a
      recursion that never ends are run-time panics: [None] (or [Panic]). *)

From Stdlib Require Import ZArith Lia Floats Uint63 Ascii.
From stdpp Require Import base option list strings gmap sorting pretty.

Set Warnings "-inexact-float".

Local Open Scope Z_scope.

(** ** Go integers *)

Module GoInt.

Definition min_int : Z := - 2 ^ 63.
Definition max_int : Z := 2 ^ 63 - 1.

(** The value an [int] holds after an operation whose exact result is [z]. *)
Definition wrap (z : Z) : Z := (z + 2 ^ 63) mod 2 ^ 64 - 2 ^ 63.

Definition add (x y : Z) : Z := wrap (x + y).
Definition sub (x y : Z) : Z := wrap (x - y).
Definition mul (x y : Z) : Z := wrap (x * y).

Definition in_range (z : Z) : Prop := min_int <= z <= max_int.

End GoInt.

(** [s[i]] for a slice [s] and an [int] index: [None] is the
    index-out-of-range panic. *)
Definition index {A : Type} (s : list A) (i : Z) : option A :=
  if i <? 0 then None else s !! Z.to_nat i.

(** [len(s)] *)
Definition len {A : Type} (s : list A) : Z := Z.of_nat (length s).

(** ** float64 *)

(** [float64(z)] for an [int]: the nearest binary64, ties to even. The
    primitive conversion takes a 63-bit natural number; the sign is put back
    after it, and the smallest [int] is the binary64 number -2^63 itself. *)
Definition float64_of_int (z : Z) : float :=
  let z := GoInt.wrap z in
  if z =? GoInt.min_int then (-9223372036854775808)%float
  else if z <? 0 then (- of_uint63 (Uint63.of_Z (- z)))%float
  else of_uint63 (Uint63.of_Z z).

(** [int64(f)] for a [float64]: the fraction is discarded (truncation towards
    zero). For a value an int64 cannot hold Go leaves the result to the
    implementation; amd64's CVTTSD2SQ gives the smallest int64. *)
Definition int64_of_float (f : float) : Z :=
  match Prim2SF f with
  | S754_zero _ => 0
  | S754_finite s m e =>
      let mag := if 0 <=? e then Z.shiftl (Z.pos m) e else Z.shiftr (Z.pos m) (- e) in
      let v := if s then - mag else mag in
      if (GoInt.min_int <=? v) && (v <=? GoInt.max_int) then v else GoInt.min_int
  | S754_infinity _ | S754_nan => GoInt.min_int
  end.

(** ** package time *)

Definition Time : Type := Z.
Definition Duration : Type := Z.

Definition Second : Duration := 1000000000.
Definition Hour : Duration := 3600 * Second.
Definition Day : Duration := 24 * Hour.

(** [t.Add(d)] *)
Definition Time_Add (t : Time) (d : Duration) : Time := t + d.
(** [t.Unix()]: whole seconds since the epoch. *)
Definition Time_Unix (t : Time) : Z := t `div` Second.
(** [time.Unix(sec, 0)] *)
Definition time_Unix (sec : Z) : Time := sec * Second.

(** ** Cards and the scheduler *)

Record Card : Type := mkCard {
  Id : Z;
  Prompt : string;
  Answer : string;
  Reps : Z;
  NextRep : Time;
  (* These two slices are indexed by the rep - 1 *)
  EFs : list float;
  Hardnesses : list Z
}.

Definition defaultEF : float := 1.75%float.

(** [NewCard(prompt, answer)], deck.go:228 *)
Definition NewCard (now : Time) (prompt answer : string) : Card :=
  {| Id := 0; Prompt := prompt; Answer := answer; Reps := 0; NextRep := now;
     EFs := []; Hardnesses := [] |}.

(** [calcEf(efprime, hardness)], deck.go:272 *)
Definition calcEf (efprime : float) (hardness : Z) : float :=
  let ef := (efprime - 0.8 + 0.28 * float64_of_int hardness
             - 0.02 * float64_of_int (GoInt.mul hardness hardness))%float in
  if (ef <? 1.3)%float then 1.3%float else ef.

(** [c.interval(n)], deck.go:262. The recursion on [n] goes down to 2; below 1
    it never gets there and the call dies of stack exhaustion, which the
    embedding reports as [None], like the out-of-range [c.EFs[n-1]]. *)
Fixpoint interval_rec (fuel : nat) (efs : list float) (n : Z) : option float :=
  if n =? 1 then Some 1.0%float
  else if n =? 2 then Some 6.0%float
  else match fuel with
       | O => None
       | S fuel' =>
           prev ← interval_rec fuel' efs (GoInt.sub n 1);
           ef ← index efs (GoInt.sub n 1);
           Some (prev * ef)%float
       end.

Definition interval (efs : list float) (n : Z) : option float :=
  interval_rec (Z.to_nat n) efs n.

(** The duration [(time.Duration)(float64(time.Hour) * 24 * days)]. *)
Definition days_Duration (days : float) : Duration :=
  int64_of_float (float64_of_int Hour * 24 * days)%float.

(** [c.CalcNextRep(hardness)], deck.go:240. The card is updated in place; the
    embedding returns the updated card, or [None] when the call panics. *)
Definition CalcNextRep (now : Time) (hardness : Z) (c : Card) : option Card :=
  let reps := GoInt.add (Reps c) 1 in
  let hs := Hardnesses c ++ [hardness] in
  if reps =? 1 then
    Some {| Id := Id c; Prompt := Prompt c; Answer := Answer c; Reps := reps;
            NextRep := Time_Add now (Hour * 24);
            EFs := EFs c ++ [defaultEF]; Hardnesses := hs |}
  else if reps =? 2 then
    (* SM-2 specifies 6 days, but let's do 4. *)
    Some {| Id := Id c; Prompt := Prompt c; Answer := Answer c; Reps := reps;
            NextRep := Time_Add now (Hour * 24 * 4);
            EFs := EFs c ++ [defaultEF]; Hardnesses := hs |}
  else
    efprime ← index (EFs c) (GoInt.sub reps 2);
    h ← index hs (GoInt.sub reps 1);
    let efs := EFs c ++ [calcEf efprime h] in
    days ← interval efs reps;
    Some {| Id := Id c; Prompt := Prompt c; Answer := Answer c; Reps := reps;
            NextRep := Time_Add now (days_Duration days);
            EFs := efs; Hardnesses := hs |}.

(** The revision of the package in [src/unnamed/part_000]: the same code but
    for [CalcNextRep], where a hardness of 5 makes the card due at once. *)
Module Part000.

(** [c.CalcNextRep(hardness)], part_000:105 *)
Definition CalcNextRep (now : Time) (hardness : Z) (c : Card) : option Card :=
  let reps := GoInt.add (Reps c) 1 in
  let hs := Hardnesses c ++ [hardness] in
  if reps =? 1 then
    Some {| Id := Id c; Prompt := Prompt c; Answer := Answer c; Reps := reps;
            NextRep := Time_Add now (Hour * 24);
            EFs := EFs c ++ [defaultEF]; Hardnesses := hs |}
  else if reps =? 2 then
    Some {| Id := Id c; Prompt := Prompt c; Answer := Answer c; Reps := reps;
            NextRep := Time_Add now (Hour * 24 * 4);
            EFs := EFs c ++ [defaultEF]; Hardnesses := hs |}
  else
    efprime ← index (EFs c) (GoInt.sub reps 2);
    h ← index hs (GoInt.sub reps 1);
    let efs := EFs c ++ [calcEf efprime h] in
    if hardness =? 5 then
      Some {| Id := Id c; Prompt := Prompt c; Answer := Answer c; Reps := reps;
              NextRep := now;
              EFs := efs; Hardnesses := hs |}
    else
      days ← interval efs reps;
      Some {| Id := Id c; Prompt := Prompt c; Answer := Answer c; Reps := reps;
              NextRep := Time_Add now (days_Duration days);
              EFs := efs; Hardnesses := hs |}.

End Part000.

(** A study session on one card: the reviews, each with the clock reading of
    its call and the hardness entered, applied in order. *)
Fixpoint reviews (rs : list (Time * Z)) (c : Card) : option Card :=
  match rs with
  | [] => Some c
  | (now, hardness) :: rs' => c' ← CalcNextRep now hardness c; reviews rs' c'
  end.

(** ** The deck in memory *)

Record Deck : Type := mkDeck {
  Path : string;
  (* the handle [*sql.DB]: the data source it names, or nil *)
  DB : option string;
  Cards : list Card;
  Dirty : bool
}.

Definition set_Id (id : Z) (c : Card) : Card :=
  {| Id := id; Prompt := Prompt c; Answer := Answer c; Reps := Reps c;
     NextRep := NextRep c; EFs := EFs c; Hardnesses := Hardnesses c |}.

(** [d.AddCard(card)], deck.go:129. [last (Cards d)] is
    [d.Cards[len(d.Cards)-1]], there exactly when [len(d.Cards) > 0]. *)
Definition AddCard (card : Card) (d : Deck) : Deck :=
  let card' :=
    match last (Cards d) with
    | Some l => set_Id (GoInt.add (Id l) 1) card
    | None => set_Id 0 card
    end in
  {| Path := Path d; DB := DB d; Cards := Cards d ++ [card']; Dirty := true |}.

(** [d.DeleteCard(id)], deck.go:140: the [range] loop, at index [i] with
    [rest] still to visit. *)
Fixpoint DeleteCard_loop (id : Z) (i : nat) (rest : list Card) (d : Deck) : Deck :=
  match rest with
  | [] => d
  | card :: rest' =>
      if Id card =? id then
        {| Path := Path d; DB := DB d;
           Cards := take i (Cards d) ++ drop (S i) (Cards d);
           Dirty := true |}
      else DeleteCard_loop id (S i) rest' d
  end.

Definition DeleteCard (id : Z) (d : Deck) : Deck :=
  DeleteCard_loop id 0 (Cards d) d.

(** ** The SQLite store *)

(** The rows of the three tables of [createDeckStmt]. *)
Record CardRow : Type := mkCardRow {
  card_id : Z; card_prompt : string; card_answer : string;
  card_reps : Z; card_nextrep : Z
}.
Record EfRow : Type := mkEfRow { ef_id : Z; ef_card_id : Z; ef_ef : float }.
Record HardnessRow : Type := mkHardnessRow {
  hardness_id : Z; hardness_card_id : Z; hardness_hardness : Z
}.

Record Tables : Type := mkTables {
  cards : list CardRow;
  efs : list EfRow;
  hardnesses : list HardnessRow
}.

(** A database file: one without tables yet, or the three tables. *)
Inductive SqliteFile : Type :=
| Blank
| Schema (t : Tables).

(** [order by key]: a stable insertion sort on an integer column. *)
Fixpoint insert_by {A : Type} (key : A -> Z) (x : A) (l : list A) : list A :=
  match l with
  | [] => [x]
  | y :: l' => if key x <=? key y then x :: l else y :: insert_by key x l'
  end.

Fixpoint sort_by {A : Type} (key : A -> Z) (l : list A) : list A :=
  match l with
  | [] => []
  | x :: l' => insert_by key x (sort_by key l')
  end.

(** The rowid SQLite gives a row inserted without one into an
    [integer primary key] column: one more than the largest in the table. *)
Definition next_rowid (ids : list Z) : Z :=
  match ids with
  | [] => 1
  | i :: ids' => foldr Z.max i ids' + 1
  end.

(** [select * from cards order by nextrep]; the table is scanned in rowid
    order, and rows of equal [nextrep] are kept in that order. *)
Definition select_cards (t : Tables) : list CardRow :=
  sort_by card_nextrep (sort_by card_id (cards t)).

(** [select ef from efs where card_id = $1 order by id] *)
Definition select_efs (t : Tables) (id : Z) : list float :=
  ef_ef <$> sort_by ef_id (filter (λ r, ef_card_id r = id) (efs t)).

(** [select hardness from hardnesses where card_id = $1 order by id] *)
Definition select_hardnesses (t : Tables) (id : Z) : list Z :=
  hardness_hardness <$>
    sort_by hardness_id (filter (λ r, hardness_card_id r = id) (hardnesses t)).

(** ** Storage operations that can fail *)

Inductive error : Type :=
| ErrNoRows                      (* sql.ErrNoRows *)
| ErrorString (msg : string)     (* errors.New(msg); a driver error, by its text *)
| ErrNotExist                    (* os: no such file *)
| ErrIO.                         (* any other failure of the storage layer *)

Inductive result (A : Type) : Type :=
| Ok (a : A)
| Err (e : error)
| Panic.
Arguments Ok {A} a.
Arguments Err {A} e.
Arguments Panic {A}.

(** The world outside the program: the files, and the number of storage
    operations made so far. *)
Record World : Type := mkWorld {
  files : gmap string SqliteFile;
  tick : nat
}.

Definition M (A : Type) : Type := World -> result A * World.

Definition ret {A : Type} (a : A) : M A := λ w, (Ok a, w).

Definition bind {A B : Type} (m : M A) (k : A -> M B) : M B :=
  λ w, match m w with
       | (Ok a, w') => k a w'
       | (Err e, w') => (Err e, w')
       | (Panic, w') => (Panic, w')
       end.

Notation "x <- m ;; k" := (bind m (λ x, k))
  (at level 100, m at next level, right associativity, only parsing).

Definition no_such_table (err : error) : bool :=
  match err with
  | ErrorString msg => String.eqb msg "no such table: cards"
  | _ => false
  end.

Section Store.

(** Failure injection: [faults n] says that the storage operation number [n]
    fails, with no effect on the files. *)
Variable faults : nat -> bool.

(** One operation on the file at [path]. *)
Definition io {A : Type} (path : string)
    (op : option SqliteFile -> result A * option SqliteFile) : M A :=
  λ w, if faults (tick w)
       then (Err ErrIO, {| files := files w; tick := S (tick w) |})
       else let '(r, f) := op (files w !! path) in
            (r, {| files := partial_alter (λ _, f) path (files w);
                   tick := S (tick w) |}).

(** [sql.Open("sqlite3", path)]: the handle; the file is not touched yet. *)
Definition sql_Open (path : string) : M string :=
  io path (λ f, (Ok path, f)).

(** [db.Exec(createDeckStmt)] *)
Definition db_Exec_createDeckStmt (db : string) : M unit :=
  io db (λ f, match f with
              | Some (Schema _) => (Err (ErrorString "table cards already exists"), f)
              | _ => (Ok (), Some (Schema (mkTables [] [] [])))
              end).

(** [db.Exec(insertCardStmt, prompt, answer, reps, nextrep)]; the
    [sql.Result] holds the rowid of the new row. *)
Definition db_Exec_insertCard (db : string) (prompt answer : string)
    (reps nextrep : Z) : M Z :=
  io db (λ f, match f with
              | Some (Schema t) =>
                  let id := next_rowid (card_id <$> cards t) in
                  (Ok id,
                   Some (Schema (mkTables
                     (cards t ++ [mkCardRow id prompt answer reps nextrep])
                     (efs t) (hardnesses t))))
              | _ => (Err (ErrorString "no such table: cards"), f)
              end).

(** [res.LastInsertId()] *)
Definition res_LastInsertId (res : Z) : M Z :=
  λ w, if faults (tick w)
       then (Err ErrIO, {| files := files w; tick := S (tick w) |})
       else (Ok res, {| files := files w; tick := S (tick w) |}).

(** [db.Exec(insertEFStmt, id, ef)] *)
Definition db_Exec_insertEF (db : string) (id : Z) (ef : float) : M unit :=
  io db (λ f, match f with
              | Some (Schema t) =>
                  (Ok (),
                   Some (Schema (mkTables (cards t)
                     (efs t ++ [mkEfRow (next_rowid (ef_id <$> efs t)) id ef])
                     (hardnesses t))))
              | _ => (Err (ErrorString "no such table: efs"), f)
              end).

(** [db.Exec(insertHardnessStmt, id, hardness)] *)
Definition db_Exec_insertHardness (db : string) (id : Z) (hardness : Z) : M unit :=
  io db (λ f, match f with
              | Some (Schema t) =>
                  (Ok (),
                   Some (Schema (mkTables (cards t) (efs t)
                     (hardnesses t ++
                        [mkHardnessRow (next_rowid (hardness_id <$> hardnesses t))
                                       id hardness]))))
              | _ => (Err (ErrorString "no such table: hardnesses"), f)
              end).

(** [os.Remove(path)] *)
Definition os_Remove (path : string) : M unit :=
  io path (λ f, match f with
                | Some _ => (Ok (), None)
                | None => (Err ErrNotExist, None)
                end).

(** [os.Rename(oldpath, newpath)] *)
Definition os_Rename (oldpath newpath : string) : M unit :=
  λ w, if faults (tick w)
       then (Err ErrIO, {| files := files w; tick := S (tick w) |})
       else match files w !! oldpath with
            | Some f => (Ok (), {| files := <[newpath := f]> (delete oldpath (files w));
                                   tick := S (tick w) |})
            | None => (Err ErrNotExist, {| files := files w; tick := S (tick w) |})
            end.

(** [db.Query("select * from cards order by nextrep")]. A query that
    selects no row is not an error: [Query] gives an empty [*Rows]. *)
Definition db_Query_cards (db : string) : M (list CardRow) :=
  io db (λ f, match f with
              | Some (Schema t) => (Ok (select_cards t), f)
              | _ => (Err (ErrorString "no such table: cards"), f)
              end).

(** [db.Query("select ef from efs where card_id = $1 order by id", id)] *)
Definition db_Query_efs (db : string) (id : Z) : M (list float) :=
  io db (λ f, match f with
              | Some (Schema t) => (Ok (select_efs t id), f)
              | _ => (Err (ErrorString "no such table: efs"), f)
              end).

(** [db.Query("select hardness from hardnesses where card_id = $1 order by id", id)] *)
Definition db_Query_hardnesses (db : string) (id : Z) : M (list Z) :=
  io db (λ f, match f with
              | Some (Schema t) => (Ok (select_hardnesses t id), f)
              | _ => (Err (ErrorString "no such table: hardnesses"), f)
              end).

(** [rows.Scan(...)] of the current row. *)
Definition rows_Scan {A : Type} (row : A) : M A :=
  λ w, if faults (tick w)
       then (Err ErrIO, {| files := files w; tick := S (tick w) |})
       else (Ok row, {| files := files w; tick := S (tick w) |}).

(** *** Sync *)

(** The loop over [card.EFs], deck.go:181 *)
Fixpoint Sync_EFs (db : string) (id : Z) (efs : list float) : M unit :=
  match efs with
  | [] => ret ()
  | ef :: efs' =>
      _ <- db_Exec_insertEF db id ef ;;
      Sync_EFs db id efs'
  end.

(** The loop over [card.Hardnesses], deck.go:188 *)
Fixpoint Sync_Hardnesses (db : string) (id : Z) (hs : list Z) : M unit :=
  match hs with
  | [] => ret ()
  | hardness :: hs' =>
      _ <- db_Exec_insertHardness db id hardness ;;
      Sync_Hardnesses db id hs'
  end.

(** The loop over [d.Cards], deck.go:169 *)
Fixpoint Sync_Cards (db : string) (cs : list Card) : M unit :=
  match cs with
  | [] => ret ()
  | card :: cs' =>
      let nextrep := Time_Unix (NextRep card) in
      res <- db_Exec_insertCard db (Prompt card) (Answer card) (Reps card) nextrep ;;
      id <- res_LastInsertId res ;;
      _ <- Sync_EFs db id (EFs card) ;;
      _ <- Sync_Hardnesses db id (Hardnesses card) ;;
      Sync_Cards db cs'
  end.

(** [d.Sync()], deck.go:152: the error returned and the deck as the call
    leaves it. *)
Definition Sync (d : Deck) : World -> (result unit * Deck) * World :=
  λ w,
    let new_path := Path d +:+ ".sync" in
    match (db <- sql_Open new_path ;;
           _ <- db_Exec_createDeckStmt db ;;
           _ <- Sync_Cards db (Cards d) ;;
           (* XXX: Have a better strategy here for when errors occur *)
           _ <- os_Remove (Path d) ;;
           os_Rename new_path (Path d)) w with
    | (Ok _, w') =>
        match sql_Open (Path d) w' with
        | (Ok db, w'') =>
            ((Ok (), {| Path := Path d; DB := Some db; Cards := Cards d;
                        Dirty := false |}), w'')
        | (Err err, w'') =>
            ((Err err, {| Path := Path d; DB := None; Cards := Cards d;
                          Dirty := Dirty d |}), w'')
        | (Panic, w'') => ((Panic, d), w'')
        end
    | (Err err, w') => ((Err err, d), w')
    | (Panic, w') => ((Panic, d), w')
    end.

(** *** OpenDeck *)

(** The loop over [efRows], deck.go:98 *)
Fixpoint OpenDeck_efRows (efRows : list float) (card : Card) : M Card :=
  match efRows with
  | [] => ret card
  | row :: efRows' =>
      ef <- rows_Scan row ;;
      OpenDeck_efRows efRows'
        {| Id := Id card; Prompt := Prompt card; Answer := Answer card;
           Reps := Reps card; NextRep := NextRep card;
           EFs := EFs card ++ [ef]; Hardnesses := Hardnesses card |}
  end.

(** The loop over [hardnessRows], deck.go:113 *)
Fixpoint OpenDeck_hardnessRows (hardnessRows : list Z) (card : Card) : M Card :=
  match hardnessRows with
  | [] => ret card
  | row :: hardnessRows' =>
      hardness <- rows_Scan row ;;
      OpenDeck_hardnessRows hardnessRows'
        {| Id := Id card; Prompt := Prompt card; Answer := Answer card;
           Reps := Reps card; NextRep := NextRep card;
           EFs := EFs card; Hardnesses := Hardnesses card ++ [hardness] |}
  end.

(** The body of the loop over [cardRows], deck.go:73-120: the card read
    from one row. When a query fails its [*Rows] is nil, and the deferred
    [efRows.Close()], or [hardnessRows.Next()], dereferences it. *)
Definition OpenDeck_card (now : Time) (db : string) (row : CardRow) : M Card :=
  r <- rows_Scan row ;;
  let id := card_id r in
  let card := NewCard now (card_prompt r) (card_answer r) in
  let card := {| Id := id; Prompt := Prompt card; Answer := Answer card;
                 Reps := card_reps r; NextRep := time_Unix (card_nextrep r);
                 EFs := EFs card; Hardnesses := Hardnesses card |} in
  card <- (λ w, match db_Query_efs db id w with
                | (Ok efRows, w') => OpenDeck_efRows efRows card w'
                | (Err ErrNoRows, w') =>
                    if 0 <? Reps card
                    then (Err (ErrorString "no easiness factors for this card!"), w')
                    else (Panic, w')
                | (_, w') => (Panic, w')
                end) ;;
  (λ w, match db_Query_hardnesses db id w with
        | (Ok hardnessRows, w') => OpenDeck_hardnessRows hardnessRows card w'
        | (Err ErrNoRows, w') =>
            if 0 <? Reps card
            then (Err (ErrorString "no hardness factors for this card!"), w')
            else (Panic, w')
        | (_, w') => (Panic, w')
        end).

(** The loop over [cardRows], deck.go:72 *)
Fixpoint OpenDeck_cardRows (now : Time) (db : string) (cardRows : list CardRow)
    (deck : Deck) : M Deck :=
  match cardRows with
  | [] => ret deck
  | row :: cardRows' =>
      card <- OpenDeck_card now db row ;;
      OpenDeck_cardRows now db cardRows' (AddCard card deck)
  end.

(** [OpenDeck(path)], deck.go:37 *)
Definition OpenDeck (now : Time) (path : string) : M Deck :=
  db <- sql_Open path ;;
  let deck := {| Path := path; DB := Some db; Cards := []; Dirty := false |} in
  λ w, match db_Query_cards db w with
       | (Err err, w') =>
           (* There must be a better way to check if the table exists or not? *)
           if no_such_table err then
             (_ <- db_Exec_createDeckStmt db ;; ret deck) w'
           else
             (* Deck exists, but empty *)
             match err with
             | ErrNoRows => (Ok deck, w')
             | _ => (Err err, w')
             end
       | (Panic, w') => (Panic, w')
       | (Ok cardRows, w') =>
           (deck <- OpenDeck_cardRows now db cardRows deck ;;
            ret {| Path := Path deck; DB := DB deck; Cards := Cards deck;
                   Dirty := false |}) w'
       end.

End Store.

(** No storage operation fails. *)
Definition no_faults : nat -> bool := λ _, false.

(** ** Notions the properties are stated with *)

(** The histories of a card hold one entry per completed review. *)
Definition histories_ok (c : Card) : Prop :=
  len (EFs c) = Reps c ∧ len (Hardnesses c) = Reps c.

(** [ef] is not below the floor 1.3: the comparison [ef < 1.3] of [calcEf]
    is false. *)
Definition not_below_floor (ef : float) : Prop := (ef <? 1.3)%float = false.

(** The same study session with the scheduler of [part_000]. *)
Fixpoint reviews_000 (rs : list (Time * Z)) (c : Card) : option Card :=
  match rs with
  | [] => Some c
  | (now, hardness) :: rs' =>
      c' ← Part000.CalcNextRep now hardness c; reviews_000 rs' c'
  end.

(** The largest id among the cards, if there is a card. *)
Definition max_Id (cs : list Card) : option Z :=
  match Id <$> cs with
  | [] => None
  | i :: ids => Some (foldr Z.max i ids)
  end.

(** The ids grow along the in-memory order. *)
Definition ids_increasing (cs : list Card) : Prop :=
  StronglySorted Z.lt (Id <$> cs).

(** The card at position [i] has id [i]. *)
Definition ids_positional (cs : list Card) : Prop :=
  ∀ (i : nat) (c : Card), cs !! i = Some c -> Id c = Z.of_nat i.

(** [AddCard] called on the cards [cs] in turn. *)
Definition add_all (cs : list Card) (d : Deck) : Deck :=
  foldl (λ d card, AddCard card d) d cs.

(** The card [OpenDeck] builds from a row of [cards] and the history rows of
    its id, before [AddCard] numbers it. *)
Definition load_card (t : Tables) (row : CardRow) : Card :=
  {| Id := card_id row; Prompt := card_prompt row; Answer := card_answer row;
     Reps := card_reps row; NextRep := time_Unix (card_nextrep row);
     EFs := select_efs t (card_id row);
     Hardnesses := select_hardnesses t (card_id row) |}.

(** The deck [OpenDeck] starts from. *)
Definition empty_deck (path : string) : Deck :=
  {| Path := path; DB := Some path; Cards := []; Dirty := false |}.

(** The world after [n] more storage operations that left the files alone. *)
Definition ticked (n : nat) (w : World) : World :=
  {| files := files w; tick := (tick w + n)%nat |}.

(** A card without its id. *)
Definition forget_Id (c : Card) : Card := set_Id 0 c.

(** [l] is in ascending order of [key]. *)
Definition sorted_by {A : Type} (key : A -> Z) (l : list A) : Prop :=
  StronglySorted (λ x y, key x <= key y) l.

(** The storage operations of the write phase of [Sync] (deck.go:155-194):
    opening the temporary store, creating its tables, and per card the
    insertion, [LastInsertId] and one insertion per history entry. *)
Definition card_ops (c : Card) : nat :=
  (2 + length (EFs c) + length (Hardnesses c))%nat.

Definition cards_ops (cs : list Card) : nat :=
  foldr (λ c n, (card_ops c + n)%nat) 0%nat cs.

Definition write_ops (d : Deck) : nat := (2 + cards_ops (Cards d))%nat.

(** Two worlds with the same file at [p], at the same operation count. *)
Definition same_at (p : string) (w1 w2 : World) : Prop :=
  files w1 !! p = files w2 !! p ∧ tick w1 = tick w2.

(** A computation that sees and changes the file at [p] only. *)
Definition local_at {A : Type} (p : string) (m : M A) : Prop :=
  ∀ w1 w2, same_at p w1 w2 ->
    fst (m w1) = fst (m w2) ∧ same_at p (snd (m w1)) (snd (m w2)).

(** A computation of [n] storage operations on the file at [db] only, that
    returns normally only if none of them fails, and never panics. *)
Definition writes_at {A : Type} (faults : nat -> bool) (db : string) (n : nat)
    (m : M A) : Prop :=
  ∀ w r w', m w = (r, w') ->
    (∀ p, p ≠ db -> files w' !! p = files w !! p) ∧ r ≠ Panic ∧
    (∀ a, r = Ok a ->
       tick w' = (tick w + n)%nat ∧
       ∀ k, (k < n)%nat -> faults (tick w + k)%nat = false).

(** *** What a [Sync] without failure leaves in the store *)

(** A history table after the insertion of the values [vs] for the card
    [id], one row each, in order. *)
Definition append_history {R V : Type} (rid : R -> Z) (mk : Z -> Z -> V -> R)
    (id : Z) (vs : list V) (l : list R) : list R :=
  foldl (λ l v, l ++ [mk (next_rowid (rid <$> l)) id v]) l vs.

(** The tables after the insertions [Sync] makes for one card. *)
Definition store_Card (c : Card) (t : Tables) : Tables :=
  let id := next_rowid (card_id <$> cards t) in
  {| cards := cards t ++ [mkCardRow id (Prompt c) (Answer c) (Reps c)
                                    (Time_Unix (NextRep c))];
     efs := append_history ef_id mkEfRow id (EFs c) (efs t);
     hardnesses :=
       append_history hardness_id mkHardnessRow id (Hardnesses c) (hardnesses t) |}.

Definition store_Cards (cs : list Card) (t : Tables) : Tables :=
  foldl (λ t c, store_Card c t) t cs.

(** The world after [n] more storage operations that left the tables [t] in
    the file at [db]. *)
Definition with_file (db : string) (t : Tables) (n : nat) (w : World) : World :=
  {| files := <[db := Schema t]> (files w); tick := (n + tick w)%nat |}.

(** The due time of a card cut to the second, as it comes back from the
    store. *)
Definition to_second (c : Card) : Card :=
  {| Id := Id c; Prompt := Prompt c; Answer := Answer c; Reps := Reps c;
     NextRep := time_Unix (Time_Unix (NextRep c));
     EFs := EFs c; Hardnesses := Hardnesses c |}.

(** The whole seconds of the due time: the column [nextrep]. *)
Definition nextrep_of (c : Card) : Z := Time_Unix (NextRep c).

(** The cards with the rowids [k], [k + 1], ... *)
Fixpoint number_from (k : Z) (cs : list Card) : list (Z * Card) :=
  match cs with
  | [] => []
  | c :: cs' => (k, c) :: number_from (k + 1) cs'
  end.

(** The row of [cards] for a card stored under the rowid [id]. *)
Definition row_of (ic : Z * Card) : CardRow :=
  mkCardRow ic.1 (Prompt ic.2) (Answer ic.2) (Reps ic.2) (nextrep_of ic.2).

(** [l] is in strictly ascending order of [key]. *)
Definition increasing_by {A : Type} (key : A -> Z) (l : list A) : Prop :=
  StronglySorted (λ x y, key x < key y) l.

(** The tables [t] hold the cards [ics], each under its rowid, with the
    history rows of each card under that rowid and in order; [k] is the
    rowid of the next card. *)
Definition stored (t : Tables) (ics : list (Z * Card)) (k : Z) : Prop :=
  cards t = row_of <$> ics ∧
  increasing_by fst ics ∧ Forall (λ ic, ic.1 < k) ics ∧
  next_rowid (card_id <$> cards t) = k ∧
  increasing_by ef_id (efs t) ∧ increasing_by hardness_id (hardnesses t) ∧
  Forall (λ r, ef_card_id r < k) (efs t) ∧
  Forall (λ r, hardness_card_id r < k) (hardnesses t) ∧
  Forall (λ ic,
      ef_ef <$> filter (λ r, ef_card_id r = ic.1) (efs t) = EFs ic.2 ∧
      hardness_hardness <$> filter (λ r, hardness_card_id r = ic.1) (hardnesses t)
        = Hardnesses ic.2) ics.

(** [x] is a number: not a NaN. *)
Definition is_number (x : float) : Prop := Prim2SF x ≠ S754_nan.

(** [ef] is at least the floor 1.3. *)
Definition at_least_floor (ef : float) : Prop := (1.3 <=? ef)%float = true.

(** A binary64 value that is zero or finite, and one of exponent at most [b]. *)
Definition SF_finite (x : spec_float) : Prop :=
  match x with S754_zero _ | S754_finite _ _ _ => True | _ => False end.

Definition SF_exp_le (b : Z) (x : spec_float) : Prop :=
  match x with
  | S754_zero _ => True
  | S754_finite _ _ e => e <= b
  | _ => False
  end.

(** A card the scheduler can review: on the first two reviews any card, later
    one that holds an easiness and a hardness for each repetition made. *)
Definition can_review (c : Card) : Prop :=
  Reps c = 0 ∨ Reps c = 1 ∨
  (2 <= Reps c ∧ Reps c <= len (EFs c) ∧ Reps c <= len (Hardnesses c)).

(** The days [interval] multiplies up for the review number [n]: six, times the
    easiness of each review from the third to the [n]-th. *)
Definition interval_product (efs : list float) (n : Z) : float :=
  foldl (λ days ef, days * ef)%float 6%float (take (Z.to_nat (n - 2)) (drop 2 efs)).

(** A change the program makes to a deck in memory once [OpenDeck] has
    returned it: [d.AddCard(card)], [d.DeleteCard(id)], the review
    [d.Cards[i].CalcNextRep(hardness)] of [study], which marks the deck
    dirty, the new texts [editCard] gives the card [d.Cards[i]], and the
    handle and the flag as a [Sync] leaves them. *)
Inductive change : Type :=
| add_card (card : Card)
| delete_card (id : Z)
| review_card (i : nat) (now : Time) (hardness : Z)
| edit_card (i : nat) (prompt answer : string)
| sync_deck (db : option string) (dirty : bool).

Definition apply_change (ch : change) (d : Deck) : option Deck :=
  match ch with
  | add_card card => Some (AddCard card d)
  | delete_card id => Some (DeleteCard id d)
  | review_card i now hardness =>
      c ← Cards d !! i;
      c' ← CalcNextRep now hardness c;
      Some {| Path := Path d; DB := DB d; Cards := <[i := c']> (Cards d);
              Dirty := true |}
  | edit_card i prompt answer =>
      c ← Cards d !! i;
      let c' := {| Id := Id c; Prompt := prompt; Answer := answer; Reps := Reps c;
                   NextRep := NextRep c; EFs := EFs c; Hardnesses := Hardnesses c |} in
      Some {| Path := Path d; DB := DB d; Cards := <[i := c']> (Cards d);
              Dirty := Dirty d |}
  | sync_deck db dirty =>
      Some {| Path := Path d; DB := db; Cards := Cards d; Dirty := dirty |}
  end.

Fixpoint apply_changes (chs : list change) (d : Deck) : option Deck :=
  match chs with
  | [] => Some d
  | ch :: chs' => d' ← apply_change ch d; apply_changes chs' d'
  end.

(** The ids are increasing and lie in [0, b). *)
Definition ids_below (b : Z) (cs : list Card) : Prop :=
  ids_increasing cs ∧ Forall (λ c, 0 <= Id c < b) cs.

(** A computation that consults the failures at the operations it makes
    only, and in which an operation that fails ends the run with an error:
    a run is the same under any two failure functions that agree on the
    operations it made, and one that returns normally met no failure. *)
Definition regular {A : Type} (m : (nat -> bool) -> M A) : Prop :=
  ∀ f w r w', m f w = (r, w') ->
    (tick w <= tick w')%nat ∧
    (∀ a, r = Ok a -> ∀ k, (tick w <= k < tick w')%nat -> f k = false) ∧
    (∀ f', (∀ k, (tick w <= k < tick w')%nat -> f' k = f k) -> m f' w = (r, w')).

(** The tables [Sync] writes for the cards [cs]. *)
Definition tables_of (cs : list Card) : Tables :=
  store_Cards cs (mkTables [] [] []).

(** A computation that leaves tables in the file at [db] when it finds
    tables there, however it ends. *)
Definition keeps_tables {A : Type} (db : string) (m : M A) : Prop :=
  ∀ w r w', m w = (r, w') ->
    (∃ t, files w !! db = Some (Schema t)) -> ∃ t', files w' !! db = Some (Schema t').

(** A computation that changes no file but the one at [path], and not that
    one either when it holds tables. *)
Definition reads_only {A : Type} (path : string) (m : M A) : Prop :=
  ∀ w r w', m w = (r, w') ->
    (∀ p, p ≠ path -> files w' !! p = files w !! p) ∧
    ((∃ t, files w !! path = Some (Schema t)) -> files w' = files w).

(** [d.DB.Close()]: a nil handle is a nil dereference. *)
Definition DB_Close (d : Deck) : result unit :=
  match DB d with
  | Some _ => Ok ()
  | None => Panic
  end.

(** [d.Close()], deck.go:217: the error returned and the deck as the call
    leaves it. *)
Definition Close (faults : nat -> bool) (d : Deck) :
    World -> (result unit * Deck) * World :=
  λ w,
    if Dirty d then
      match Sync faults d w with
      | ((Err err, d'), w') =>
          match DB_Close d' with
          | Ok _ => ((Err err, d'), w')
          | _ => ((Panic, d'), w')
          end
      | ((Ok _, d'), w') =>
          match DB_Close d' with
          | Ok _ => ((Ok (), d'), w')
          | _ => ((Panic, d'), w')
          end
      | ((Panic, d'), w') => ((Panic, d'), w')
      end
    else
      match DB_Close d with
      | Ok _ => ((Ok (), d), w)
      | _ => ((Panic, d), w)
      end.

(** ** Packages strings, strconv and fmt *)

(** The line feed, [\n] in a Go literal. *)
Definition LF : string := String "010"%char "".

(** The cutset [" \n\t\r"] of the program. *)
Definition blanks : list ascii := [" "; "010"; "009"; "013"]%char.

Fixpoint strings_TrimLeft (s : string) (cutset : list ascii) : string :=
  match s with
  | String a s' => if bool_decide (a ∈ cutset) then strings_TrimLeft s' cutset else s
  | EmptyString => EmptyString
  end.

(** [strings.Trim(s, cutset)], for a cutset of one-byte characters: [s]
    without its leading and trailing bytes that are in the cutset. *)
Definition strings_Trim (s : string) (cutset : list ascii) : string :=
  String.rev (strings_TrimLeft (String.rev (strings_TrimLeft s cutset)) cutset).

(** The value of a string of decimal digits, after the digits read so far. *)
Fixpoint digits (s : string) (acc : Z) : option Z :=
  match s with
  | EmptyString => Some acc
  | String a s' => d ← Ascii.is_nat a; digits s' (acc * 10 + Z.of_nat d)
  end.

(** [strconv.Atoi(s)]: an optional sign and then one or more decimal digits,
    of a value an [int] holds; anything else is a [*NumError], here [None]. *)
Definition strconv_Atoi (s : string) : option Z :=
  let '(neg, ds) :=
    match s with
    | String "-"%char s' => (true, s')
    | String "+"%char s' => (false, s')
    | _ => (false, s)
    end in
  match ds with
  | EmptyString => None
  | _ =>
      n ← digits ds 0;
      let v := if neg : bool then - n else n in
      if (GoInt.min_int <=? v) && (v <=? GoInt.max_int) then Some v else None
  end.

(** [fmt.Sprintf("%d", n)] *)
Definition Sprintf_d (n : Z) : string := pretty n.

(** ** The terminal, the clock and the editor

    What the programs of package main run in. Standard input is a terminal:
    a read delivers one line, or the end of file of a CTRL+D; what is
    written to standard output is kept as the sequence of the calls of
    [fmt], with their operands. *)
Module Console.

(** The values of [error] in the program. *)
Inductive goerror : Type :=
| errors_New (msg : string)     (* errors.New(msg) *)
| deck_error (e : error)        (* an error returned by package deck *)
| io_EOF                        (* io.EOF *)
| read_error                    (* another error of reading standard input *)
| NumError (num : string)       (* the *strconv.NumError of Atoi(num) *)
| quitError                     (* var quitError = errors.New("Peace!") *)
| exec_error.                   (* an error of running the editor *)

(** How a call ends: it returns a value, returns an error, or panics. The
    state paired with [Panics] is the state before the statement that
    panicked. *)
Inductive res (A : Type) : Type :=
| Val (a : A)
| Fails (e : goerror)
| Panics.
Arguments Val {A} a.
Arguments Fails {A} e.
Arguments Panics {A}.

(** An operand of a call of [fmt], and the calls. *)
Inductive operand : Type :=
| str (s : string)
| int (n : Z)
| time (t : Time)
| err (e : goerror)
| strs (l : list string).

Inductive fmt_call : Type :=
| fmt_Print (operands : list operand)
| fmt_Println (operands : list operand)
| fmt_Printf (format : string) (operands : list operand).

(** What a read of the terminal delivers: a line (here without its line
    feed), the end of file, or an error. *)
Inductive read : Type :=
| Line (s : string)
| EndOfFile
| Broken.

(** The state of a run: the files, what the terminal will deliver (after
    that, end of file), what was printed, oldest first, and the numbers of
    calls of [time.Now] and of runs of the editor so far. *)
Record Machine : Type := mkMachine {
  world : World;
  stdin : list read;
  stdout : list fmt_call;
  nows : nat;
  runs : nat
}.

Definition IO (A : Type) : Type := Machine -> res A * Machine.

Definition pure {A : Type} (a : A) : IO A := λ m, (Val a, m).

Definition and_then {A B : Type} (io : IO A) (k : A -> IO B) : IO B :=
  λ m, match io m with
       | (Val a, m') => k a m'
       | (Fails e, m') => (Fails e, m')
       | (Panics, m') => (Panics, m')
       end.

Notation "x <~ io ;; k" := (and_then io (λ x, k))
  (at level 100, io at next level, right associativity, only parsing).

(** A call of [fmt.Print], [fmt.Println] or [fmt.Printf]. *)
Definition fmt (c : fmt_call) : IO unit :=
  λ m, (Val (), {| world := world m; stdin := stdin m; stdout := stdout m ++ [c];
                   nows := nows m; runs := runs m |}).

(** [rdr.ReadString('\n')] on the terminal. *)
Definition ReadString : IO string :=
  λ m, match stdin m with
       | [] => (Fails io_EOF, m)
       | r :: rest =>
           let m' := {| world := world m; stdin := rest; stdout := stdout m;
                        nows := nows m; runs := runs m |} in
           match r with
           | Line s => (Val (s +:+ LF), m')
           | EndOfFile => (Fails io_EOF, m')
           | Broken => (Fails read_error, m')
           end
       end.

(** [time.Now()], for the clock [clock]. *)
Definition Now (clock : nat -> Time) (m : Machine) : Time * Machine :=
  (clock (nows m),
   {| world := world m; stdin := stdin m; stdout := stdout m;
      nows := S (nows m); runs := runs m |}).


(** A command: the error it returns and the deck as it leaves it. *)
Definition Command : Type :=
  Deck -> list string -> Machine -> (res unit * Deck) * Machine.

(** [d.Sync()] called from a command. *)
Definition deck_Sync (faults : nat -> bool) (d : Deck) :
    Machine -> (res unit * Deck) * Machine :=
  λ m,
    let '((r, d'), w') := Sync faults d (world m) in
    let m' := {| world := w'; stdin := stdin m; stdout := stdout m;
                 nows := nows m; runs := runs m |} in
    match r with
    | Ok _ => ((Val (), d'), m')
    | Err e => ((Fails (deck_error e), d'), m')
    | Panic => ((Panics, d'), m')
    end.

End Console.

(** ** Package main: the program, src/vergessen.go

    The cards of a deck are distinct objects, as in every deck [OpenDeck],
    [NewCard] and [AddCard] build: a change of a card changes one entry of
    [d.Cards]. *)
Module Vergessen.

Import Console.

(** [getInput(prompt)], vergessen.go:303 *)
Definition getInput (prompt : string) : IO string :=
  _ <~ fmt (fmt_Print [str prompt]) ;;
  input <~ ReadString ;;
  pure input.

(** [cardNumberFromArgs(args)], vergessen.go:183 *)
Definition cardNumberFromArgs (args : list string) : res Z :=
  match args with
  | [] => Fails (errors_New "No card # given")
  | a :: _ =>
      match strconv_Atoi a with
      | Some num => Val num
      | None => Fails (NumError a)
      end
  end.

Definition maxStudy : Z := 20.

Section Program.

(** The environment of a run: the storage operations that fail, the clock,
    the variable [EDITOR], and the outcome of each run of the editor: the
    name of its temporary file, created and written, and the text of that
    file when the editor has exited. *)
Variable faults : nat -> bool.
Variable clock : nat -> Time.
Variable EDITOR : string.
Variable TempFile : nat -> string -> string -> res string.
Variable edited : nat -> string -> string -> res string.

(** [spawnEditor(prefix, contents)], vergessen.go:252 *)
Definition spawnEditor (prefix contents : string) : IO string :=
  let editor := EDITOR in
  if String.eqb editor "" then
    λ m, (Fails (errors_New "Set your EDITOR env variable!"), m)
  else
    λ m,
      let n := runs m in
      let m := {| world := world m; stdin := stdin m; stdout := stdout m;
                  nows := nows m; runs := S n |} in
      (tmpPath <~ (λ m, (TempFile n ("vergessen." +:+ prefix +:+ ".") contents, m)) ;;
       let cmdArgs := ["/bin/sh"; "-c"; editor +:+ " " +:+ tmpPath] in
       _ <~ fmt (fmt_Println [strs cmdArgs]) ;;
       result <~ (λ m, (edited n tmpPath contents, m)) ;;
       pure result) m.

(** The loop of [study] that asks for the hardness, vergessen.go:140. Each
    round reads the terminal, so the rounds are at most one more than the
    reads to come: [fuel] is never used up. *)
Fixpoint study_hardness (fuel : nat) (card : Card) : IO Z :=
  match fuel with
  | O => λ m, (Panics, m)
  | S fuel' =>
      _ <~ fmt (fmt_Println [str (Answer card)]) ;;
      hardStr <~ getInput "Enter HARDNESS (1-5) and hit ENTER> " ;;
      match strconv_Atoi (strings_Trim hardStr blanks) with
      | Some hardness => pure hardness
      | None =>
          _ <~ fmt (fmt_Printf ("Error reading hardness: %v" +:+ LF)
                      [err (NumError (strings_Trim hardStr blanks))]) ;;
          study_hardness fuel' card
      end
  end.

(** The loop of [study] over [d.Cards], vergessen.go:126, at index [i] with
    [rest] still to visit. [CalcNextRep] reads the clock itself, once, when
    it does not panic. *)
Fixpoint study_loop (i : nat) (rest : list Card) (studied : Z) (d : Deck) :
    Machine -> (res unit * Deck) * Machine :=
  match rest with
  | [] => λ m, ((Val (), d), m)
  | card :: rest' =>
      λ m,
        let '(now, m) := Now clock m in
        if Time_Unix now <? Time_Unix (NextRep card) then
          study_loop (S i) rest' studied d m
        else
          match (_ <~ fmt (fmt_Println [str (Prompt card)]) ;;
                 _ <~ getInput "Press ENTER to see the ANSWER" ;;
                 λ m, study_hardness (S (length (stdin m))) card m) m with
          | (Val hardness, m) =>
              let '(now, m') := Now clock m in
              match CalcNextRep now hardness card with
              | Some card' =>
                  let d := {| Path := Path d; DB := DB d;
                              Cards := <[i := card']> (Cards d);
                              Dirty := true |} in
                  let studied := GoInt.add studied 1 in
                  if maxStudy <? studied then ((Val (), d), m')
                  else study_loop (S i) rest' studied d m'
              | None => ((Panics, d), m)
              end
          | (Fails e, m) => ((Fails e, d), m)
          | (Panics, m) => ((Panics, d), m)
          end
  end.

(** [study(d, args)], vergessen.go:124 *)
Definition study : Command :=
  λ d args m,
    match study_loop 0 (Cards d) 0 d m with
    | ((Val _, d), m) => deck_Sync faults d m
    | r => r
    end.

(** [delCard(d, args)], vergessen.go:196 *)
Definition delCard : Command :=
  λ d args m,
    match cardNumberFromArgs args with
    | Val id => ((Val (), DeleteCard id d), m)
    | Fails e => ((Fails e, d), m)
    | Panics => ((Panics, d), m)
    end.

Definition set_Prompt (prompt : string) (c : Card) : Card :=
  {| Id := Id c; Prompt := prompt; Answer := Answer c; Reps := Reps c;
     NextRep := NextRep c; EFs := EFs c; Hardnesses := Hardnesses c |}.

Definition set_Answer (answer : string) (c : Card) : Card :=
  {| Id := Id c; Prompt := Prompt c; Answer := answer; Reps := Reps c;
     NextRep := NextRep c; EFs := EFs c; Hardnesses := Hardnesses c |}.

Definition set_card (i : nat) (c : Card) (d : Deck) : Deck :=
  {| Path := Path d; DB := DB d; Cards := <[i := c]> (Cards d); Dirty := Dirty d |}.

(** [editCard(d, args)], vergessen.go:206. The card [c] is the one at the
    first index [i] whose card has the id. *)
Definition editCard : Command :=
  λ d args m,
    match cardNumberFromArgs args with
    | Fails e => ((Fails e, d), m)
    | Panics => ((Panics, d), m)
    | Val id =>
        match list_find (λ card, Id card = id) (Cards d) with
        | None => ((Fails (errors_New ("Unknown card id = " +:+ Sprintf_d id)), d), m)
        | Some (i, c) =>
            let edit_answer (c : Card) (d : Deck) (m : Machine) :=
              match getInput "Press ENTER to edit the ANSWER, or CTRL+D to leave as is" m with
              | (Val _, m) =>
                  match spawnEditor "answer" (Answer c) m with
                  | (Val newAnswer, m) => ((Val (), set_card i (set_Answer newAnswer c) d), m)
                  | (Fails e, m) => ((Fails e, d), m)
                  | (Panics, m) => ((Panics, d), m)
                  end
              | (Fails io_EOF, m) =>
                  let '(_, m) := fmt (fmt_Print [str LF]) m in ((Val (), d), m)
              | (Fails e, m) => ((Fails e, d), m)
              | (Panics, m) => ((Panics, d), m)
              end in
            match getInput "Press ENTER to edit the PROMPT, or CTRL+D to leave as is" m with
            | (Val _, m) =>
                match spawnEditor "prompt" (Prompt c) m with
                | (Val newPrompt, m) =>
                    let c := set_Prompt newPrompt c in
                    edit_answer c (set_card i c d) m
                | (Fails e, m) => ((Fails e, d), m)
                | (Panics, m) => ((Panics, d), m)
                end
            | (Fails io_EOF, m) =>
                let '(_, m) := fmt (fmt_Print [str LF]) m in edit_answer c d m
            | (Fails e, m) => ((Fails e, d), m)
            | (Panics, m) => ((Panics, d), m)
            end
        end
    end.


(** The last byte [s[len(s)-1]] of a string; there is none in the empty
    string (an index out of range). *)
Fixpoint last_byte (s : string) : option ascii :=
  match s with
  | EmptyString => None
  | String a EmptyString => Some a
  | String _ s' => last_byte s'
  end.

(** The loop of [list], vergessen.go:173 *)
Fixpoint list_loop (cs : Datatypes.list Card) : IO unit :=
  match cs with
  | [] => pure ()
  | card :: cs' =>
      _ <~ fmt (fmt_Printf "%d (%v): %s" [int (Id card); time (NextRep card);
                                       str (Prompt card)]) ;;
      match last_byte (Prompt card) with
      | None => λ m, (Panics, m)
      | Some b =>
          _ <~ (if bool_decide (b ≠ "010"%char) then fmt (fmt_Print [str LF]) else pure ()) ;;
          list_loop cs'
      end
  end.

(** [list(d, args)], vergessen.go:172 *)
Definition list : Command :=
  λ d args m, let '(r, m') := list_loop (Cards d) m in ((r, d), m').

End Program.

End Vergessen.

(** ** The later program, src/unnamed/part_001

    The file holds two revisions of the program. [Part001] is the first
    (lines 1 to 718), [Part001b] the second (from line 719). The commands
    embedded are those package main does not have in src/vergessen.go, or
    has otherwise. *)
Module Part001.

Import Console.

Section Program.

Variable clock : nat -> Time.

(** The loop of [dueCards], part_001:192 *)
Fixpoint dueCards_loop (cs : list Card) (now : Z) (due : Z) : Z :=
  match cs with
  | [] => due
  | card :: cs' =>
      dueCards_loop cs' now
        (if Time_Unix (NextRep card) <? now then GoInt.add due 1 else due)
  end.

(** [dueCards(d, args)], part_001:189 (and 838) *)
Definition dueCards : Command :=
  λ d args m,
    let due := 0 in
    let '(t, m) := Now clock m in
    let now := Time_Unix t in
    let due := dueCards_loop (Cards d) now due in
    let '(_, m) := fmt (fmt_Println [int due; str "cards due."]) m in
    ((Val (), d), m).

(** [fmtDue(dueTime)], part_001:291. The division of Go truncates. *)
Definition fmtDue (dueTime : Z) (m : Machine) : string * Machine :=
  let '(t, m) := Now clock m in
  let now := Time_Unix t in
  let until := GoInt.sub dueTime now in
  if until <? 0 then ("now", m)
  else
    let days := until `quot` (24 * 60 * 60) in
    if (0 <? days) && (days <? 7) then (Sprintf_d days +:+ " days", m)
    else if (7 <=? days) && (days <=? 365) then
      let weeks := days `quot` 7 in
      (Sprintf_d weeks +:+ " weeks", m)
    else
      let months := days `quot` 30 in
      (Sprintf_d months +:+ " months", m).

End Program.

End Part001.

Module Part001b.

Import Console.

Section Program.

Variable clock : nat -> Time.

(** [fmtDue(dueTime)], part_001:942 *)
Definition fmtDue (dueTime : Z) (m : Machine) : string * Machine :=
  let '(t, m) := Now clock m in
  let now := Time_Unix t in
  let until := GoInt.sub dueTime now in
  if until <? 0 then ("now", m)
  else
    let days := until `quot` (24 * 60 * 60) in
    let '(durationInt, durationNoun, plural) :=
      if days =? 0 then
        let hours := until `quot` (60 * 60) in
        (hours, "hour", 0 <? hours)
      else if (0 <? days) && (days <? 7) then
        (days, "day", 1 <? days)
      else if (7 <=? days) && (days <=? 365) then
        let weeks := days `quot` 7 in
        (weeks, "week", 1 <? weeks)
      else
        let months := days `quot` 30 in
        (months, "month", 1 <? months) in
    let durationNoun := if plural : bool then durationNoun +:+ "s" else durationNoun in
    (Sprintf_d durationInt +:+ " " +:+ durationNoun, m).

(** [showCard(d, args)], part_001:1004 *)
Definition showCard : Command :=
  λ d args m,
    match Vergessen.cardNumberFromArgs args with
    | Fails e => ((Fails e, d), m)
    | Panics => ((Panics, d), m)
    | Val id =>
        if (GoInt.sub (len (Cards d)) 1 <? id) || (id <? 0) then
          ((Fails (errors_New "Invalid card id"), d), m)
        else
          match index (Cards d) id with
          | None => ((Panics, d), m)
          | Some c =>
              let '(r, m) :=
                (_ <~ fmt (fmt_Println [str ("PROMPT" +:+ LF)]) ;;
                 _ <~ fmt (fmt_Println [str (Prompt c)]) ;;
                 _ <~ fmt (fmt_Println [str ("ANSWER" +:+ LF)]) ;;
                 fmt (fmt_Println [str (Answer c)])) m in
              ((r, d), m)
          end
    end.

End Program.

End Part001b.

(** The number of positions at which the cards [cs'] have another repetition
    count than the cards [cs]. *)
Fixpoint reviewed (cs cs' : list Card) : nat :=
  match cs, cs' with
  | c :: cs, c' :: cs' =>
      ((if bool_decide (Reps c' = Reps c) then 0 else 1) + reviewed cs cs')%nat
  | _, _ => 0%nat
  end.

(** What [study] makes of a card, on the clock [clock]: it leaves the card
    alone, or, the card being due at some reading of the clock, reviews it
    once. *)
Definition studied_as (clock : nat -> Time) (c c' : Card) : Prop :=
  c' = c ∨
  ((∃ k, Time_Unix (NextRep c) <= Time_Unix (clock k)) ∧
   ∃ k hardness, CalcNextRep (clock k) hardness c = Some c').

(** A computation on the terminal that leaves the files alone. *)
Definition offline {A : Type} (io : Console.IO A) : Prop :=
  ∀ m, Console.world (io m).2 = Console.world m.

(** What [editCard] may make of a card: another prompt and answer. *)
Definition edited_as (c c' : Card) : Prop :=
  Id c' = Id c ∧ Reps c' = Reps c ∧ NextRep c' = NextRep c ∧
  EFs c' = EFs c ∧ Hardnesses c' = Hardnesses c.

(** What [editCard] may make of a deck. *)
Definition edited_deck (d d' : Deck) : Prop :=
  Path d' = Path d ∧ DB d' = DB d ∧ Dirty d' = Dirty d ∧
  Forall2 edited_as (Cards d) (Cards d').


(** ** Facts on integers and slices *)

Lemma wrap_in_range z : GoInt.in_range z -> GoInt.wrap z = z.
Proof.
  unfold GoInt.in_range, GoInt.min_int, GoInt.max_int, GoInt.wrap.
  intros [Hlo Hhi]. rewrite Z.mod_small; lia.
Qed.

Lemma wrap_range z : GoInt.in_range (GoInt.wrap z).
Proof.
  unfold GoInt.in_range, GoInt.min_int, GoInt.max_int, GoInt.wrap.
  pose proof (Z.mod_pos_bound (z + 2 ^ 63) (2 ^ 64)). lia.
Qed.

Lemma add_small x y :
  GoInt.min_int <= x + y <= GoInt.max_int -> GoInt.add x y = x + y.
Proof. intros H. unfold GoInt.add. by apply wrap_in_range. Qed.

Lemma sub_small x y :
  GoInt.min_int <= x - y <= GoInt.max_int -> GoInt.sub x y = x - y.
Proof. intros H. unfold GoInt.sub. by apply wrap_in_range. Qed.

Lemma len_app {A} (l k : list A) : len (l ++ k) = len l + len k.
Proof. unfold len. rewrite length_app. lia. Qed.

Lemma len_nonneg {A} (l : list A) : 0 <= len l.
Proof. unfold len. lia. Qed.

Lemma index_Some {A} (s : list A) (i : Z) :
  0 <= i < len s -> is_Some (index s i).
Proof.
  unfold index, len. intros [Hlo Hhi].
  destruct (Z.ltb_spec i 0) as [|_]; [lia|].
  apply lookup_lt_is_Some. lia.
Qed.

Lemma index_app_l {A} (s t : list A) (i : Z) :
  0 <= i < len s -> index (s ++ t) i = index s i.
Proof.
  unfold index, len. intros [Hlo Hhi].
  destruct (Z.ltb_spec i 0) as [|_]; [lia|].
  apply lookup_app_l. lia.
Qed.

Lemma index_app_last {A} (s : list A) (x : A) :
  index (s ++ [x]) (len s) = Some x.
Proof.
  unfold index, len.
  destruct (Z.ltb_spec (Z.of_nat (length s)) 0) as [|_]; [lia|].
  rewrite Nat2Z.id. by apply list_lookup_middle.
Qed.

(** ** Facts on binary64

    The operations of [float] are specified by those of [SpecFloat]; what
    follows bounds the exponents they produce, to tell when a result is a
    number. *)
Lemma digits2_pos_size (p : positive) : digits2_pos p = Pos.size p.
Proof. induction p as [p IH|p IH|]; simpl; by rewrite ?IH. Qed.

Lemma digits2_pos_gt (p : positive) : Z.pos p < 2 ^ Z.pos (digits2_pos p).
Proof.
  rewrite digits2_pos_size. pose proof (Pos.size_gt p) as H.
  apply Pos2Z.pos_lt_pos in H. by rewrite Pos2Z.inj_pow in H.
Qed.

Lemma digits2_pos_le (p : positive) : 2 ^ (Z.pos (digits2_pos p) - 1) <= Z.pos p.
Proof.
  rewrite digits2_pos_size.
  assert (H : 2 ^ Z.pos (Pos.size p) <= 2 * Z.pos p).
  { pose proof (Pos.size_le p) as H. apply Pos2Z.pos_le_pos in H.
    rewrite Pos2Z.inj_pow in H. exact H. }
  assert (Hpow : 2 ^ Z.pos (Pos.size p) = 2 * 2 ^ (Z.pos (Pos.size p) - 1)).
  { rewrite <- Z.pow_succ_r by lia. f_equal. lia. }
  lia.
Qed.

Lemma digits2_pos_below (p : positive) (k : Z) :
  Z.pos p < 2 ^ k -> Z.pos (digits2_pos p) <= k.
Proof.
  intros Hp. pose proof (digits2_pos_le p) as Hle.
  destruct (Z.le_gt_cases (Z.pos (digits2_pos p)) k) as [|Hgt]; [done|].
  assert (2 ^ k <= 2 ^ (Z.pos (digits2_pos p) - 1)); [|lia].
  apply Z.pow_le_mono_r; lia.
Qed.

Lemma shr_1_bounds (mrs : shr_record) :
  0 <= shr_m mrs -> 0 <= shr_m (shr_1 mrs) ∧ 2 * shr_m (shr_1 mrs) <= shr_m mrs.
Proof.
  destruct mrs as [m r s]. simpl. destruct m as [|[p|p|]|p]; simpl; lia.
Qed.

Lemma iter_shr_1_bounds (p : positive) (mrs : shr_record) :
  0 <= shr_m mrs ->
  0 <= shr_m (SpecFloat.iter_pos shr_1 p mrs) ∧
  2 ^ Z.pos p * shr_m (SpecFloat.iter_pos shr_1 p mrs) <= shr_m mrs.
Proof.
  revert mrs. induction p as [p IH|p IH|]; intros mrs Hm.
  - assert (Hpow : 2 ^ Z.pos p~1 = 2 * (2 ^ Z.pos p * 2 ^ Z.pos p)).
    { rewrite <- Z.pow_add_r, <- Z.pow_succ_r by lia. f_equal. lia. }
    rewrite Hpow. simpl.
    destruct (shr_1_bounds mrs Hm) as [H1 H1'].
    destruct (IH _ H1) as [H2 H2']. destruct (IH _ H2) as [H3 H3'].
    split; [done|].
    assert (0 < 2 ^ Z.pos p) by (apply Z.pow_pos_nonneg; lia). nia.
  - assert (Hpow : 2 ^ Z.pos p~0 = 2 ^ Z.pos p * 2 ^ Z.pos p).
    { rewrite <- Z.pow_add_r by lia. f_equal. lia. }
    rewrite Hpow. simpl.
    destruct (IH _ Hm) as [H2 H2']. destruct (IH _ H2) as [H3 H3'].
    split; [done|].
    assert (0 < 2 ^ Z.pos p) by (apply Z.pow_pos_nonneg; lia). nia.
  - destruct (shr_1_bounds mrs Hm). split; [done|]. simpl. lia.
Qed.

Lemma round_nearest_even_bounds (m : Z) (l : location) :
  0 <= m -> m <= round_nearest_even m l <= m + 1.
Proof.
  intros Hm. destruct l as [|[]]; simpl; try lia. destruct (Z.even m); lia.
Qed.

Lemma Zdigits2_below (m k : Z) : 0 <= m < 2 ^ k -> 0 <= k -> Zdigits2 m <= k.
Proof.
  intros [Hlo Hhi] Hk. destruct m as [|p|p]; simpl; [done| |lia].
  by apply digits2_pos_below.
Qed.

Lemma Zdigits2_gt (m : Z) : 0 <= m -> m < 2 ^ Zdigits2 m.
Proof.
  intros Hm. destruct m as [|p|p]; simpl; [done| |lia]. apply digits2_pos_gt.
Qed.

Lemma Zdigits2_nonneg (m : Z) : 0 <= Zdigits2 m.
Proof. destruct m; simpl; lia. Qed.

Lemma fexp_ge e : e - prec <= fexp prec emax e ∧ SpecFloat.emin prec emax <= fexp prec emax e.
Proof. unfold fexp. lia. Qed.

Lemma shr_fexp_bounds (m e : Z) (l : location) :
  0 <= m ->
  let E := Z.max e (fexp prec emax (Zdigits2 m + e)) in
  ∃ mrs, shr_fexp prec emax m e l = (mrs, E) ∧
         0 <= shr_m mrs < 2 ^ prec.
Proof.
  intros Hm E. unfold shr_fexp, shr.
  assert (Hrec : shr_m (shr_record_of_loc m l) = m) by (by destruct l as [|[]]).
  pose proof (Zdigits2_gt m Hm) as Hd. pose proof (Zdigits2_nonneg m) as Hd0.
  destruct (fexp_ge (Zdigits2 m + e)) as [Hf _].
  destruct (fexp prec emax (Zdigits2 m + e) - e) as [|p|p] eqn:Hn.
  - eexists. split; [f_equal; unfold E; lia|]. rewrite Hrec. split; [done|].
    eapply Z.lt_le_trans; [exact Hd|]. apply Z.pow_le_mono_r; lia.
  - destruct (iter_shr_1_bounds p (shr_record_of_loc m l)) as [H0 Hle];
      [by rewrite Hrec|]. rewrite Hrec in Hle.
    eexists. split; [f_equal; unfold E; lia|]. split; [done|].
    match type of Hle with _ * ?x <= _ => set (m' := x) in * end.
    destruct (Z.le_gt_cases (Z.pos p) (Zdigits2 m)) as [Hpd|Hpd].
    + assert (Hpow : 2 ^ Zdigits2 m = 2 ^ Z.pos p * 2 ^ (Zdigits2 m - Z.pos p)).
      { rewrite <- Z.pow_add_r by lia. f_equal. lia. }
      assert (0 < 2 ^ Z.pos p) by (apply Z.pow_pos_nonneg; lia).
      assert (m' < 2 ^ (Zdigits2 m - Z.pos p)).
      { apply (Z.mul_lt_mono_pos_l (2 ^ Z.pos p)); [done|]. rewrite <- Hpow.
        lia. }
      eapply Z.lt_le_trans; [eassumption|]. apply Z.pow_le_mono_r; lia.
    + assert (2 ^ Zdigits2 m <= 2 ^ Z.pos p) by (apply Z.pow_le_mono_r; lia).
      assert (0 < 2 ^ Z.pos p) by (apply Z.pow_pos_nonneg; lia).
      assert (m' < 1).
      { apply (Z.mul_lt_mono_pos_l (2 ^ Z.pos p)); [done|]. lia. }
      assert (0 < 2 ^ prec) by done. lia.
  - eexists. split; [f_equal; unfold E; lia|]. rewrite Hrec. split; [done|].
    eapply Z.lt_le_trans; [exact Hd|]. apply Z.pow_le_mono_r; lia.
Qed.

Lemma binary_round_aux_finite (s : bool) (m e : Z) (l : location) :
  0 <= m ->
  Z.max e (fexp prec emax (Zdigits2 m + e)) + 1 <= emax - prec ->
  SF_exp_le (Z.max e (fexp prec emax (Zdigits2 m + e)) + 1)
    (binary_round_aux prec emax s m e l).
Proof.
  intros Hm HE. unfold binary_round_aux.
  destruct (shr_fexp_bounds m e l Hm) as (mrs' & -> & Hm1).
  set (E := Z.max e _) in *.
  pose proof (round_nearest_even_bounds (shr_m mrs') (loc_of_shr_record mrs')
                ltac:(lia)) as Hm2.
  set (m2 := round_nearest_even _ _) in *.
  destruct (shr_fexp_bounds m2 E loc_Exact ltac:(lia)) as (mrs'' & -> & Hm3).
  assert (Hd2 : Zdigits2 m2 <= prec + 1).
  { apply Zdigits2_below; [|done]. split; [lia|].
    change (2 ^ (prec + 1)) with 18014398509481984.
    change (2 ^ prec) with 9007199254740992 in *. lia. }
  assert (HE' : SpecFloat.emin prec emax <= E).
  { unfold E. destruct (fexp_ge (Zdigits2 m + e)). lia. }
  assert (Hfexp : fexp prec emax (Zdigits2 m2 + E) <= E + 1).
  { unfold fexp. change prec with 53 in *. lia. }
  destruct (shr_m mrs'') as [|p|p] eqn:Hp; simpl; [done| |lia].
  destruct (Z.leb_spec (Z.max E (fexp prec emax (Zdigits2 m2 + E))) (emax - prec));
    simpl; lia.
Qed.

Lemma binary_round_aux_not_nan (s : bool) (m e : Z) (l : location) :
  0 <= m -> binary_round_aux prec emax s m e l ≠ S754_nan.
Proof.
  intros Hm. unfold binary_round_aux.
  destruct (shr_fexp_bounds m e l Hm) as (mrs' & -> & Hm1).
  pose proof (round_nearest_even_bounds (shr_m mrs') (loc_of_shr_record mrs')
                ltac:(lia)) as Hm2.
  destruct (shr_fexp_bounds (round_nearest_even (shr_m mrs') (loc_of_shr_record mrs'))
              (Z.max e (fexp prec emax (Zdigits2 m + e))) loc_Exact ltac:(lia))
    as (mrs'' & -> & Hm3).
  destruct (shr_m mrs'') as [|p|p]; [done| |lia].
  by destruct (_ <=? _).
Qed.

Lemma binary_round_not_nan (s : bool) (m : positive) (e : Z) :
  binary_round prec emax s m e ≠ S754_nan.
Proof.
  unfold binary_round. destruct (shl_align _ _ _) as [mz ez].
  by apply binary_round_aux_not_nan.
Qed.

Lemma binary_normalize_not_nan (m e : Z) (szero : bool) :
  binary_normalize prec emax m e szero ≠ S754_nan.
Proof. destruct m; simpl; [done|apply binary_round_not_nan..]. Qed.

Lemma SFadd_not_nan (x y : spec_float) :
  x ≠ S754_nan -> SF_finite y -> SFadd prec emax x y ≠ S754_nan.
Proof.
  intros Hx Hy. destruct x as [sx|sx| |sx mx ex], y as [sy|sy| |sy my ey];
    try done; simpl.
  - by destruct sx, sy.
  - apply binary_normalize_not_nan.
Qed.

Lemma SFsub_not_nan (x y : spec_float) :
  x ≠ S754_nan -> SF_finite y -> SFsub prec emax x y ≠ S754_nan.
Proof.
  intros Hx Hy. destruct x as [sx|sx| |sx mx ex], y as [sy|sy| |sy my ey];
    try done; simpl.
  - by destruct sx, sy.
  - apply binary_normalize_not_nan.
Qed.

Lemma iter_xO_pow (p d : positive) :
  Z.pos (Pos.iter xO p d) = Z.pos p * 2 ^ Z.pos d.
Proof.
  induction d as [|d IH] using Pos.peano_ind.
  - simpl. lia.
  - rewrite Pos.iter_succ, Pos2Z.inj_xO, IH, Pos2Z.inj_succ, Z.pow_succ_r by lia.
    lia.
Qed.

(** The conversion of a non-negative integer below 2^63. *)
Lemma binary_normalize_int (v : Z) :
  0 <= v < 2 ^ 63 -> SF_exp_le 11 (binary_normalize prec emax v 0 false).
Proof.
  intros [Hlo Hhi]. destruct v as [|p|p]; [done| |lia]. simpl.
  unfold binary_round.
  assert (Hdg : Z.pos (digits2_pos p) <= 63) by (by apply digits2_pos_below).
  pose proof (digits2_pos_gt p) as Hgt.
  destruct (shl_align p 0 _) as [mz ez] eqn:Hsh.
  assert (Hb : ez <= 10 ∧ Zdigits2 (Z.pos mz) + ez <= 63).
  { unfold shl_align in Hsh.
    destruct (fexp prec emax (Z.pos (digits2_pos p) + 0) - 0) as [|d|d] eqn:Hd;
      injection Hsh as <- <-; simpl; try lia.
    unfold fexp in *. change prec with 53 in *. change emax with 1024 in *.
    unfold SpecFloat.emin in *. split; [lia|].
    assert (Z.pos (digits2_pos (Pos.iter xO p d)) <= Z.pos (digits2_pos p) + Z.pos d);
      [|lia].
    apply digits2_pos_below. rewrite iter_xO_pow, Z.pow_add_r by lia.
    assert (0 < 2 ^ Z.pos d) by (apply Z.pow_pos_nonneg; lia). nia. }
  destruct Hb as [Hez Hdz].
  pose proof (binary_round_aux_finite false (Z.pos mz) ez loc_Exact ltac:(lia)) as Hfin.
  assert (HE : Z.max ez (fexp prec emax (Zdigits2 (Z.pos mz) + ez)) <= 10).
  { unfold fexp. change prec with 53. change emax with 1024.
    unfold SpecFloat.emin. lia. }
  assert (Hmax : emax - prec = 971) by done.
  specialize (Hfin ltac:(lia)).
  destruct (binary_round_aux _ _ _ _ _ _); simpl in *; try done. lia.
Qed.

Lemma valid_digits (s : bool) (m : positive) (e : Z) :
  valid_binary (S754_finite s m e) = true -> Z.pos (digits2_pos m) <= prec.
Proof.
  simpl. unfold bounded, canonical_mantissa. intros Hv.
  apply andb_prop in Hv as [Hc _]. apply Z.eqb_eq in Hc.
  destruct (fexp_ge (Z.pos (digits2_pos m) + e)). lia.
Qed.

(** A product with a constant of small exponent. *)
Lemma SFmul_finite (sc : bool) (mc : positive) (ec : Z) (x : spec_float) :
  Z.pos (digits2_pos mc) <= prec -> -1000 <= ec <= 0 ->
  valid_binary x = true -> SF_exp_le 11 x ->
  SF_finite (SFmul prec emax (S754_finite sc mc ec) x).
Proof.
  intros Hmc Hec Hv Hx. destruct x as [s|s| |s m e]; try done. simpl in Hx.
  apply valid_digits in Hv. unfold SFmul.
  assert (Hd : Zdigits2 (Z.pos (mc * m)) <= 2 * prec).
  { simpl. apply digits2_pos_below. rewrite Pos2Z.inj_mul.
    pose proof (digits2_pos_gt mc). pose proof (digits2_pos_gt m).
    assert (2 ^ Z.pos (digits2_pos mc) <= 2 ^ prec) by (apply Z.pow_le_mono_r; lia).
    assert (2 ^ Z.pos (digits2_pos m) <= 2 ^ prec) by (apply Z.pow_le_mono_r; lia).
    replace (2 * prec) with (prec + prec) by lia. rewrite Z.pow_add_r by done.
    nia. }
  pose proof (binary_round_aux_finite (xorb sc s) (Z.pos (mc * m)) (ec + e) loc_Exact
                ltac:(lia)) as Hfin.
  assert (HE : Z.max (ec + e) (fexp prec emax (Zdigits2 (Z.pos (mc * m)) + (ec + e)))
               <= 64).
  { unfold fexp. change prec with 53 in *. change emax with 1024.
    unfold SpecFloat.emin. lia. }
  assert (Hmax : emax - prec = 971) by done.
  specialize (Hfin ltac:(lia)).
  by destruct (binary_round_aux _ _ _ _ _ _).
Qed.

Lemma SF_exp_le_opp b x : SF_exp_le b x -> SF_exp_le b (SFopp x).
Proof. by destruct x. Qed.

Lemma of_uint63_small (v : Z) :
  0 <= v < 2 ^ 63 -> SF_exp_le 11 (Prim2SF (of_uint63 (Uint63.of_Z v))).
Proof.
  intros Hv. rewrite of_uint63_spec, Uint63.of_Z_spec.
  rewrite Z.mod_small by (change wB with (2 ^ 63); lia).
  by apply binary_normalize_int.
Qed.

Lemma float64_of_int_small (z : Z) : SF_exp_le 11 (Prim2SF (float64_of_int z)).
Proof.
  unfold float64_of_int.
  pose proof (wrap_range z) as Hw.
  unfold GoInt.in_range, GoInt.min_int, GoInt.max_int in *.
  destruct (Z.eqb_spec (GoInt.wrap z) (- 2 ^ 63)); [by vm_compute|].
  destruct (Z.ltb_spec (GoInt.wrap z) 0).
  - rewrite FloatAxioms.opp_spec. apply SF_exp_le_opp, of_uint63_small. lia.
  - apply of_uint63_small. lia.
Qed.

Lemma SF_exp_le_finite b x : SF_exp_le b x -> SF_finite x.
Proof. by destruct x. Qed.

Lemma mul_028_finite (z : Z) :
  SF_finite (Prim2SF (0.28 * float64_of_int z)%float).
Proof.
  rewrite FloatAxioms.mul_spec.
  change (Prim2SF 0.28) with (S754_finite false 5044031582654956 (-54)).
  apply SFmul_finite; [by vm_compute|done|apply Prim2SF_valid|apply float64_of_int_small].
Qed.

Lemma mul_002_finite (z : Z) :
  SF_finite (Prim2SF (0.02 * float64_of_int z)%float).
Proof.
  rewrite FloatAxioms.mul_spec.
  change (Prim2SF 0.02) with (S754_finite false 5764607523034235 (-58)).
  apply SFmul_finite; [by vm_compute|done|apply Prim2SF_valid|apply float64_of_int_small].
Qed.

Lemma calc_is_number (efprime : float) (h hh : Z) :
  is_number efprime ->
  is_number (efprime - 0.8 + 0.28 * float64_of_int h - 0.02 * float64_of_int hh)%float.
Proof.
  unfold is_number. intros Hprime.
  rewrite FloatAxioms.sub_spec. apply SFsub_not_nan; [|apply mul_002_finite].
  rewrite FloatAxioms.add_spec. apply SFadd_not_nan; [|apply mul_028_finite].
  rewrite FloatAxioms.sub_spec. apply SFsub_not_nan; [done|by vm_compute].
Qed.

Lemma leb_is_number (x : float) : (1.3 <=? x)%float = true -> is_number x.
Proof.
  rewrite FloatAxioms.leb_spec. unfold is_number, SFleb. intros H Hx. rewrite Hx in H.
  by vm_compute in H.
Qed.

Lemma not_ltb_leb (x : float) :
  is_number x -> (x <? 1.3)%float = false -> (1.3 <=? x)%float = true.
Proof.
  unfold is_number. rewrite FloatAxioms.ltb_spec, FloatAxioms.leb_spec.
  change (Prim2SF 1.3) with (S754_finite false 5854679515581645 (-52)).
  unfold SFltb, SFleb.
  destruct (Prim2SF x) as [s|s| |s m e].
  - intros _ H. discriminate H.
  - destruct s; intros _ H; [discriminate H|reflexivity].
  - intros H. destruct (H eq_refl).
  - destruct s; intros _; [intros H; discriminate H|].
    cbn [SFcompare]. rewrite (Z.compare_antisym e (-52)).
    destruct (e ?= -52) eqn:He; cbn [CompOpp];
      try (intros H; discriminate H); try reflexivity.
    assert (Pos.compare_cont Eq 5854679515581645 m =
            CompOpp (Pos.compare_cont Eq m 5854679515581645)) as ->.
    { symmetry. apply (Pos.compare_cont_antisym m 5854679515581645 Eq). }
    destruct (Pos.compare_cont Eq m _); cbn [CompOpp]; try reflexivity.
    intros H. discriminate H.
Qed.

(** ** The scheduler *)

(** [interval] returns for every review number that has its easiness
    recorded, and satisfies the recursion of the code. *)
Lemma interval_rec_Some (efs : list float) (fuel : nat) (n : Z) :
  1 <= n <= len efs -> n <= GoInt.max_int -> n - 2 <= Z.of_nat fuel ->
  is_Some (interval_rec fuel efs n).
Proof.
  revert n. induction fuel as [|fuel IH]; intros n Hn Hmax Hfuel; simpl.
  - destruct (Z.eqb_spec n 1); [by eexists|].
    destruct (Z.eqb_spec n 2); [by eexists|]. lia.
  - destruct (Z.eqb_spec n 1); [by eexists|].
    destruct (Z.eqb_spec n 2); [by eexists|].
    rewrite sub_small by (unfold GoInt.min_int, GoInt.max_int in *; lia).
    destruct (IH (n - 1)) as [prev ->]; [lia..|].
    destruct (index_Some efs (n - 1)) as [ef ->]; [lia|].
    by eexists.
Qed.

Lemma interval_Some (efs : list float) (n : Z) :
  1 <= n <= len efs -> n <= GoInt.max_int -> is_Some (interval efs n).
Proof. intros Hn Hmax. apply interval_rec_Some; [done..|lia]. Qed.

Lemma interval_1 efs : interval efs 1 = Some 1%float.
Proof. reflexivity. Qed.

Lemma interval_2 efs : interval efs 2 = Some 6%float.
Proof. reflexivity. Qed.


Lemma interval_step (efs : list float) (n : Z) :
  3 <= n <= GoInt.max_int ->
  interval efs n =
    prev ← interval efs (n - 1); ef ← index efs (n - 1); Some (prev * ef)%float.
Proof.
  intros Hn. unfold interval.
  replace (Z.to_nat n) with (S (Z.to_nat (n - 1))) by lia. simpl.
  destruct (Z.eqb_spec n 1); [lia|]. destruct (Z.eqb_spec n 2); [lia|].
  by rewrite sub_small by (unfold GoInt.min_int, GoInt.max_int in *; lia).
Qed.

(** One review of a card whose histories are in step with its count: the call
    returns, and appends one entry to each history. *)
Lemma CalcNextRep_step (now : Time) (hardness : Z) (c : Card) :
  histories_ok c -> Reps c < GoInt.max_int ->
  ∃ c' ef, CalcNextRep now hardness c = Some c' ∧
    Reps c' = Reps c + 1 ∧ EFs c' = EFs c ++ [ef] ∧
    Hardnesses c' = Hardnesses c ++ [hardness].
Proof.
  intros [Hefs Hhs] Hmax. unfold CalcNextRep.
  pose proof (len_nonneg (EFs c)) as Hpos.
  assert (Hmm : GoInt.min_int < 0 ∧ 3 < GoInt.max_int) by done.
  rewrite add_small by lia.
  destruct (Z.eqb_spec (Reps c + 1) 1); [by eexists _, _|].
  destruct (Z.eqb_spec (Reps c + 1) 2); [by eexists _, _|].
  rewrite !sub_small by lia.
  destruct (index_Some (EFs c) (Reps c + 1 - 2)) as [efprime ->]; [lia|].
  replace (Reps c + 1 - 1) with (len (Hardnesses c)) by lia.
  rewrite index_app_last. simpl.
  destruct (interval_Some (EFs c ++ [calcEf efprime hardness]) (Reps c + 1))
    as [days ->]; [rewrite len_app; unfold len at 2; simpl; lia|lia|].
  simpl. by eexists _, _.
Qed.

Lemma CalcNextRep_000_step (now : Time) (hardness : Z) (c : Card) :
  histories_ok c -> Reps c < GoInt.max_int ->
  ∃ c' ef, Part000.CalcNextRep now hardness c = Some c' ∧
    Reps c' = Reps c + 1 ∧ EFs c' = EFs c ++ [ef] ∧
    Hardnesses c' = Hardnesses c ++ [hardness].
Proof.
  intros [Hefs Hhs] Hmax. unfold Part000.CalcNextRep.
  pose proof (len_nonneg (EFs c)) as Hpos.
  assert (Hmm : GoInt.min_int < 0 ∧ 3 < GoInt.max_int) by done.
  rewrite add_small by lia.
  destruct (Z.eqb_spec (Reps c + 1) 1); [by eexists _, _|].
  destruct (Z.eqb_spec (Reps c + 1) 2); [by eexists _, _|].
  rewrite !sub_small by lia.
  destruct (index_Some (EFs c) (Reps c + 1 - 2)) as [efprime ->]; [lia|].
  replace (Reps c + 1 - 1) with (len (Hardnesses c)) by lia.
  rewrite index_app_last. simpl.
  destruct (hardness =? 5); [by eexists _, _|].
  destruct (interval_Some (EFs c ++ [calcEf efprime hardness]) (Reps c + 1))
    as [days ->]; [rewrite len_app; unfold len at 2; simpl; lia|lia|].
  simpl. by eexists _, _.
Qed.

Lemma histories_ok_step (c c' : Card) (ef : float) (hardness : Z) :
  histories_ok c -> Reps c' = Reps c + 1 -> EFs c' = EFs c ++ [ef] ->
  Hardnesses c' = Hardnesses c ++ [hardness] -> histories_ok c'.
Proof.
  intros [Hefs Hhs] Hreps Hefs' Hhs'. unfold histories_ok.
  rewrite Hefs', Hhs', Hreps, !len_app. unfold len at 2 4. simpl. lia.
Qed.

(** A study session on a card whose histories are in step with its count
    runs to its end, and leaves them in step. *)
Lemma reviews_histories (rs : list (Time * Z)) (c : Card) :
  histories_ok c -> Reps c + len rs <= GoInt.max_int ->
  ∃ c', reviews rs c = Some c' ∧ Reps c' = Reps c + len rs ∧
        len (EFs c') = Reps c' ∧ len (Hardnesses c') = Reps c'.
Proof.
  revert c. induction rs as [|[now hardness] rs IH]; intros c Hc Hmax; simpl.
  - exists c. unfold len; simpl. destruct Hc. split_and!; [done|lia|done..].
  - unfold len in Hmax; simpl in Hmax.
    destruct (CalcNextRep_step now hardness c) as (c' & ef & -> & Hreps & Hefs & Hhs);
      [done|lia|]. simpl.
    destruct (IH c') as (c'' & Hrun & Hreps' & Hefs' & Hhs');
      [by eapply histories_ok_step|unfold len; lia|].
    exists c''. repeat split; [done| |done..].
    rewrite Hreps', Hreps. unfold len; simpl. lia.
Qed.

(** C6. A new card has no repetition and empty histories, and after every
    review of a study session, on a new card or on any card whose histories
    are in step with its count, [len(EFs) == len(Hardnesses) == Reps]: the
    session runs to its end (no call panics), the card has one more
    repetition per review, and each history has as many entries. A slice
    holds at most [max_int] entries, whence the bound on the count. *)
Theorem CalcNextRep_histories_invariant :
  (∀ now prompt answer,
     let c := NewCard now prompt answer in
     Reps c = 0 ∧ EFs c = [] ∧ Hardnesses c = [] ∧ histories_ok c) ∧
  (∀ (rs : list (Time * Z)) (c : Card),
     histories_ok c -> Reps c + len rs <= GoInt.max_int ->
     ∃ c', reviews rs c = Some c' ∧ Reps c' = Reps c + len rs ∧
           len (EFs c') = Reps c' ∧ len (Hardnesses c') = Reps c').
Proof. split; [done|]. exact reviews_histories. Qed.

Lemma CalcNextRep_histories_invariant_witness :
  ∃ c', reviews [(0, 3); (86400000000000, 4); (432000000000000, 2)]
          (NewCard 0 "prompt" "answer") = Some c' ∧
        Reps c' = 3 ∧ len (EFs c') = Reps c' ∧ len (Hardnesses c') = Reps c'.
Proof.
  destruct CalcNextRep_histories_invariant as [_ H].
  apply (H [(0, 3); (86400000000000, 4); (432000000000000, 2)]
           (NewCard 0 "prompt" "answer")).
  - split; reflexivity.
  - vm_compute. discriminate.
Defined.

(** What [calcEf] returns is never below the floor, whatever it is given. *)
Lemma calcEf_floor (efprime : float) (hardness : Z) :
  not_below_floor (calcEf efprime hardness).
Proof.
  unfold not_below_floor, calcEf.
  set (ef := (efprime - _ + _ - _)%float).
  destruct (ef <? 1.3)%float eqn:Hlt; [reflexivity|exact Hlt].
Qed.

Lemma defaultEF_floor : not_below_floor defaultEF.
Proof. reflexivity. Qed.

(** The entry a review appends to [EFs]. *)
Lemma CalcNextRep_appends (now : Time) (hardness : Z) (c c' : Card) :
  CalcNextRep now hardness c = Some c' ->
  ∃ ef, EFs c' = EFs c ++ [ef] ∧ not_below_floor ef ∧
        (Reps c' = 1 ∨ Reps c' = 2 -> ef = defaultEF).
Proof.
  unfold CalcNextRep.
  destruct (Z.eqb_spec (GoInt.add (Reps c) 1) 1) as [H1|H1].
  { intros [= <-]. exists defaultEF. by split_and!. }
  destruct (Z.eqb_spec (GoInt.add (Reps c) 1) 2) as [H2|H2].
  { intros [= <-]. exists defaultEF. by split_and!. }
  destruct (index (EFs c) _) as [efprime|]; [|done]. simpl.
  destruct (index (Hardnesses c ++ _) _) as [h|]; [|done]. simpl.
  destruct (interval _ _) as [days|]; [|done]. simpl.
  intros [= <-]. exists (calcEf efprime h). simpl.
  split_and!; [done|apply calcEf_floor|lia].
Qed.

Lemma CalcNextRep_000_appends (now : Time) (hardness : Z) (c c' : Card) :
  Part000.CalcNextRep now hardness c = Some c' ->
  ∃ ef, EFs c' = EFs c ++ [ef] ∧ not_below_floor ef ∧
        (Reps c' = 1 ∨ Reps c' = 2 -> ef = defaultEF).
Proof.
  unfold Part000.CalcNextRep.
  destruct (Z.eqb_spec (GoInt.add (Reps c) 1) 1) as [H1|H1].
  { intros [= <-]. exists defaultEF. by split_and!. }
  destruct (Z.eqb_spec (GoInt.add (Reps c) 1) 2) as [H2|H2].
  { intros [= <-]. exists defaultEF. by split_and!. }
  destruct (index (EFs c) _) as [efprime|]; [|done]. simpl.
  destruct (index (Hardnesses c ++ _) _) as [h|]; [|done]. simpl.
  destruct (hardness =? 5).
  { intros [= <-]. exists (calcEf efprime h). simpl.
    split_and!; [done|apply calcEf_floor|lia]. }
  destruct (interval _ _) as [days|]; [|done]. simpl.
  intros [= <-]. exists (calcEf efprime h). simpl.
  split_and!; [done|apply calcEf_floor|lia].
Qed.

Lemma reviews_appends (rs : list (Time * Z)) (c c' : Card) :
  reviews rs c = Some c' ->
  ∃ efs, EFs c' = EFs c ++ efs ∧ length efs = length rs ∧
         Forall not_below_floor efs.
Proof.
  revert c. induction rs as [|[now hardness] rs IH]; intros c; simpl.
  - intros [= <-]. exists []. by rewrite app_nil_r.
  - destruct (CalcNextRep now hardness c) as [c1|] eqn:Hstep; [|done]. simpl.
    intros Hrun.
    destruct (CalcNextRep_appends _ _ _ _ Hstep) as (ef & Hef & Hfloor & _).
    destruct (IH _ Hrun) as (efs & Hefs & Hlen & Hall).
    exists (ef :: efs). rewrite Hefs, Hef, <- app_assoc. simpl.
    split_and!; [done|by rewrite Hlen|by constructor].
Qed.

(** What [calcEf] returns is at least the floor when the previous easiness
    is a number. *)
Lemma calcEf_at_least (efprime : float) (hardness : Z) :
  is_number efprime -> at_least_floor (calcEf efprime hardness).
Proof.
  intros Hprime. unfold at_least_floor, calcEf.
  pose proof (calc_is_number efprime hardness (GoInt.mul hardness hardness) Hprime)
    as Hnum.
  set (ef := (efprime - _ + _ - _)%float) in *.
  destruct (ef <? 1.3)%float eqn:Hlt; [reflexivity|by apply not_ltb_leb].
Qed.

Lemma index_elem_of {A} (s : list A) (i : Z) (x : A) : index s i = Some x -> x ∈ s.
Proof.
  unfold index. destruct (i <? 0); [done|]. apply list_elem_of_lookup_2.
Qed.

Lemma CalcNextRep_appends_number (now : Time) (hardness : Z) (c c' : Card) :
  Forall is_number (EFs c) -> CalcNextRep now hardness c = Some c' ->
  ∃ ef, EFs c' = EFs c ++ [ef] ∧ at_least_floor ef.
Proof.
  intros Hnum. unfold CalcNextRep.
  destruct (Z.eqb_spec (GoInt.add (Reps c) 1) 1) as [H1|H1].
  { intros [= <-]. by exists defaultEF. }
  destruct (Z.eqb_spec (GoInt.add (Reps c) 1) 2) as [H2|H2].
  { intros [= <-]. by exists defaultEF. }
  destruct (index (EFs c) _) as [efprime|] eqn:Hprime; [|done]. simpl.
  destruct (index (Hardnesses c ++ _) _) as [h|]; [|done]. simpl.
  destruct (interval _ _) as [days|]; [|done]. simpl.
  intros [= <-]. exists (calcEf efprime h). simpl. split; [done|].
  apply calcEf_at_least. rewrite Forall_forall in Hnum.
  by apply Hnum, (index_elem_of _ _ _ Hprime).
Qed.

Lemma CalcNextRep_000_appends_number (now : Time) (hardness : Z) (c c' : Card) :
  Forall is_number (EFs c) -> Part000.CalcNextRep now hardness c = Some c' ->
  ∃ ef, EFs c' = EFs c ++ [ef] ∧ at_least_floor ef.
Proof.
  intros Hnum. unfold Part000.CalcNextRep.
  destruct (Z.eqb_spec (GoInt.add (Reps c) 1) 1) as [H1|H1].
  { intros [= <-]. by exists defaultEF. }
  destruct (Z.eqb_spec (GoInt.add (Reps c) 1) 2) as [H2|H2].
  { intros [= <-]. by exists defaultEF. }
  destruct (index (EFs c) _) as [efprime|] eqn:Hprime; [|done]. simpl.
  destruct (index (Hardnesses c ++ _) _) as [h|]; [|done]. simpl.
  assert (Hfloor : at_least_floor (calcEf efprime h)).
  { apply calcEf_at_least. rewrite Forall_forall in Hnum.
    by apply Hnum, (index_elem_of _ _ _ Hprime). }
  destruct (hardness =? 5).
  { intros [= <-]. by exists (calcEf efprime h). }
  destruct (interval _ _) as [days|]; [|done]. simpl.
  intros [= <-]. by exists (calcEf efprime h).
Qed.

Lemma reviews_at_least (rs : list (Time * Z)) (c c' : Card) :
  Forall at_least_floor (EFs c) -> reviews rs c = Some c' ->
  Forall at_least_floor (EFs c').
Proof.
  revert c. induction rs as [|[now hardness] rs IH]; intros c Hc; simpl.
  - by intros [= <-].
  - destruct (CalcNextRep now hardness c) as [c1|] eqn:Hstep; [|done]. simpl.
    apply IH.
    destruct (CalcNextRep_appends_number now hardness c c1) as (ef & -> & Hef);
      [|done|].
    + eapply Forall_impl; [exact Hc|]. apply leb_is_number.
    + apply Forall_app. split; [done|]. by constructor.
Qed.

(** C8. Every value a review appends to the easiness history is at least
    1.3, for every integer hardness: on the first two reviews it is the
    default 1.75, and later [calcEf] clamps at 1.3. For every card the value
    appended is not below 1.3 (the comparison [ef < 1.3] of the code is
    false of it), and it is at least 1.3 when the easiness values the card
    holds are numbers. So every card that went through any study session
    since it was created holds easiness values of at least 1.3 only. *)
Theorem CalcNextRep_easiness_floor :
  (∀ now hardness c c',
     CalcNextRep now hardness c = Some c' ->
     ∃ ef, EFs c' = EFs c ++ [ef] ∧ not_below_floor ef ∧
           (Reps c' = 1 ∨ Reps c' = 2 -> ef = 1.75%float) ∧
           (Forall is_number (EFs c) -> at_least_floor ef)) ∧
  (∀ (rs : list (Time * Z)) now prompt answer,
     len rs <= GoInt.max_int ->
     ∃ c', reviews rs (NewCard now prompt answer) = Some c' ∧
           length (EFs c') = length rs ∧ Forall at_least_floor (EFs c')).
Proof.
  split.
  - intros now hardness c c' Hstep.
    destruct (CalcNextRep_appends _ _ _ _ Hstep) as (ef & Hef & Hfloor & Hdef).
    exists ef. split_and!; [done..|]. intros Hnum.
    destruct (CalcNextRep_appends_number _ _ _ _ Hnum Hstep) as (ef' & Hef' & Hleb).
    rewrite Hef in Hef'. by apply app_inj_tail in Hef' as [_ ->].
  - intros rs now prompt answer Hlen.
    destruct (reviews_histories rs (NewCard now prompt answer)) as (c' & Hc' & _);
      [done..|].
    exists c'. split; [done|].
    destruct (reviews_appends _ _ _ Hc') as (efs & Hefs & Hlen' & _).
    simpl in Hefs. split; [by rewrite Hefs|].
    by apply (reviews_at_least rs (NewCard now prompt answer)).
Qed.

Lemma CalcNextRep_easiness_floor_witness :
  ∃ c', reviews [(0, 1); (0, -7); (0, 0); (0, 100); (0, 5)]
          (NewCard 0 "prompt" "answer") = Some c' ∧
        length (EFs c') = 5%nat ∧ Forall at_least_floor (EFs c').
Proof.
  destruct CalcNextRep_easiness_floor as [_ H].
  apply (H [(0, 1); (0, -7); (0, 0); (0, 100); (0, 5)] 0 "prompt" "answer").
  vm_compute. discriminate.
Defined.

(** C1. The third review of a new card, with hardness 3: the easiness
    appended is 1.61, and the card is due 9.66 days later, six days times
    1.61, not 6.44 days, because [interval(2)] is 6 where the second review
    itself waits 4 days. The scheduler of [part_000] does the same. *)
Theorem CalcNextRep_third_review_hardness_3 :
  ∀ t0 prompt answer t1 h1 t2 h2 now,
    let third :=
      Some {| Id := 0; Prompt := prompt; Answer := answer; Reps := 3;
              NextRep := now + 966 * (Day `div` 100);
              EFs := [1.75; 1.75; 1.61]%float;
              Hardnesses := [h1; h2; 3] |} in
    reviews [(t1, h1); (t2, h2); (now, 3)] (NewCard t0 prompt answer) = third ∧
    reviews_000 [(t1, h1); (t2, h2); (now, 3)] (NewCard t0 prompt answer) = third ∧
    interval [1.75; 1.75; 1.61]%float 3 = Some (6 * 1.61)%float ∧
    days_Duration (6 * 1.61)%float = 966 * (Day `div` 100) ∧
    days_Duration (4 * 1.61)%float = 644 * (Day `div` 100).
Proof.
  intros. subst third. split_and!; by vm_compute.
Qed.

(** C4. In the scheduler of [part_000], a hardness of 5 on the third or a
    later review makes the card due at the instant of the review, with no
    interval computed; the easiness of that review is still computed, from
    the previous one, and appended. *)
Theorem CalcNextRep_hardness_5_due_now :
  ∀ (now : Time) (c : Card),
    histories_ok c -> 2 <= Reps c < GoInt.max_int ->
    ∃ efprime,
      index (EFs c) (Reps c - 1) = Some efprime ∧
      Part000.CalcNextRep now 5 c =
        Some {| Id := Id c; Prompt := Prompt c; Answer := Answer c;
                Reps := Reps c + 1; NextRep := now;
                EFs := EFs c ++ [calcEf efprime 5];
                Hardnesses := Hardnesses c ++ [5] |}.
Proof.
  intros now c [Hefs Hhs] [Hlo Hhi].
  assert (Hmm : GoInt.min_int < 0 ∧ 3 < GoInt.max_int) by done.
  destruct (index_Some (EFs c) (Reps c - 1)) as [efprime Hprime]; [lia|].
  exists efprime. split; [done|].
  unfold Part000.CalcNextRep. rewrite add_small by lia.
  destruct (Z.eqb_spec (Reps c + 1) 1); [lia|].
  destruct (Z.eqb_spec (Reps c + 1) 2); [lia|].
  rewrite !sub_small by lia.
  replace (Reps c + 1 - 2) with (Reps c - 1) by lia. rewrite Hprime.
  replace (Reps c + 1 - 1) with (len (Hardnesses c)) by lia.
  by rewrite index_app_last.
Qed.

Lemma CalcNextRep_hardness_5_due_now_witness :
  ∃ efprime,
    efprime = 1.75%float ∧
    Part000.CalcNextRep 777
      5 {| Id := 4; Prompt := "prompt"; Answer := "answer"; Reps := 2;
           NextRep := 10; EFs := [1.75; 1.75]%float; Hardnesses := [3; 4] |} =
      Some {| Id := 4; Prompt := "prompt"; Answer := "answer"; Reps := 3;
              NextRep := 777; EFs := [1.75; 1.75; calcEf efprime 5]%float;
              Hardnesses := [3; 4; 5] |}.
Proof.
  destruct (CalcNextRep_hardness_5_due_now 777
    {| Id := 4; Prompt := "prompt"; Answer := "answer"; Reps := 2;
       NextRep := 10; EFs := [1.75; 1.75]%float; Hardnesses := [3; 4] |})
    as (efprime & Hprime & Hcall).
  - split; reflexivity.
  - simpl. split; [lia|reflexivity].
  - exists efprime. split; [|exact Hcall].
    vm_compute in Hprime. by injection Hprime.
Defined.

(** The scheduler of [deck.go] has no such case: there the same review makes
    the card due after the computed interval, 6 days times 1.85. *)
Example CalcNextRep_hardness_5_deck_go :
  NextRep <$>
    CalcNextRep 777
      5 {| Id := 4; Prompt := "prompt"; Answer := "answer"; Reps := 2;
           NextRep := 10; EFs := [1.75; 1.75]%float; Hardnesses := [3; 4] |} =
  Some (777 + 1110 * (Day `div` 100)).
Proof. by vm_compute. Qed.

(** ** The deck in memory: [AddCard] and [DeleteCard] *)

Lemma DeleteCard_loop_spec (id : Z) (d : Deck) (pre rest : list Card) :
  Cards d = pre ++ rest -> Forall (λ c, Id c ≠ id) pre ->
  (∃ mid card post,
     rest = mid ++ card :: post ∧ Id card = id ∧ Forall (λ c, Id c ≠ id) mid ∧
     DeleteCard_loop id (length pre) rest d =
       {| Path := Path d; DB := DB d; Cards := (pre ++ mid) ++ post;
          Dirty := true |})
  ∨ (Forall (λ c, Id c ≠ id) rest ∧ DeleteCard_loop id (length pre) rest d = d).
Proof.
  revert pre. induction rest as [|card rest IH]; intros pre Hcards Hpre; simpl.
  - right. by split.
  - destruct (Z.eqb_spec (Id card) id) as [Heq|Hne].
    + left. exists [], card, rest. split_and!; [done..|].
      rewrite Hcards, app_nil_r. f_equal.
      rewrite take_app_length. f_equal.
      change (card :: rest) with ([card] ++ rest). rewrite app_assoc.
      apply drop_app_length'. rewrite length_app. simpl. lia.
    + destruct (IH (pre ++ [card])) as
        [(mid & c & post & -> & Hid & Hmid & Hdel)|[Hall Hdel]].
      * by rewrite <- app_assoc.
      * apply Forall_app. split; [done|]. by constructor.
      * left. exists (card :: mid), c, post.
        rewrite length_app in Hdel. simpl in Hdel.
        replace (length pre + 1)%nat with (S (length pre)) in Hdel by lia.
        split_and!; [done..|by constructor|].
        rewrite Hdel. by rewrite <- !app_assoc.
      * right. rewrite length_app in Hdel. simpl in Hdel.
        replace (length pre + 1)%nat with (S (length pre)) in Hdel by lia.
        split; [by constructor|done].
Qed.

(** C9. [DeleteCard] removes the first card with the id and no other, keeps
    the order of the others and marks the deck dirty; when no card has the
    id the deck is the same deck, cards and dirty flag included. *)
Theorem DeleteCard_removes_first_match :
  ∀ (id : Z) (d : Deck),
    (∃ pre card post,
       Cards d = pre ++ card :: post ∧ Id card = id ∧
       Forall (λ c, Id c ≠ id) pre ∧
       DeleteCard id d =
         {| Path := Path d; DB := DB d; Cards := pre ++ post; Dirty := true |})
    ∨ (Forall (λ c, Id c ≠ id) (Cards d) ∧ DeleteCard id d = d).
Proof.
  intros id d. unfold DeleteCard.
  destruct (DeleteCard_loop_spec id d [] (Cards d)) as
    [(mid & card & post & Hcards & Hid & Hmid & Hdel)|[Hall Hdel]]; [done..| |].
  - left. by exists mid, card, post.
  - by right.
Qed.

Example DeleteCard_duplicate_ids :
  let card id prompt := set_Id id (NewCard 0 prompt "") in
  let d := {| Path := "deck.db"; DB := Some "deck.db";
              Cards := [card 0 "a"; card 2 "b"; card 1 "c"; card 2 "d"];
              Dirty := false |} in
  Cards (DeleteCard 2 d) = [card 0 "a"; card 1 "c"; card 2 "d"] ∧
  Dirty (DeleteCard 2 d) = true ∧
  DeleteCard 3 d = d.
Proof. by vm_compute. Qed.

Lemma foldr_max_snoc (ids : list Z) (a b : Z) :
  foldr Z.max a (ids ++ [b]) = Z.max (foldr Z.max a ids) b.
Proof.
  induction ids as [|i ids IH]; simpl; [lia|]. rewrite IH. lia.
Qed.

Lemma foldr_max_below (ids : list Z) (a b : Z) :
  a < b -> Forall (λ i, i < b) ids -> foldr Z.max a ids < b.
Proof.
  intros Ha. induction 1 as [|i ids Hi _ IH]; simpl; [done|]. lia.
Qed.

Lemma increasing_below_last (ids : list Z) (b : Z) :
  StronglySorted Z.lt (ids ++ [b]) -> Forall (λ i, i < b) ids.
Proof.
  induction ids as [|i ids IH]; simpl; [by constructor|].
  intros Hsorted. apply StronglySorted_inv in Hsorted as [Hsorted Hi].
  constructor; [|by apply IH].
  rewrite Forall_app in Hi. destruct Hi as [_ Hi].
  by apply Forall_cons in Hi as [Hi _].
Qed.

Lemma last_max_Id (cs : list Card) (l : Card) :
  ids_increasing (cs ++ [l]) -> max_Id (cs ++ [l]) = Some (Id l).
Proof.
  unfold ids_increasing, max_Id. rewrite fmap_app. simpl.
  intros Hsorted. apply increasing_below_last in Hsorted.
  destruct (Id <$> cs) as [|i ids]; [done|]. simpl. f_equal.
  apply Forall_cons in Hsorted as [Hi Hids].
  rewrite foldr_max_snoc. pose proof (foldr_max_below ids i (Id l) Hi Hids). lia.
Qed.

(** Whatever the deck holds, [AddCard] gives the card id 0 in an empty
    deck and otherwise the id of the last card of the in-memory order plus 1,
    appends it and marks the deck dirty. The id of the last card is the
    largest id when the ids grow along the order. *)
Lemma AddCard_last_id_plus_1 :
  ∀ (card : Card) (d : Deck),
    Path (AddCard card d) = Path d ∧ DB (AddCard card d) = DB d ∧
    Dirty (AddCard card d) = true ∧
    (Cards d = [] -> Cards (AddCard card d) = [set_Id 0 card]) ∧
    (∀ pre l, Cards d = pre ++ [l] ->
       GoInt.min_int <= Id l < GoInt.max_int ->
       Cards (AddCard card d) = Cards d ++ [set_Id (Id l + 1) card] ∧
       (ids_increasing (Cards d) -> max_Id (Cards d) = Some (Id l))).
Proof.
  intros card d. unfold AddCard. simpl. split_and!; [done..| |].
  - by intros ->.
  - intros pre l Hcards Hrange. rewrite Hcards, last_snoc.
    rewrite add_small by (unfold GoInt.min_int, GoInt.max_int in *; lia).
    split; [done|]. apply last_max_Id.
Qed.

(** ** [OpenDeck] *)

Lemma AddCard_length (card : Card) (d : Deck) :
  length (Cards (AddCard card d)) = S (length (Cards d)).
Proof. unfold AddCard. simpl. rewrite length_app. simpl. lia. Qed.

Lemma AddCard_ids_positional (card : Card) (d : Deck) :
  ids_positional (Cards d) -> len (Cards d) <= GoInt.max_int ->
  ids_positional (Cards (AddCard card d)).
Proof.
  intros Hpos Hlen i c. unfold AddCard. simpl.
  destruct (decide (i < length (Cards d))%nat) as [Hi|Hi].
  { rewrite lookup_app_l by done. apply Hpos. }
  rewrite lookup_app_r by lia.
  destruct (i - length (Cards d))%nat as [|k] eqn:Hk; simpl; [|done].
  assert (i = length (Cards d)) as -> by lia.
  intros [= <-].
  destruct (Cards d) as [|c0 cs] eqn:Hcards using rev_ind; [done|].
  rewrite last_snoc. simpl.
  specialize (Hpos (length cs) c0 (list_lookup_middle _ _ _ _ eq_refl)).
  rewrite Hpos. unfold len in Hlen. rewrite length_app in *. simpl in *.
  rewrite add_small by (unfold GoInt.min_int, GoInt.max_int in *; lia). lia.
Qed.

Lemma add_all_length (cs : list Card) (d : Deck) :
  length (Cards (add_all cs d)) = (length (Cards d) + length cs)%nat.
Proof.
  revert d. induction cs as [|c cs IH]; intros d; simpl; [lia|].
  unfold add_all in *. simpl. rewrite IH, AddCard_length. lia.
Qed.

Lemma add_all_ids_positional (cs : list Card) (d : Deck) :
  ids_positional (Cards d) ->
  len (Cards (add_all cs d)) - 1 <= GoInt.max_int ->
  ids_positional (Cards (add_all cs d)).
Proof.
  revert d. induction cs as [|c cs IH]; intros d Hpos Hlen; [done|].
  unfold add_all in *. simpl in *. apply IH; [|done].
  apply AddCard_ids_positional; [done|].
  unfold len in *. pose proof (add_all_length cs (AddCard c d)) as Hl.
  unfold add_all in Hl. rewrite Hl, AddCard_length in Hlen. lia.
Qed.

Lemma add_all_fields (cs : list Card) (d : Deck) :
  Path (add_all cs d) = Path d ∧ DB (add_all cs d) = DB d.
Proof.
  revert d. induction cs as [|c cs IH]; intros d; [done|].
  unfold add_all in *. simpl. by destruct (IH (AddCard c d)) as [-> ->].
Qed.

(** The loop of [OpenDeck] adds one card per row, through [AddCard]. *)
Lemma OpenDeck_cardRows_add_all faults now db rows deck w d' w' :
  OpenDeck_cardRows faults now db rows deck w = (Ok d', w') ->
  ∃ cs, length cs = length rows ∧ d' = add_all cs deck.
Proof.
  revert deck w. induction rows as [|row rows IH]; intros deck w; simpl.
  - intros [= <- <-]. by exists [].
  - unfold bind at 1.
    destruct (OpenDeck_card faults now db row w) as [[card|e|] w1]; [|done..].
    intros Hloop. destruct (IH _ _ Hloop) as (cs & Hlen & ->).
    exists (card :: cs). split; [simpl; by rewrite Hlen|done].
Qed.

Lemma OpenDeck_add_all faults now path w d w' :
  OpenDeck faults now path w = (Ok d, w') ->
  ∃ cs, Cards d = Cards (add_all cs {| Path := path; DB := Some path;
                                       Cards := []; Dirty := false |}).
Proof.
  unfold OpenDeck, bind at 1.
  destruct (sql_Open faults path w) as [[db|e|] w1] eqn:Hopen; [|done..].
  assert (db = path) as ->.
  { unfold sql_Open, io in Hopen. destruct (faults (tick w)); [done|].
    by injection Hopen. }
  destruct (db_Query_cards faults path w1) as [[rows|e|] w2]; [| |done].
  - unfold bind, ret.
    destruct (OpenDeck_cardRows faults now path rows _ w2)
      as [[deck|e|] w3] eqn:Hloop; [|done..].
    intros [= <- <-]. simpl.
    destruct (OpenDeck_cardRows_add_all _ _ _ _ _ _ _ _ Hloop) as (cs & _ & ->).
    by exists cs.
  - destruct (no_such_table e).
    + unfold bind, ret.
      destruct (db_Exec_createDeckStmt faults path w2) as [[[]|e'|] w3]; [|done..].
      intros [= <- <-]. by exists [].
    + destruct e; try done. intros [= <- <-]. by exists [].
Qed.

(** C10. After every successful [OpenDeck] the card at position [i] of the
    deck has id [i], whatever ids the rows of the store hold: every card read
    goes through [AddCard]. (A slice has at most [max_int] + 1 positions.) *)
Theorem OpenDeck_ids_positional :
  ∀ (faults : nat -> bool) (now : Time) (path : string) (w w' : World)
    (d : Deck),
    OpenDeck faults now path w = (Ok d, w') ->
    len (Cards d) - 1 <= GoInt.max_int ->
    ∀ (i : nat) (c : Card), Cards d !! i = Some c -> Id c = Z.of_nat i.
Proof.
  intros faults now path w w' d Hopen Hlen.
  destruct (OpenDeck_add_all _ _ _ _ _ _ Hopen) as (cs & Hcards).
  rewrite Hcards in *. by apply add_all_ids_positional.
Qed.

Lemma OpenDeck_ids_positional_witness :
  let t := {| cards := [mkCardRow 10 "p1" "a1" 0 500; mkCardRow 20 "p2" "a2" 0 100;
                        mkCardRow 7 "p3" "a3" 0 300];
              efs := []; hardnesses := [] |} in
  let w := {| files := {[ "deck.db" := Schema t ]}; tick := 0 |} in
  ∃ d, fst (OpenDeck no_faults 0 "deck.db" w) = Ok d ∧
       Prompt <$> Cards d = ["p2"; "p3"; "p1"] ∧
       ∀ (i : nat) (c : Card), Cards d !! i = Some c -> Id c = Z.of_nat i.
Proof.
  intros t w.
  destruct (OpenDeck no_faults 0 "deck.db" w) as [r w'] eqn:Hopen.
  destruct r as [d|e|]; [|by vm_compute in Hopen..].
  exists d. split; [done|]. split.
  - vm_compute in Hopen. by injection Hopen as <- _.
  - apply (OpenDeck_ids_positional no_faults 0 "deck.db" w w' d Hopen).
    vm_compute in Hopen. injection Hopen as <- _. by vm_compute.
Defined.

(** *** [OpenDeck] when no storage operation fails *)

Lemma partial_alter_same (m : gmap string SqliteFile) (k : string) :
  partial_alter (λ _, m !! k) k m = m.
Proof.
  apply map_eq. intros j. destruct (decide (k = j)) as [->|Hne].
  - by rewrite lookup_partial_alter_eq.
  - by rewrite lookup_partial_alter_ne.
Qed.


Lemma ticked_ticked n m w : ticked n (ticked m w) = ticked (m + n) w.
Proof. unfold ticked. simpl. f_equal. lia. Qed.

Lemma tick_S w : {| files := files w; tick := S (tick w) |} = ticked 1 w.
Proof. unfold ticked. f_equal. lia. Qed.

Lemma rows_Scan_no_faults {A} (row : A) w :
  rows_Scan no_faults row w = (Ok row, ticked 1 w).
Proof. unfold rows_Scan. simpl. by rewrite tick_S. Qed.

Lemma sql_Open_no_faults path w :
  sql_Open no_faults path w = (Ok path, ticked 1 w).
Proof.
  unfold sql_Open, io. simpl. by rewrite partial_alter_same, tick_S.
Qed.

Lemma db_Query_cards_no_faults path w t :
  files w !! path = Some (Schema t) ->
  db_Query_cards no_faults path w = (Ok (select_cards t), ticked 1 w).
Proof.
  intros Hf. unfold db_Query_cards, io. simpl. rewrite Hf, <- Hf.
  by rewrite partial_alter_same, tick_S.
Qed.

Lemma db_Query_efs_no_faults path id w t :
  files w !! path = Some (Schema t) ->
  db_Query_efs no_faults path id w = (Ok (select_efs t id), ticked 1 w).
Proof.
  intros Hf. unfold db_Query_efs, io. simpl. rewrite Hf, <- Hf.
  by rewrite partial_alter_same, tick_S.
Qed.

Lemma db_Query_hardnesses_no_faults path id w t :
  files w !! path = Some (Schema t) ->
  db_Query_hardnesses no_faults path id w =
    (Ok (select_hardnesses t id), ticked 1 w).
Proof.
  intros Hf. unfold db_Query_hardnesses, io. simpl. rewrite Hf, <- Hf.
  by rewrite partial_alter_same, tick_S.
Qed.

Lemma OpenDeck_efRows_no_faults efRows card w :
  OpenDeck_efRows no_faults efRows card w =
    (Ok {| Id := Id card; Prompt := Prompt card; Answer := Answer card;
           Reps := Reps card; NextRep := NextRep card;
           EFs := EFs card ++ efRows; Hardnesses := Hardnesses card |},
     ticked (length efRows) w).
Proof.
  revert card w. induction efRows as [|ef efRows IH]; intros card w; simpl.
  - unfold ret. rewrite app_nil_r. destruct card, w. unfold ticked. simpl.
    do 2 f_equal. lia.
  - unfold bind. rewrite rows_Scan_no_faults, IH. simpl.
    rewrite <- app_assoc, ticked_ticked. done.
Qed.

Lemma OpenDeck_hardnessRows_no_faults hardnessRows card w :
  OpenDeck_hardnessRows no_faults hardnessRows card w =
    (Ok {| Id := Id card; Prompt := Prompt card; Answer := Answer card;
           Reps := Reps card; NextRep := NextRep card;
           EFs := EFs card; Hardnesses := Hardnesses card ++ hardnessRows |},
     ticked (length hardnessRows) w).
Proof.
  revert card w.
  induction hardnessRows as [|h hardnessRows IH]; intros card w; simpl.
  - unfold ret. rewrite app_nil_r. destruct card, w. unfold ticked. simpl.
    do 2 f_equal. lia.
  - unfold bind. rewrite rows_Scan_no_faults, IH. simpl.
    rewrite <- app_assoc, ticked_ticked. done.
Qed.

Lemma OpenDeck_card_no_faults now path row w t :
  files w !! path = Some (Schema t) ->
  ∃ n, OpenDeck_card no_faults now path row w = (Ok (load_card t row), ticked n w).
Proof.
  intros Hf. unfold OpenDeck_card, bind at 1.
  rewrite rows_Scan_no_faults. unfold bind.
  rewrite (db_Query_efs_no_faults _ _ _ t) by done.
  rewrite OpenDeck_efRows_no_faults.
  rewrite (db_Query_hardnesses_no_faults _ _ _ t) by done.
  rewrite OpenDeck_hardnessRows_no_faults. simpl.
  rewrite !ticked_ticked. by eexists.
Qed.

Lemma OpenDeck_cardRows_no_faults now path rows deck w t :
  files w !! path = Some (Schema t) ->
  ∃ n, OpenDeck_cardRows no_faults now path rows deck w =
         (Ok (add_all (load_card t <$> rows) deck), ticked n w).
Proof.
  revert deck w. induction rows as [|row rows IH]; intros deck w Hf; simpl.
  - exists 0%nat. unfold ret, ticked. destruct w. simpl. do 2 f_equal. lia.
  - unfold bind.
    destruct (OpenDeck_card_no_faults now path row w t Hf) as [n ->].
    destruct (IH (AddCard (load_card t row) deck) (ticked n w)) as [m ->]; [done|].
    rewrite ticked_ticked. by eexists.
Qed.

(** Without a failure, [OpenDeck] on a store that has its tables returns the
    deck of the cards of the [cards] table, in the order of [nextrep], each
    with the history rows of its id, and renumbered by [AddCard]. *)
Lemma OpenDeck_no_faults now path w t :
  files w !! path = Some (Schema t) ->
  ∃ n, OpenDeck no_faults now path w =
         (Ok {| Path := path; DB := Some path;
                Cards := Cards (add_all (load_card t <$> select_cards t)
                                        (empty_deck path));
                Dirty := false |},
          ticked n w).
Proof.
  intros Hf. unfold OpenDeck, bind at 1. rewrite sql_Open_no_faults.
  rewrite (db_Query_cards_no_faults _ _ t) by done.
  unfold bind, ret.
  destruct (OpenDeck_cardRows_no_faults now path (select_cards t)
              (empty_deck path) (ticked 1 (ticked 1 w)) t Hf) as [n Hloop].
  unfold empty_deck in Hloop at 1. rewrite Hloop.
  destruct (add_all_fields (load_card t <$> select_cards t) (empty_deck path))
    as [-> ->].
  rewrite !ticked_ticked. by eexists.
Qed.

(** *** [order by] *)

Lemma insert_by_Permutation {A} (key : A -> Z) (x : A) (l : list A) :
  insert_by key x l ≡ₚ x :: l.
Proof.
  induction l as [|y l IH]; simpl; [done|].
  destruct (key x <=? key y); [done|]. rewrite IH. apply Permutation_swap.
Qed.

Lemma sort_by_Permutation {A} (key : A -> Z) (l : list A) :
  sort_by key l ≡ₚ l.
Proof.
  induction l as [|x l IH]; simpl; [done|].
  by rewrite insert_by_Permutation, IH.
Qed.

Lemma insert_by_sorted {A} (key : A -> Z) (x : A) (l : list A) :
  sorted_by key l -> sorted_by key (insert_by key x l).
Proof.
  unfold sorted_by. induction 1 as [|y l Hl IH Hy]; simpl.
  - by repeat constructor.
  - destruct (Z.leb_spec (key x) (key y)) as [Hle|Hgt].
    + constructor; [by constructor|].
      constructor; [done|]. eapply Forall_impl; [exact Hy|]. simpl. lia.
    + constructor; [done|].
      rewrite insert_by_Permutation. constructor; [lia|done].
Qed.

Lemma sort_by_sorted {A} (key : A -> Z) (l : list A) :
  sorted_by key (sort_by key l).
Proof.
  induction l as [|x l IH]; simpl; [constructor|]. by apply insert_by_sorted.
Qed.

(** Sorting a list already in order leaves it as it is. *)
Lemma sort_by_id {A} (key : A -> Z) (l : list A) :
  sorted_by key l -> sort_by key l = l.
Proof.
  unfold sorted_by. induction 1 as [|x l Hl IH Hx]; simpl; [done|].
  rewrite IH. destruct Hx as [|y l' Hy _]; simpl; [done|].
  destruct (Z.leb_spec (key x) (key y)); [done|lia].
Qed.

Lemma insert_by_fmap {A B} (f : A -> B) (key : B -> Z) (x : A) (l : list A) :
  insert_by key (f x) (f <$> l) = f <$> insert_by (key ∘ f) x l.
Proof.
  induction l as [|y l IH]; simpl; [done|].
  destruct (key (f x) <=? key (f y)); simpl; [done|]. f_equal. apply IH.
Qed.

Lemma sort_by_fmap {A B} (f : A -> B) (key : B -> Z) (l : list A) :
  sort_by key (f <$> l) = f <$> sort_by (key ∘ f) l.
Proof.
  induction l as [|x l IH]; [done|]. rewrite fmap_cons. simpl.
  rewrite IH. apply insert_by_fmap.
Qed.

Lemma sort_by_ext {A} (key key' : A -> Z) (l : list A) :
  (∀ x, key x = key' x) -> sort_by key l = sort_by key' l.
Proof.
  intros Hext. induction l as [|x l IH]; simpl; [done|]. rewrite IH.
  generalize (sort_by key' l). intros k.
  induction k as [|y k IHk]; simpl; [done|].
  by rewrite !Hext, IHk.
Qed.

(** *** The cards of a deck built by [AddCard] *)

Lemma add_all_forget_Id (cs : list Card) (d : Deck) :
  forget_Id <$> Cards (add_all cs d) = forget_Id <$> (Cards d ++ cs).
Proof.
  revert d. induction cs as [|c cs IH]; intros d.
  - by rewrite app_nil_r.
  - unfold add_all in *. simpl. rewrite IH. unfold AddCard. simpl.
    rewrite <- app_assoc. simpl. rewrite !fmap_app. f_equal. simpl. f_equal.
    by destruct (last (Cards d)).
Qed.

Lemma filter_none {A} (P : A -> Prop) `{!∀ x, Decision (P x)} (l : list A) :
  (∀ x, x ∈ l -> ¬ P x) -> filter P l = [].
Proof.
  induction l as [|x l IH]; intros Hnone; [done|].
  rewrite filter_cons. destruct (decide (P x)) as [HP|_].
  - exfalso. eapply Hnone; [|done]. by left.
  - apply IH. intros y Hy. apply Hnone. by right.
Qed.

(** C3. A store in which a card has repetitions but no easiness rows, or no
    hardness rows, loads without an error when no storage operation fails:
    [Query] gives an empty set of rows and no [sql.ErrNoRows], so the checks
    of [OpenDeck] never fire, and the card comes out with its repetitions
    and an empty history. *)
Theorem OpenDeck_missing_history_undetected :
  ∀ (now : Time) (path : string) (w : World) (t : Tables) (row : CardRow),
    files w !! path = Some (Schema t) ->
    row ∈ cards t -> 0 < card_reps row ->
    ∃ d c, fst (OpenDeck no_faults now path w) = Ok d ∧ c ∈ Cards d ∧
           Prompt c = card_prompt row ∧ Answer c = card_answer row ∧
           Reps c = card_reps row ∧ 0 < Reps c ∧
           ((∀ r, r ∈ efs t -> ef_card_id r ≠ card_id row) -> EFs c = []) ∧
           ((∀ r, r ∈ hardnesses t -> hardness_card_id r ≠ card_id row) ->
            Hardnesses c = []).
Proof.
  intros now path w t row Hf Hrow Hreps.
  destruct (OpenDeck_no_faults now path w t Hf) as [n ->]. simpl.
  eexists.
  assert (Hin : forget_Id (load_card t row) ∈
                forget_Id <$> Cards (add_all (load_card t <$> select_cards t)
                                             (empty_deck path))).
  { rewrite add_all_forget_Id. simpl. do 2 apply list_elem_of_fmap_2.
    unfold select_cards. by rewrite !sort_by_Permutation. }
  apply list_elem_of_fmap in Hin as (c & Hc & Hin).
  exists c. split; [done|]. split; [done|].
  unfold forget_Id, set_Id in Hc. destruct c. simpl in *.
  injection Hc as <- <- <- _ <- <-.
  split_and!; [done..| |].
  - intros Hnone. unfold select_efs. by rewrite filter_none.
  - intros Hnone. unfold select_hardnesses. by rewrite filter_none.
Qed.

Lemma OpenDeck_missing_history_undetected_witness :
  let row := mkCardRow 1 "prompt" "answer" 3 100 in
  let t := {| cards := [row]; efs := []; hardnesses := [] |} in
  let w := {| files := {[ "deck.db" := Schema t ]}; tick := 0 |} in
  ∃ d c, fst (OpenDeck no_faults 0 "deck.db" w) = Ok d ∧ c ∈ Cards d ∧
         Prompt c = "prompt" ∧ Answer c = "answer" ∧
         Reps c = 3 ∧ 0 < Reps c ∧ EFs c = [] ∧ Hardnesses c = [].
Proof.
  intros row t w.
  destruct (OpenDeck_missing_history_undetected 0 "deck.db" w t row)
    as (d & c & Hd & Hc & Hp & Ha & Hr & Hpos & Hefs & Hhs).
  - reflexivity.
  - by left.
  - reflexivity.
  - exists d, c. split_and!; try done.
    + apply Hefs. intros r Hr'. inversion Hr'.
    + apply Hhs. intros r Hr'. inversion Hr'.
Defined.

Example OpenDeck_missing_history_loaded :
  let row := mkCardRow 1 "prompt" "answer" 3 100 in
  let t := {| cards := [row]; efs := []; hardnesses := [] |} in
  let w := {| files := {[ "deck.db" := Schema t ]}; tick := 0 |} in
  fst (OpenDeck no_faults 0 "deck.db" w) =
    Ok {| Path := "deck.db"; DB := Some "deck.db";
          Cards := [ {| Id := 0; Prompt := "prompt"; Answer := "answer";
                        Reps := 3; NextRep := 100 * Second;
                        EFs := []; Hardnesses := [] |} ];
          Dirty := false |}.
Proof. by vm_compute. Qed.

(** ** [Sync]: a failure of the write phase *)

Lemma sync_path_ne (path : string) : path ≠ path +:+ ".sync".
Proof.
  induction path as [|a path IH]; simpl; [done|].
  intros [= H]. by apply IH.
Qed.

Section Writes.

Variable faults : nat -> bool.

Lemma writes_at_ret {A} db (a : A) : writes_at faults db 0 (ret a).
Proof.
  intros w r w' [= <- <-]. split_and!; [done..|].
  intros _ _. split; [lia|]. intros k Hk. lia.
Qed.

Lemma writes_at_bind {A B} db n n1 n2 (m : M A) (k : A -> M B) :
  n = (n1 + n2)%nat ->
  writes_at faults db n1 m -> (∀ a, writes_at faults db n2 (k a)) ->
  writes_at faults db n (bind m k).
Proof.
  intros -> Hm Hk w r w'. unfold bind.
  destruct (m w) as [[a|e|] w1] eqn:Hmw.
  - intros Hkw. destruct (Hm _ _ _ Hmw) as (Hf1 & _ & Hok1).
    destruct (Hk a _ _ _ Hkw) as (Hf2 & Hp2 & Hok2).
    destruct (Hok1 a eq_refl) as [Ht1 Hno1].
    split_and!; [|done|].
    + intros p Hp. by rewrite Hf2, Hf1.
    + intros b Hb. destruct (Hok2 b Hb) as [Ht2 Hno2].
      split; [lia|]. intros j Hj.
      destruct (decide (j < n1)%nat) as [Hlt|Hge]; [by apply Hno1|].
      replace (tick w + j)%nat with (tick w1 + (j - n1))%nat by lia.
      apply Hno2. lia.
  - intros [= <- <-]. destruct (Hm _ _ _ Hmw) as (Hf1 & _ & _).
    split_and!; done.
  - intros [= <- <-]. by destruct (Hm _ _ _ Hmw) as (_ & ? & _).
Qed.

Lemma writes_at_io {A} db (op : option SqliteFile -> result A * option SqliteFile) :
  (∀ f, fst (op f) ≠ Panic) -> writes_at faults db 1 (io faults db op).
Proof.
  intros Hop w r w'. unfold io.
  destruct (faults (tick w)) eqn:Hfault.
  - intros [= <- <-]. simpl. split_and!; done.
  - specialize (Hop (files w !! db)).
    destruct (op (files w !! db)) as [r0 f]. intros [= <- <-]. simpl in *.
    split_and!; [|done|].
    + intros p Hp. by rewrite lookup_partial_alter_ne.
    + intros _ _. split; [lia|]. intros k Hk.
      by replace (tick w + k)%nat with (tick w) by lia.
Qed.

Lemma writes_at_LastInsertId db res :
  writes_at faults db 1 (res_LastInsertId faults res).
Proof.
  intros w r w'. unfold res_LastInsertId.
  destruct (faults (tick w)) eqn:Hfault; intros [= <- <-]; simpl.
  - split_and!; done.
  - split_and!; [done..|]. intros _ _. split; [lia|]. intros k Hk.
    by replace (tick w + k)%nat with (tick w) by lia.
Qed.

Lemma writes_at_insertCard db prompt answer reps nextrep :
  writes_at faults db 1 (db_Exec_insertCard faults db prompt answer reps nextrep).
Proof. apply writes_at_io. intros [[]|]; done. Qed.

Lemma writes_at_insertEF db id ef :
  writes_at faults db 1 (db_Exec_insertEF faults db id ef).
Proof. apply writes_at_io. intros [[]|]; done. Qed.

Lemma writes_at_insertHardness db id h :
  writes_at faults db 1 (db_Exec_insertHardness faults db id h).
Proof. apply writes_at_io. intros [[]|]; done. Qed.

Lemma writes_at_createDeckStmt db :
  writes_at faults db 1 (db_Exec_createDeckStmt faults db).
Proof. apply writes_at_io. intros [[]|]; done. Qed.

Lemma writes_at_sql_Open db : writes_at faults db 1 (sql_Open faults db).
Proof. by apply writes_at_io. Qed.

Lemma writes_at_Sync_EFs db id efs :
  writes_at faults db (length efs) (Sync_EFs faults db id efs).
Proof.
  induction efs as [|ef efs IH]; [apply writes_at_ret|].
  apply (writes_at_bind db _ 1 (length efs)); [done| |done].
  apply writes_at_insertEF.
Qed.

Lemma writes_at_Sync_Hardnesses db id hs :
  writes_at faults db (length hs) (Sync_Hardnesses faults db id hs).
Proof.
  induction hs as [|h hs IH]; [apply writes_at_ret|].
  apply (writes_at_bind db _ 1 (length hs)); [done| |done].
  apply writes_at_insertHardness.
Qed.

Lemma writes_at_Sync_Cards db cs :
  writes_at faults db (cards_ops cs) (Sync_Cards faults db cs).
Proof.
  induction cs as [|c cs IH]; [apply writes_at_ret|].
  apply (writes_at_bind db _ 1
           (1 + (length (EFs c) + (length (Hardnesses c) + cards_ops cs))));
    [simpl; unfold card_ops; lia|apply writes_at_insertCard|]. intros res.
  apply (writes_at_bind db _ 1
           (length (EFs c) + (length (Hardnesses c) + cards_ops cs)));
    [done|apply writes_at_LastInsertId|]. intros id.
  apply (writes_at_bind db _ (length (EFs c))
           (length (Hardnesses c) + cards_ops cs));
    [done|apply writes_at_Sync_EFs|]. intros _.
  apply (writes_at_bind db _ (length (Hardnesses c)) (cards_ops cs));
    [done|apply writes_at_Sync_Hardnesses|]. intros _.
  apply IH.
Qed.

Lemma sql_Open_handle path w db w' :
  sql_Open faults path w = (Ok db, w') -> db = path.
Proof.
  unfold sql_Open, io. destruct (faults (tick w)); [done|]. by intros [= <- _].
Qed.

(** The write phase of [Sync], deck.go:154-194. *)
Lemma writes_at_write_phase (d : Deck) :
  writes_at faults (Path d +:+ ".sync") (write_ops d)
    (db <- sql_Open faults (Path d +:+ ".sync") ;;
     _ <- db_Exec_createDeckStmt faults db ;;
     Sync_Cards faults db (Cards d)).
Proof.
  set (new_path := Path d +:+ ".sync").
  assert (Hwp : writes_at faults new_path (write_ops d)
            (db <- sql_Open faults new_path ;;
             _ <- db_Exec_createDeckStmt faults new_path ;;
             Sync_Cards faults new_path (Cards d))).
  { apply (writes_at_bind new_path _ 1 (1 + cards_ops (Cards d)));
      [done|apply writes_at_sql_Open|]. intros _.
    apply (writes_at_bind new_path _ 1 (cards_ops (Cards d)));
      [done|apply writes_at_createDeckStmt|]. intros _.
    apply writes_at_Sync_Cards. }
  intros w r w' Hrun. apply Hwp. revert Hrun. unfold bind at 1 3.
  destruct (sql_Open faults new_path w) as [[db|e|] w1] eqn:Hopen; [|done..].
  by rewrite (sql_Open_handle _ _ _ _ Hopen).
Qed.

(** [Sync] returns the error of its write phase, with the deck as it was. *)
Lemma Sync_write_phase_error (d : Deck) (w w1 : World) (e : error) :
  (db <- sql_Open faults (Path d +:+ ".sync") ;;
   _ <- db_Exec_createDeckStmt faults db ;;
   Sync_Cards faults db (Cards d)) w = (Err e, w1) ->
  Sync faults d w = ((Err e, d), w1).
Proof.
  unfold Sync, bind.
  destruct (sql_Open faults (Path d +:+ ".sync") w) as [[db|e0|] w2]; [|congruence..].
  destruct (db_Exec_createDeckStmt faults db w2) as [[[]|e0|] w3]; [|congruence..].
  destruct (Sync_Cards faults db (Cards d) w3) as [[[]|e0|] w4]; congruence.
Qed.

End Writes.

(** ** [OpenDeck] reads the file at its path only *)

Section Local.

Variable faults : nat -> bool.
Variable p : string.

Lemma local_at_ret {A} (a : A) : local_at p (ret a).
Proof. intros w1 w2 Hsame. by split. Qed.

Lemma local_at_bind {A B} (m : M A) (k : A -> M B) :
  local_at p m -> (∀ a, local_at p (k a)) -> local_at p (bind m k).
Proof.
  intros Hm Hk w1 w2 Hsame. unfold bind.
  destruct (Hm w1 w2 Hsame) as [Hr Hw].
  destruct (m w1) as [r1 w1'], (m w2) as [r2 w2']. simpl in *. subst r2.
  destruct r1 as [a|e|]; [by apply Hk|done..].
Qed.

Lemma local_at_io {A} (op : option SqliteFile -> result A * option SqliteFile) :
  local_at p (io faults p op).
Proof.
  intros w1 w2 [Hf Ht]. unfold io. rewrite Ht, Hf.
  destruct (faults (tick w2)); simpl; [by split|].
  destruct (op (files w2 !! p)) as [r f]. simpl. split; [done|].
  split; simpl; [|done]. by rewrite !lookup_partial_alter_eq.
Qed.

Lemma local_at_Scan {A} (row : A) : local_at p (rows_Scan faults row).
Proof.
  intros w1 w2 [Hf Ht]. unfold rows_Scan. cbv beta. rewrite Ht.
  destruct (faults (tick w2)); simpl; split; try done; split; simpl; congruence.
Qed.

Lemma local_at_efRows efRows card :
  local_at p (OpenDeck_efRows faults efRows card).
Proof.
  revert card. induction efRows as [|ef efRows IH]; intros card; simpl.
  - apply local_at_ret.
  - apply local_at_bind; [apply local_at_Scan|]. intros a. apply IH.
Qed.

Lemma local_at_hardnessRows hardnessRows card :
  local_at p (OpenDeck_hardnessRows faults hardnessRows card).
Proof.
  revert card. induction hardnessRows as [|h hardnessRows IH]; intros card; simpl.
  - apply local_at_ret.
  - apply local_at_bind; [apply local_at_Scan|]. intros a. apply IH.
Qed.

Lemma local_at_card now row : local_at p (OpenDeck_card faults now p row).
Proof.
  unfold OpenDeck_card.
  apply local_at_bind; [apply local_at_Scan|]. intros r.
  apply local_at_bind.
  - intros w1 w2 Hsame.
    destruct (local_at_io (λ f, match f with
                | Some (Schema t) => (Ok (select_efs t (card_id r)), f)
                | _ => (Err (ErrorString "no such table: efs"), f)
                end) w1 w2 Hsame) as [Hr Hw].
    fold (db_Query_efs faults p (card_id r)) in Hr, Hw.
    destruct (db_Query_efs faults p (card_id r) w1) as [r1 w1'],
             (db_Query_efs faults p (card_id r) w2) as [r2 w2'].
    simpl in *. subst r2.
    destruct r1 as [efRows|e|]; [by apply local_at_efRows| |done].
    destruct e; try done. by destruct (0 <? _).
  - intros card w1 w2 Hsame.
    destruct (local_at_io (λ f, match f with
                | Some (Schema t) => (Ok (select_hardnesses t (card_id r)), f)
                | _ => (Err (ErrorString "no such table: hardnesses"), f)
                end) w1 w2 Hsame) as [Hr Hw].
    fold (db_Query_hardnesses faults p (card_id r)) in Hr, Hw.
    destruct (db_Query_hardnesses faults p (card_id r) w1) as [r1 w1'],
             (db_Query_hardnesses faults p (card_id r) w2) as [r2 w2'].
    simpl in *. subst r2.
    destruct r1 as [hardnessRows|e|]; [by apply local_at_hardnessRows| |done].
    destruct e; try done. by destruct (0 <? _).
Qed.

Lemma local_at_cardRows now cardRows deck :
  local_at p (OpenDeck_cardRows faults now p cardRows deck).
Proof.
  revert deck. induction cardRows as [|row cardRows IH]; intros deck; simpl.
  - apply local_at_ret.
  - apply local_at_bind; [apply local_at_card|]. intros card. apply IH.
Qed.

Lemma local_at_OpenDeck now : local_at p (OpenDeck faults now p).
Proof.
  intros w1 w2 Hsame. unfold OpenDeck.
  match goal with |- context [bind (sql_Open faults p) ?k0] => set (k := k0) end.
  unfold bind.
  destruct (local_at_io (λ f, (Ok p, f)) w1 w2 Hsame) as [Hr Hw].
  fold (sql_Open faults p) in Hr, Hw.
  destruct (sql_Open faults p w1) as [r1 w1'] eqn:Hopen,
           (sql_Open faults p w2) as [r2 w2'].
  simpl in *. subst r2. destruct r1 as [db|e|]; [|done..].
  apply sql_Open_handle in Hopen as ->. unfold k. clear k.
  destruct (local_at_io (λ f, match f with
              | Some (Schema t) => (Ok (select_cards t), f)
              | _ => (Err (ErrorString "no such table: cards"), f)
              end) w1' w2' Hw) as [Hr' Hw'].
  fold (db_Query_cards faults p) in Hr', Hw'.
  destruct (db_Query_cards faults p w1') as [r1 w1''],
           (db_Query_cards faults p w2') as [r2 w2''].
  simpl in *. subst r2. destruct r1 as [cardRows|e|]; [| |done].
  - apply (local_at_bind (OpenDeck_cardRows faults now p cardRows _));
      [apply local_at_cardRows|intros d; apply local_at_ret|done].
  - destruct (no_such_table e).
    + apply (local_at_bind (db_Exec_createDeckStmt faults p));
        [apply local_at_io|intros d; apply local_at_ret|done].
    + by destruct e.
Qed.

End Local.

(** C5. When a step of the write phase of [Sync] fails (opening the
    temporary store, creating its tables, or an insertion: the storage
    operations number 0 to [write_ops d - 1] of the call), [Sync] returns an
    error, the deck is as it was, the file at [Path d] is untouched, and
    [OpenDeck] loads from it what it loaded before. *)
Theorem Sync_write_failure_keeps_original :
  ∀ (faults : nat -> bool) (d : Deck) (w : World) (k : nat),
    (k < write_ops d)%nat -> faults (tick w + k)%nat = true ->
    ∃ e w',
      Sync faults d w = ((Err e, d), w') ∧
      files w' !! Path d = files w !! Path d ∧
      ∀ faults' now n,
        fst (OpenDeck faults' now (Path d) {| files := files w'; tick := n |}) =
        fst (OpenDeck faults' now (Path d) {| files := files w; tick := n |}).
Proof.
  intros faults d w k Hk Hfault.
  destruct ((db <- sql_Open faults (Path d +:+ ".sync") ;;
             _ <- db_Exec_createDeckStmt faults db ;;
             Sync_Cards faults db (Cards d)) w) as [r w'] eqn:Hwrite.
  destruct (writes_at_write_phase faults d _ _ _ Hwrite) as (Hfiles & Hpanic & Hok).
  destruct r as [[]|e|]; [|clear Hok|done].
  { destruct (Hok () eq_refl) as [_ Hnone]. by rewrite Hnone in Hfault. }
  exists e, w'. split; [by apply Sync_write_phase_error|].
  assert (Hsame : files w' !! Path d = files w !! Path d).
  { apply Hfiles. apply sync_path_ne. }
  split; [done|]. intros faults' now n.
  by apply local_at_OpenDeck.
Qed.

Lemma Sync_write_failure_keeps_original_witness :
  let c := {| Id := 0; Prompt := "prompt"; Answer := "answer"; Reps := 2;
              NextRep := 5 * Day; EFs := [1.75; 1.75]%float;
              Hardnesses := [3; 4] |} in
  let d := {| Path := "deck.db"; DB := Some "deck.db"; Cards := [c];
              Dirty := true |} in
  let w := {| files := {[ "deck.db" := Schema (mkTables [] [] []) ]};
              tick := 0 |} in
  ∃ e w',
    Sync (λ n, bool_decide (n = 5%nat)) d w = ((Err e, d), w') ∧
    files w' !! "deck.db" = Some (Schema (mkTables [] [] [])) ∧
    ∀ faults' now n,
      fst (OpenDeck faults' now "deck.db" {| files := files w'; tick := n |}) =
      fst (OpenDeck faults' now "deck.db" {| files := files w; tick := n |}).
Proof.
  intros c d w.
  destruct (Sync_write_failure_keeps_original
              (λ n, bool_decide (n = 5%nat)) d w 5)
    as (e & w' & Hsync & Hfile & Hopen).
  - vm_compute. lia.
  - reflexivity.
  - exists e, w'. split; [exact Hsync|]. split; [|exact Hopen].
    etrans; [exact Hfile|reflexivity].
Defined.

(** ** [Sync] when no storage operation fails *)

Lemma with_file_lookup db t n w : files (with_file db t n w) !! db = Some (Schema t).
Proof. unfold with_file. simpl. apply lookup_insert_eq. Qed.

Lemma with_file_with_file db t t' n m w :
  with_file db t' m (with_file db t n w) = with_file db t' (n + m) w.
Proof.
  unfold with_file. simpl. rewrite insert_insert_eq. f_equal. lia.
Qed.

Lemma with_file_same db t w :
  files w !! db = Some (Schema t) -> w = with_file db t 0 w.
Proof.
  intros Hf. unfold with_file. destruct w as [fs n]. simpl in *.
  by rewrite insert_id.
Qed.

Lemma db_Exec_insertEF_no_faults db id ef t w :
  files w !! db = Some (Schema t) ->
  db_Exec_insertEF no_faults db id ef w =
    (Ok (), with_file db (mkTables (cards t)
              (efs t ++ [mkEfRow (next_rowid (ef_id <$> efs t)) id ef])
              (hardnesses t)) 1 w).
Proof. intros Hf. unfold db_Exec_insertEF, io. simpl. by rewrite Hf. Qed.

Lemma db_Exec_insertHardness_no_faults db id h t w :
  files w !! db = Some (Schema t) ->
  db_Exec_insertHardness no_faults db id h w =
    (Ok (), with_file db (mkTables (cards t) (efs t)
              (hardnesses t ++
                 [mkHardnessRow (next_rowid (hardness_id <$> hardnesses t)) id h]))
              1 w).
Proof. intros Hf. unfold db_Exec_insertHardness, io. simpl. by rewrite Hf. Qed.

Lemma db_Exec_insertCard_no_faults db prompt answer reps nextrep t w :
  files w !! db = Some (Schema t) ->
  db_Exec_insertCard no_faults db prompt answer reps nextrep w =
    (Ok (next_rowid (card_id <$> cards t)),
     with_file db (mkTables
       (cards t ++ [mkCardRow (next_rowid (card_id <$> cards t))
                              prompt answer reps nextrep])
       (efs t) (hardnesses t)) 1 w).
Proof. intros Hf. unfold db_Exec_insertCard, io. simpl. by rewrite Hf. Qed.

Lemma Sync_EFs_no_faults db id efs0 t w :
  files w !! db = Some (Schema t) ->
  ∃ n, Sync_EFs no_faults db id efs0 w =
         (Ok (), with_file db (mkTables (cards t)
                   (append_history ef_id mkEfRow id efs0 (efs t))
                   (hardnesses t)) n w).
Proof.
  revert t w. induction efs0 as [|ef efs0 IH]; intros t w Hf; simpl.
  - exists 0%nat. unfold ret. f_equal. destruct t. simpl. by apply with_file_same.
  - unfold bind. rewrite (db_Exec_insertEF_no_faults _ _ _ t) by done.
    edestruct IH as [n ->]; [apply with_file_lookup|]. simpl.
    rewrite with_file_with_file. by eexists.
Qed.

Lemma Sync_Hardnesses_no_faults db id hs t w :
  files w !! db = Some (Schema t) ->
  ∃ n, Sync_Hardnesses no_faults db id hs w =
         (Ok (), with_file db (mkTables (cards t) (efs t)
                   (append_history hardness_id mkHardnessRow id hs (hardnesses t)))
                   n w).
Proof.
  revert t w. induction hs as [|h hs IH]; intros t w Hf; simpl.
  - exists 0%nat. unfold ret. f_equal. destruct t. simpl. by apply with_file_same.
  - unfold bind. rewrite (db_Exec_insertHardness_no_faults _ _ _ t) by done.
    edestruct IH as [n ->]; [apply with_file_lookup|]. simpl.
    rewrite with_file_with_file. by eexists.
Qed.

Lemma Sync_Cards_no_faults db cs t w :
  files w !! db = Some (Schema t) ->
  ∃ n, Sync_Cards no_faults db cs w =
         (Ok (), with_file db (store_Cards cs t) n w).
Proof.
  revert t w. induction cs as [|c cs IH]; intros t w Hf; simpl.
  - exists 0%nat. unfold ret. f_equal. by apply with_file_same.
  - unfold bind at 1.
    rewrite (db_Exec_insertCard_no_faults _ _ _ _ _ t) by done.
    unfold bind at 1. unfold res_LastInsertId at 1. simpl.
    unfold bind at 1.
    edestruct (Sync_EFs_no_faults db) as [n1 ->].
    { simpl. apply lookup_insert_eq. }
    unfold bind at 1.
    edestruct (Sync_Hardnesses_no_faults db) as [n2 ->].
    { apply with_file_lookup. }
    edestruct IH as [n3 ->]; [apply with_file_lookup|].
    exists (n3 + (n2 + (n1 + 2)))%nat. f_equal. unfold with_file. simpl.
    rewrite !insert_insert_eq. f_equal. lia.
Qed.

Lemma db_Exec_createDeckStmt_no_faults db w :
  files w !! db = None ∨ files w !! db = Some Blank ->
  db_Exec_createDeckStmt no_faults db w =
    (Ok (), with_file db (mkTables [] [] []) 1 w).
Proof.
  intros Hf. unfold db_Exec_createDeckStmt, io. simpl.
  by destruct Hf as [-> | ->].
Qed.

Lemma os_Remove_no_faults path f w :
  files w !! path = Some f ->
  os_Remove no_faults path w =
    (Ok (), {| files := delete path (files w); tick := S (tick w) |}).
Proof. intros Hf. unfold os_Remove, io. simpl. by rewrite Hf. Qed.

Lemma os_Rename_no_faults oldpath newpath f w :
  files w !! oldpath = Some f ->
  os_Rename no_faults oldpath newpath w =
    (Ok (), {| files := <[newpath := f]> (delete oldpath (files w));
               tick := S (tick w) |}).
Proof. intros Hf. unfold os_Rename. simpl. by rewrite Hf. Qed.

(** Without a failure, on a deck whose file exists and with no tables left
    under the temporary name, [Sync] succeeds and leaves at the path of the
    deck the tables of its insertions, and nothing under the temporary
    name. *)
Lemma Sync_no_faults (d : Deck) (w : World) (f : SqliteFile) :
  files w !! Path d = Some f ->
  files w !! (Path d +:+ ".sync") = None ∨
    files w !! (Path d +:+ ".sync") = Some Blank ->
  ∃ w1,
    Sync no_faults d w =
      ((Ok (), {| Path := Path d; DB := Some (Path d); Cards := Cards d;
                  Dirty := false |}), w1) ∧
    files w1 !! Path d = Some (Schema (store_Cards (Cards d) (mkTables [] [] []))) ∧
    files w1 !! (Path d +:+ ".sync") = None.
Proof.
  intros Hf Htmp. pose proof (sync_path_ne (Path d)) as Hne.
  unfold Sync. set (new_path := Path d +:+ ".sync") in *.
  unfold bind at 1. rewrite sql_Open_no_faults.
  unfold bind at 1. rewrite db_Exec_createDeckStmt_no_faults by done.
  unfold bind at 1.
  edestruct (Sync_Cards_no_faults new_path (Cards d)) as [n ->];
    [apply with_file_lookup|].
  rewrite with_file_with_file.
  unfold bind.
  rewrite (os_Remove_no_faults _ f)
    by (unfold with_file; simpl; by rewrite lookup_insert_ne).
  erewrite os_Rename_no_faults; last first.
  { simpl. rewrite lookup_delete_ne by done. apply lookup_insert_eq. }
  rewrite sql_Open_no_faults. eexists. split; [done|]. simpl.
  split; [apply lookup_insert_eq|].
  rewrite lookup_insert_ne by done. apply lookup_delete_eq.
Qed.

(** *** Rowids and history tables *)

Lemma next_rowid_above (ids : list Z) : Forall (λ i, i < next_rowid ids) ids.
Proof.
  destruct ids as [|i ids]; [constructor|]. unfold next_rowid.
  assert (H : ∀ (l : list Z) (a : Z),
            a <= foldr Z.max a l ∧ Forall (λ j, j <= foldr Z.max a l) l).
  { induction l as [|j l IH]; intros a; simpl; [split; [lia|constructor]|].
    destruct (IH a) as [Ha Hl]. split; [lia|].
    constructor; [lia|]. eapply Forall_impl; [exact Hl|]. simpl. lia. }
  destruct (H ids i) as [Hi Hids].
  constructor; [lia|]. eapply Forall_impl; [exact Hids|]. simpl. lia.
Qed.

Lemma next_rowid_snoc (ids : list Z) (k : Z) :
  Forall (λ i, i < k) ids -> next_rowid (ids ++ [k]) = k + 1.
Proof.
  intros Hids. destruct ids as [|i ids]; [done|]. simpl. f_equal.
  apply Forall_cons in Hids as [Hi Hids].
  rewrite foldr_max_snoc. pose proof (foldr_max_below ids i k Hi Hids). lia.
Qed.

Lemma increasing_by_snoc {A} (key : A -> Z) (l : list A) (x : A) :
  increasing_by key l -> Forall (λ y, key y < key x) l ->
  increasing_by key (l ++ [x]).
Proof.
  intros Hl Hx. apply StronglySorted_app_2; [|done|by repeat constructor].
  intros y z Hy Hz. apply list_elem_of_singleton in Hz as ->.
  by apply (proj1 (Forall_forall _ _) Hx).
Qed.

Lemma increasing_by_filter {A} (key : A -> Z) (P : A -> Prop)
    `{!∀ x, Decision (P x)} (l : list A) :
  increasing_by key l -> increasing_by key (filter P l).
Proof.
  unfold increasing_by. induction 1 as [|x l Hl IH Hx]; [constructor|].
  rewrite filter_cons. destruct (decide (P x)); [|done].
  constructor; [done|]. apply Forall_forall. intros y Hy.
  apply list_elem_of_filter in Hy as [_ Hy].
  rewrite Forall_forall in Hx. by apply Hx.
Qed.

Lemma increasing_by_sorted {A} (key : A -> Z) (l : list A) :
  increasing_by key l -> sorted_by key l.
Proof.
  unfold increasing_by, sorted_by. induction 1 as [|x l Hl IH Hx]; constructor;
    [done|]. eapply Forall_impl; [exact Hx|]. simpl. lia.
Qed.

Section History.

Context {R V : Type} (rid cid : R -> Z) (val : R -> V) (mk : Z -> Z -> V -> R).
Hypothesis rid_mk : ∀ i c v, rid (mk i c v) = i.
Hypothesis cid_mk : ∀ i c v, cid (mk i c v) = c.
Hypothesis val_mk : ∀ i c v, val (mk i c v) = v.

(** The rows [append_history] adds: one per value, for the card [id], in
    order, under rowids above those of the table. *)
Lemma append_history_spec (id : Z) (vs : list V) (l : list R) :
  increasing_by rid l ->
  ∃ new, append_history rid mk id vs l = l ++ new ∧
         Forall (λ r, cid r = id) new ∧ val <$> new = vs ∧
         increasing_by rid (l ++ new).
Proof.
  revert l. induction vs as [|v vs IH]; intros l Hl; simpl.
  - exists []. rewrite app_nil_r. by repeat split.
  - destruct (IH (l ++ [mk (next_rowid (rid <$> l)) id v])) as
      (new & Heq & Hcid & Hval & Hinc).
    { apply increasing_by_snoc; [done|]. rewrite rid_mk.
      pose proof (next_rowid_above (rid <$> l)) as Habove.
      by rewrite Forall_fmap in Habove. }
    exists (mk (next_rowid (rid <$> l)) id v :: new).
    unfold append_history in *. simpl. rewrite Heq, <- !app_assoc. simpl.
    split_and!; [done|by constructor|by rewrite <- Hval, val_mk|].
    by rewrite <- app_assoc in Hinc.
Qed.

(** Selecting the rows of a card from a table in rowid order. *)
Lemma select_increasing (id : Z) (l : list R) :
  increasing_by rid l ->
  val <$> sort_by rid (filter (λ r, cid r = id) l) =
  val <$> filter (λ r, cid r = id) l.
Proof.
  intros Hl. rewrite sort_by_id; [done|].
  by apply increasing_by_sorted, increasing_by_filter.
Qed.

Lemma filter_history_old (id id' : Z) (l new : list R) :
  Forall (λ r, cid r = id) new -> id' ≠ id ->
  filter (λ r, cid r = id') (l ++ new) = filter (λ r, cid r = id') l.
Proof.
  intros Hnew Hne. rewrite filter_app.
  rewrite (filter_none _ new); [by rewrite app_nil_r|].
  intros r Hr. rewrite Forall_forall in Hnew. rewrite (Hnew r Hr). congruence.
Qed.

Lemma filter_history_new (id : Z) (l new : list R) :
  Forall (λ r, cid r = id) new -> Forall (λ r, cid r < id) l ->
  filter (λ r, cid r = id) (l ++ new) = new.
Proof.
  intros Hnew Hold. rewrite filter_app.
  rewrite (filter_none _ l).
  - simpl. clear Hold. induction Hnew as [|r new Hr _ IH]; [done|].
    rewrite filter_cons. destruct (decide (cid r = id)); [|done]. by rewrite IH.
  - intros r Hr. rewrite Forall_forall in Hold. specialize (Hold r Hr). lia.
Qed.

End History.

(** *** The tables written by [Sync] *)

Lemma stored_init : stored (mkTables [] [] []) [] 1.
Proof. unfold stored. simpl. split_and!; by constructor. Qed.

Lemma stored_step (c : Card) (t : Tables) (ics : list (Z * Card)) (k : Z) :
  stored t ics k -> stored (store_Card c t) (ics ++ [(k, c)]) (k + 1).
Proof.
  intros (Hcards & Hinc & Hlt & Hnext & Hefs & Hhs & Hefs_lt & Hhs_lt & Hsel).
  unfold store_Card. rewrite Hnext.
  destruct (append_history_spec ef_id ef_card_id ef_ef mkEfRow
              ltac:(done) ltac:(done) ltac:(done) k (EFs c) (efs t) Hefs)
    as (new_e & -> & Hcid_e & Hval_e & Hinc_e).
  destruct (append_history_spec hardness_id hardness_card_id hardness_hardness
              mkHardnessRow ltac:(done) ltac:(done) ltac:(done)
              k (Hardnesses c) (hardnesses t) Hhs)
    as (new_h & -> & Hcid_h & Hval_h & Hinc_h).
  unfold stored. simpl. split_and!.
  - by rewrite fmap_app, Hcards.
  - apply increasing_by_snoc; [done|]. eapply Forall_impl; [exact Hlt|]. done.
  - apply Forall_app. split; [|repeat constructor; simpl; lia].
    eapply Forall_impl; [exact Hlt|]. simpl. lia.
  - rewrite fmap_app. simpl. apply next_rowid_snoc.
    rewrite Hcards, <- list_fmap_compose, Forall_fmap.
    eapply Forall_impl; [exact Hlt|]. done.
  - done.
  - done.
  - apply Forall_app. split.
    + eapply Forall_impl; [exact Hefs_lt|]. simpl. lia.
    + eapply Forall_impl; [exact Hcid_e|]. simpl. lia.
  - apply Forall_app. split.
    + eapply Forall_impl; [exact Hhs_lt|]. simpl. lia.
    + eapply Forall_impl; [exact Hcid_h|]. simpl. lia.
  - apply Forall_app. split.
    + rewrite Forall_forall in Hsel, Hlt. apply Forall_forall. intros ic Hic.
      destruct (Hsel ic Hic) as [He Hh]. specialize (Hlt ic Hic). simpl in Hlt.
      rewrite (filter_history_old ef_card_id k), (filter_history_old hardness_card_id k);
        [done|done|lia|done|lia].
    + repeat constructor; simpl.
      * by rewrite (filter_history_new ef_card_id k).
      * by rewrite (filter_history_new hardness_card_id k).
Qed.

Lemma stored_Cards (cs : list Card) (t : Tables) (ics : list (Z * Card)) (k : Z) :
  stored t ics k ->
  stored (store_Cards cs t) (ics ++ number_from k cs) (k + len cs).
Proof.
  revert t ics k. induction cs as [|c cs IH]; intros t ics k Hstored; simpl.
  - unfold len. simpl. by rewrite app_nil_r, Z.add_0_r.
  - specialize (IH _ _ _ (stored_step c _ _ _ Hstored)).
    unfold store_Cards in *. simpl.
    rewrite <- app_assoc in IH. simpl in IH.
    replace (k + len (c :: cs)) with (k + 1 + len cs); [done|].
    unfold len. simpl. lia.
Qed.

Lemma number_from_snd (k : Z) (cs : list Card) : (number_from k cs).*2 = cs.
Proof.
  revert k. induction cs as [|c cs IH]; intros k; simpl; [done|]. by rewrite IH.
Qed.

(** The query on [cards] gives the rows in the order of [nextrep]. *)
Lemma stored_select_cards (t : Tables) (ics : list (Z * Card)) (k : Z) :
  stored t ics k ->
  select_cards t = row_of <$> sort_by (λ ic, nextrep_of ic.2) ics.
Proof.
  intros (Hcards & Hinc & _). unfold select_cards. rewrite Hcards.
  rewrite (sort_by_id card_id).
  - rewrite sort_by_fmap. f_equal.
  - unfold sorted_by. eapply StronglySorted_fmap; [|exact Hinc].
    simpl. intros. lia.
Qed.

(** The queries on the history tables give each card its histories. *)
Lemma stored_load_card (t : Tables) (ics : list (Z * Card)) (k : Z) (ic : Z * Card) :
  stored t ics k -> ic ∈ ics ->
  load_card t (row_of ic) = set_Id ic.1 (to_second ic.2).
Proof.
  intros (_ & _ & _ & _ & Hefs & Hhs & _ & _ & Hsel) Hic.
  rewrite Forall_forall in Hsel. destruct (Hsel ic Hic) as [He Hh].
  unfold load_card, set_Id, to_second, row_of, select_efs, select_hardnesses.
  simpl. f_equal.
  - by rewrite (select_increasing ef_id).
  - by rewrite (select_increasing hardness_id).
Qed.

(** ** [Sync] followed by [OpenDeck] *)

Lemma nextrep_of_to_second (c : Card) : nextrep_of (to_second c) = nextrep_of c.
Proof.
  unfold nextrep_of, to_second, Time_Unix, time_Unix. simpl.
  by apply Z.div_mul.
Qed.

Lemma sorted_by_fmap_inv {A B} (f : A -> B) (key : B -> Z) (l : list A) :
  sorted_by key (f <$> l) -> sorted_by (key ∘ f) l.
Proof.
  unfold sorted_by. induction l as [|x l IH]; [constructor|].
  rewrite fmap_cons. intros Hs. apply StronglySorted_inv in Hs as [Hs Hx].
  constructor; [by apply IH|]. by rewrite Forall_fmap in Hx.
Qed.

(** The cards [OpenDeck] reads from the tables [Sync] wrote, ids apart: the
    cards of the deck, with due times cut to the second, in the order of
    their due second. *)
Lemma stored_roundtrip (t : Tables) (ics : list (Z * Card)) (k : Z) :
  stored t ics k ->
  forget_Id <$> (load_card t <$> select_cards t) =
  forget_Id <$> sort_by nextrep_of (to_second <$> ics.*2).
Proof.
  intros Hstored. rewrite (stored_select_cards _ _ _ Hstored).
  set (S := sort_by (λ ic, nextrep_of ic.2) ics).
  assert (Hload : load_card t <$> (row_of <$> S) =
                  (λ ic, set_Id ic.1 (to_second ic.2)) <$> S).
  { rewrite <- list_fmap_compose. apply list_fmap_ext. intros i ic Hic. simpl.
    apply (stored_load_card _ _ _ _ Hstored).
    apply list_elem_of_lookup_2 in Hic. unfold S in Hic.
    by rewrite sort_by_Permutation in Hic. }
  rewrite Hload, sort_by_fmap.
  rewrite (sort_by_ext (nextrep_of ∘ to_second) nextrep_of)
    by apply nextrep_of_to_second.
  rewrite sort_by_fmap. fold S.
  rewrite <- !list_fmap_compose. by apply list_fmap_ext.
Qed.

(** C2, as the code has it. After a [Sync] without failure, [OpenDeck] on
    the same path gives back the cards of the deck with the same prompts,
    answers, repetition counts, due times to the second and histories in
    their order; the cards come in ascending order of their due second, and
    they are renumbered: the card at position [i] has id [i]. *)
Theorem Sync_OpenDeck_roundtrip :
  ∀ (d : Deck) (w : World) (f : SqliteFile) (now : Time),
    files w !! Path d = Some f ->
    files w !! (Path d +:+ ".sync") = None ∨
      files w !! (Path d +:+ ".sync") = Some Blank ->
    ∃ d1 w1 d2 w2,
      Sync no_faults d w = ((Ok (), d1), w1) ∧
      Cards d1 = Cards d ∧ Dirty d1 = false ∧
      OpenDeck no_faults now (Path d) w1 = (Ok d2, w2) ∧
      forget_Id <$> Cards d2 =
        forget_Id <$> sort_by nextrep_of (to_second <$> Cards d) ∧
      forget_Id <$> Cards d2 ≡ₚ forget_Id <$> (to_second <$> Cards d) ∧
      sorted_by nextrep_of (Cards d2) ∧
      (len (Cards d) - 1 <= GoInt.max_int -> ids_positional (Cards d2)).
Proof.
  intros d w f now Hf Htmp.
  destruct (Sync_no_faults d w f Hf Htmp) as (w1 & Hsync & Hfile & _).
  destruct (OpenDeck_no_faults now (Path d) w1 _ Hfile) as [n Hopen].
  pose proof (stored_Cards (Cards d) _ _ _ stored_init) as Hstored.
  simpl in Hstored.
  eexists _, w1, _, _. split; [exact Hsync|]. simpl.
  split; [done|]. split; [done|]. split; [exact Hopen|]. simpl.
  set (t := store_Cards (Cards d) (mkTables [] [] [])) in *.
  assert (Heq : forget_Id <$> Cards (add_all (load_card t <$> select_cards t)
                                             (empty_deck (Path d))) =
                forget_Id <$> sort_by nextrep_of (to_second <$> Cards d)).
  { rewrite add_all_forget_Id. simpl.
    rewrite (stored_roundtrip _ _ _ Hstored). by rewrite number_from_snd. }
  split; [exact Heq|]. split; [by rewrite Heq, sort_by_Permutation|].
  split.
  - apply (sorted_by_fmap_inv forget_Id nextrep_of). rewrite Heq.
    apply (StronglySorted_fmap forget_Id (λ x y, nextrep_of x <= nextrep_of y));
      [done|]. apply sort_by_sorted.
  - intros Hlen. apply add_all_ids_positional; [by intros i c|].
    apply (f_equal length) in Heq. rewrite !length_fmap in Heq.
    rewrite (Permutation_length (sort_by_Permutation _ _)), length_fmap in Heq.
    unfold len in *. by rewrite Heq.
Qed.

Lemma Sync_OpenDeck_roundtrip_witness :
  let c1 := {| Id := 0; Prompt := "p1"; Answer := "a1"; Reps := 3;
               NextRep := 9 * Day + 5; EFs := [1.75; 1.75; 1.61]%float;
               Hardnesses := [3; 3; 3] |} in
  let c2 := {| Id := 2; Prompt := "p2"; Answer := "a2"; Reps := 0;
               NextRep := 1234567; EFs := []; Hardnesses := [] |} in
  let d := {| Path := "deck.db"; DB := Some "deck.db"; Cards := [c1; c2];
              Dirty := true |} in
  let w := {| files := {[ "deck.db" := Blank ]}; tick := 0 |} in
  ∃ d1 w1 d2 w2,
    Sync no_faults d w = ((Ok (), d1), w1) ∧
    OpenDeck no_faults 0 "deck.db" w1 = (Ok d2, w2) ∧
    forget_Id <$> Cards d2 = forget_Id <$> [to_second c2; to_second c1] ∧
    sorted_by nextrep_of (Cards d2) ∧ ids_positional (Cards d2).
Proof.
  intros c1 c2 d w.
  destruct (Sync_OpenDeck_roundtrip d w Blank 0)
    as (d1 & w1 & d2 & w2 & Hsync & _ & _ & Hopen & Heq & _ & Hsorted & Hids).
  - reflexivity.
  - left. reflexivity.
  - exists d1, w1, d2, w2. split_and!; [exact Hsync|exact Hopen| |exact Hsorted|].
    + etrans; [exact Heq|]. by vm_compute.
    + apply Hids. by vm_compute.
Defined.

(** C2 fails on the ids: a deck that holds one card with id 1, after the
    card with id 0 was deleted, comes back from [Sync] and [OpenDeck]
    holding that card with id 0. *)
Lemma Sync_OpenDeck_ids_counterexample :
  let d := DeleteCard 0
             (AddCard (NewCard 0 "p2" "a2")
                (AddCard (NewCard 0 "p1" "a1") (empty_deck "deck.db"))) in
  let w := {| files := {[ "deck.db" := Schema (mkTables [] [] []) ]};
              tick := 0 |} in
  ∃ d2,
    (Sync no_faults d w).1.1 = Ok () ∧
    (OpenDeck no_faults 0 "deck.db" (Sync no_faults d w).2).1 = Ok d2 ∧
    Cards d = [set_Id 1 (NewCard 0 "p2" "a2")] ∧
    Cards d2 = [set_Id 0 (NewCard 0 "p2" "a2")] ∧
    Id <$> Cards d2 ≠ Id <$> Cards d.
Proof.
  intros d w. eexists. split; [by vm_compute|].
  split; [by vm_compute|]. by vm_compute.
Qed.

(** ** The ids of a deck grow along its order

    Every deck that [OpenDeck] returns has its ids in ascending order, and
    [AddCard], [DeleteCard] and the reviews keep them so: in these decks the
    last id, which [AddCard] counts from, is the largest. *)

Lemma ids_positional_increasing (cs : list Card) :
  ids_positional cs -> ids_increasing cs.
Proof.
  unfold ids_increasing. induction cs as [|c cs IH] using rev_ind; intros Hpos.
  - constructor.
  - rewrite fmap_app. apply StronglySorted_app_2.
    + intros i j Hi Hj. apply list_elem_of_singleton in Hj as ->.
      apply list_elem_of_fmap in Hi as (c' & -> & Hc').
      apply list_elem_of_lookup_1 in Hc' as [k Hk].
      rewrite (Hpos k c') by (by apply lookup_app_l_Some).
      rewrite (Hpos (length cs) c) by (by apply list_lookup_middle).
      apply lookup_lt_Some in Hk. lia.
    + apply IH. intros i c' Hi. apply Hpos. by apply lookup_app_l_Some.
    + repeat constructor.
Qed.

Lemma OpenDeck_ids_increasing faults now path w d w' :
  OpenDeck faults now path w = (Ok d, w') ->
  len (Cards d) - 1 <= GoInt.max_int -> ids_increasing (Cards d).
Proof.
  intros Hopen Hlen. apply ids_positional_increasing.
  destruct (OpenDeck_add_all _ _ _ _ _ _ Hopen) as (cs & Hcards).
  rewrite Hcards in *. by apply add_all_ids_positional.
Qed.

Lemma AddCard_ids_increasing (card : Card) (d : Deck) :
  ids_increasing (Cards d) ->
  (∀ l, last (Cards d) = Some l -> GoInt.min_int <= Id l < GoInt.max_int) ->
  ids_increasing (Cards (AddCard card d)).
Proof.
  unfold ids_increasing, AddCard. simpl. intros Hinc Hrange.
  destruct (Cards d) as [|l cs _] using rev_ind; [repeat constructor|].
  rewrite last_snoc in *. specialize (Hrange l eq_refl).
  rewrite add_small by (unfold GoInt.min_int, GoInt.max_int in *; lia).
  rewrite fmap_app. simpl. apply StronglySorted_app_2; [|done|repeat constructor].
  intros i j Hi Hj. apply list_elem_of_singleton in Hj as ->.
  rewrite fmap_app in Hi, Hinc. simpl in Hi, Hinc.
  apply increasing_below_last in Hinc. rewrite Forall_forall in Hinc.
  apply elem_of_app in Hi as [Hi|Hi].
  - specialize (Hinc i Hi). lia.
  - apply list_elem_of_singleton in Hi as ->. lia.
Qed.

Lemma DeleteCard_ids_increasing (id : Z) (d : Deck) :
  ids_increasing (Cards d) -> ids_increasing (Cards (DeleteCard id d)).
Proof.
  unfold ids_increasing, DeleteCard. intros Hinc.
  destruct (DeleteCard_loop_spec id d [] (Cards d)) as
    [(mid & card & post & Hcards & _ & _ & Hdel)|[_ Hdel]]; [done..| |];
    simpl in Hdel; rewrite Hdel; [|done].
  simpl in *. rewrite Hcards, fmap_app, fmap_cons in Hinc.
  apply StronglySorted_app in Hinc as (Hlt & Hmid & Hpost).
  apply StronglySorted_inv in Hpost as [Hpost _].
  rewrite fmap_app. apply StronglySorted_app_2; [|done..].
  intros i j Hi Hj. apply Hlt; [done|]. by right.
Qed.

Lemma CalcNextRep_Id (now : Time) (hardness : Z) (c c' : Card) :
  CalcNextRep now hardness c = Some c' -> Id c' = Id c.
Proof.
  unfold CalcNextRep.
  destruct (_ =? 1); [by intros [= <-]|]. destruct (_ =? 2); [by intros [= <-]|].
  destruct (index (EFs c) _); [|done]. simpl.
  destruct (index (Hardnesses c ++ _) _); [|done]. simpl.
  destruct (interval _ _); [|done]. simpl. by intros [= <-].
Qed.

(** ** [Sync] over a temporary store left behind

    A [Sync] that failed in its write phase leaves its temporary file; the
    next one cannot create the tables in it, and fails the same way, the
    file of the deck untouched. *)
Lemma Sync_stale_temporary_store (faults : nat -> bool) (d : Deck) (w : World)
    (t : Tables) :
  files w !! (Path d +:+ ".sync") = Some (Schema t) ->
  faults (tick w) = false -> faults (S (tick w)) = false ->
  ∃ w', Sync faults d w =
          ((Err (ErrorString "table cards already exists"), d), w') ∧
        files w' = files w.
Proof.
  intros Htmp Hf0 Hf1. unfold Sync, bind, sql_Open, db_Exec_createDeckStmt, io.
  simpl. rewrite Hf0. simpl. rewrite Hf1.
  rewrite lookup_partial_alter_eq, Htmp. simpl.
  eexists. split; [done|]. simpl.
  change (<[Path d +:+ ".sync" := Schema t]>
            (<[Path d +:+ ".sync" := Schema t]> (files w)) = files w).
  by rewrite insert_insert_eq, insert_id.
Qed.

(** ** When a review panics *)

Lemma index_None {A} (s : list A) (i : Z) :
  index s i = None ↔ i < 0 ∨ len s <= i.
Proof.
  unfold index, len. destruct (Z.ltb_spec i 0) as [Hneg|Hpos].
  - split; [by left|done].
  - rewrite lookup_ge_None. lia.
Qed.

Lemma index_is_Some {A} (s : list A) (i : Z) :
  is_Some (index s i) ↔ 0 <= i < len s.
Proof.
  rewrite <- not_eq_None_Some, index_None. lia.
Qed.

Lemma interval_None_low (efs : list float) (n : Z) : n < 1 -> interval efs n = None.
Proof.
  intros Hn. unfold interval. replace (Z.to_nat n) with 0%nat by lia. simpl.
  destruct (Z.eqb_spec n 1); [lia|]. destruct (Z.eqb_spec n 2); [lia|]. done.
Qed.

(** The two index expressions of [CalcNextRep], deck.go:257. *)
Lemma CalcNextRep_indices (hardness : Z) (c : Card) :
  GoInt.min_int <= Reps c < GoInt.max_int -> Reps c ≠ 0 -> Reps c ≠ 1 ->
  (is_Some (index (EFs c) (GoInt.sub (GoInt.add (Reps c) 1) 2)) ∧
   is_Some (index (Hardnesses c ++ [hardness]) (GoInt.sub (GoInt.add (Reps c) 1) 1)))
  ↔ can_review c.
Proof.
  intros Hrange H0 H1. unfold can_review.
  assert (Hmm : GoInt.min_int = - 2 ^ 63 ∧ GoInt.max_int = 2 ^ 63 - 1) by done.
  destruct Hmm as [Hmin Hmax].
  rewrite add_small by lia.
  destruct (decide (Reps c = GoInt.min_int)) as [Hbot|Hbot].
  { rewrite Hbot.
    replace (GoInt.sub (GoInt.min_int + 1) 1) with GoInt.min_int by done.
    rewrite !index_is_Some. lia. }
  rewrite !sub_small by lia. rewrite !index_is_Some, len_app.
  change (len [hardness]) with 1. lia.
Qed.

Lemma CalcNextRep_Some_iff (now : Time) (hardness : Z) (c : Card) :
  GoInt.min_int <= Reps c < GoInt.max_int ->
  is_Some (CalcNextRep now hardness c) ↔ can_review c.
Proof.
  intros Hrange.
  assert (Hmm : GoInt.min_int = - 2 ^ 63 ∧ GoInt.max_int = 2 ^ 63 - 1) by done.
  destruct Hmm as [Hmin Hmax].
  destruct (decide (Reps c = 0)) as [H0|H0].
  { unfold CalcNextRep, can_review. rewrite H0. simpl. split; [by left|by eexists]. }
  destruct (decide (Reps c = 1)) as [H1|H1].
  { unfold CalcNextRep, can_review. rewrite H1. simpl.
    split; [by right; left|by eexists]. }
  rewrite <- (CalcNextRep_indices hardness c) by done.
  unfold CalcNextRep. cbv zeta.
  destruct (Z.eqb_spec (GoInt.add (Reps c) 1) 1) as [E1|_];
    [rewrite add_small in E1 by lia; lia|].
  destruct (Z.eqb_spec (GoInt.add (Reps c) 1) 2) as [E2|_];
    [rewrite add_small in E2 by lia; lia|].
  destruct (index (EFs c) _) as [efprime|] eqn:Hprime; simpl;
    [|split; [by intros []|by intros [[] _]]].
  destruct (index (Hardnesses c ++ _) _) as [h|] eqn:Hh; simpl;
    [|split; [by intros []|by intros [_ []]]].
  split; [by split; eexists|]. intros _.
  assert (Hlen : Reps c <= len (EFs c)).
  { apply mk_is_Some, index_is_Some in Hprime.
    destruct (decide (Reps c = GoInt.min_int)) as [Hbot|Hbot].
    - rewrite Hbot in Hprime.
      replace (GoInt.sub (GoInt.add GoInt.min_int 1) 2) with GoInt.max_int in Hprime by done.
      lia.
    - rewrite add_small, sub_small in Hprime by lia. lia. }
  destruct (decide (Reps c < 0)) as [Hneg|Hnn].
  { apply mk_is_Some, index_is_Some in Hh.
    destruct (decide (Reps c = GoInt.min_int)) as [Hbot|Hbot].
    - rewrite Hbot in Hh.
      replace (GoInt.sub (GoInt.add GoInt.min_int 1) 1) with GoInt.min_int in Hh by done.
      lia.
    - rewrite add_small, sub_small in Hh by lia. lia. }
  rewrite add_small by lia.
  destruct (interval_Some (EFs c ++ [calcEf efprime h]) (Reps c + 1)) as [days ->];
    [rewrite len_app; unfold len at 2; simpl; lia|lia|].
  by eexists.
Qed.

Lemma CalcNextRep_000_Some_iff (now : Time) (hardness : Z) (c : Card) :
  GoInt.min_int <= Reps c < GoInt.max_int ->
  is_Some (Part000.CalcNextRep now hardness c) ↔ can_review c.
Proof.
  intros Hrange.
  assert (Hmm : GoInt.min_int = - 2 ^ 63 ∧ GoInt.max_int = 2 ^ 63 - 1) by done.
  destruct Hmm as [Hmin Hmax].
  destruct (decide (Reps c = 0)) as [H0|H0].
  { unfold Part000.CalcNextRep, can_review. rewrite H0. simpl.
    split; [by left|by eexists]. }
  destruct (decide (Reps c = 1)) as [H1|H1].
  { unfold Part000.CalcNextRep, can_review. rewrite H1. simpl.
    split; [by right; left|by eexists]. }
  rewrite <- (CalcNextRep_indices hardness c) by done.
  unfold Part000.CalcNextRep. cbv zeta.
  destruct (Z.eqb_spec (GoInt.add (Reps c) 1) 1) as [E1|_];
    [rewrite add_small in E1 by lia; lia|].
  destruct (Z.eqb_spec (GoInt.add (Reps c) 1) 2) as [E2|_];
    [rewrite add_small in E2 by lia; lia|].
  destruct (index (EFs c) _) as [efprime|] eqn:Hprime; simpl;
    [|split; [by intros []|by intros [[] _]]].
  destruct (index (Hardnesses c ++ _) _) as [h|] eqn:Hh; simpl;
    [|split; [by intros []|by intros [_ []]]].
  split; [by split; eexists|]. intros _.
  destruct (hardness =? 5); [by eexists|].
  assert (Hlen : Reps c <= len (EFs c)).
  { apply mk_is_Some, index_is_Some in Hprime.
    destruct (decide (Reps c = GoInt.min_int)) as [Hbot|Hbot].
    - rewrite Hbot in Hprime.
      replace (GoInt.sub (GoInt.add GoInt.min_int 1) 2) with GoInt.max_int in Hprime by done.
      lia.
    - rewrite add_small, sub_small in Hprime by lia. lia. }
  destruct (decide (Reps c < 0)) as [Hneg|Hnn].
  { apply mk_is_Some, index_is_Some in Hh.
    destruct (decide (Reps c = GoInt.min_int)) as [Hbot|Hbot].
    - rewrite Hbot in Hh.
      replace (GoInt.sub (GoInt.add GoInt.min_int 1) 1) with GoInt.min_int in Hh by done.
      lia.
    - rewrite add_small, sub_small in Hh by lia. lia. }
  rewrite add_small by lia.
  destruct (interval_Some (EFs c ++ [calcEf efprime h]) (Reps c + 1)) as [days ->];
    [rewrite len_app; unfold len at 2; simpl; lia|lia|].
  by eexists.
Qed.

(** X1. [CalcNextRep] panics exactly on a card that is at its third or a later
    review and holds fewer easiness values, or fewer hardness values, than
    repetitions, or whose count of repetitions is negative: the index
    expressions [c.EFs[c.Reps-2]] and [c.Hardnesses[c.Reps-1]] are then out
    of range. The first two reviews never panic, whatever the histories
    hold. Both revisions of the scheduler agree on this. *)
Theorem CalcNextRep_panics_iff :
  ∀ (now : Time) (hardness : Z) (c : Card),
    GoInt.min_int <= Reps c < GoInt.max_int ->
    (CalcNextRep now hardness c = None ↔ ¬ can_review c) ∧
    (Part000.CalcNextRep now hardness c = None ↔ ¬ can_review c).
Proof.
  intros now hardness c Hrange.
  rewrite <- (CalcNextRep_Some_iff now hardness c Hrange) at 1.
  rewrite <- (CalcNextRep_000_Some_iff now hardness c Hrange).
  rewrite <- !not_eq_None_Some. split; split; try tauto.
  - destruct (CalcNextRep now hardness c); [|done]. intros H. by destruct H.
  - destruct (Part000.CalcNextRep now hardness c); [|done]. intros H. by destruct H.
Qed.

Lemma CalcNextRep_panics_iff_witness :
  let c := {| Id := 0; Prompt := "prompt"; Answer := "answer"; Reps := 3;
              NextRep := 100 * Second; EFs := []; Hardnesses := [] |} in
  CalcNextRep 0 4 c = None ∧ Part000.CalcNextRep 0 4 c = None.
Proof.
  intros c.
  destruct (CalcNextRep_panics_iff 0 4 c) as [[_ H] [_ H0]]; [done|].
  assert (Hc : ¬ can_review c).
  { unfold can_review, c, len. simpl. lia. }
  split; [by apply H|by apply H0].
Defined.

(** ** The interval as a product *)

Lemma interval_None_short (efs : list float) (n : Z) :
  3 <= n <= GoInt.max_int -> len efs < n -> interval efs n = None.
Proof.
  intros Hn Hlen. rewrite interval_step by done.
  assert (index efs (n - 1) = None) as -> by (apply index_None; lia).
  by destruct (interval efs (n - 1)).
Qed.

Lemma interval_closed (efs : list float) (n : Z) :
  2 <= n <= len efs -> n <= GoInt.max_int ->
  interval efs n = Some (interval_product efs n).
Proof.
  intros Hn Hmax. unfold interval_product.
  remember (Z.to_nat (n - 2)) as k eqn:Hk. revert n Hn Hmax Hk.
  induction k as [|k IH]; intros n Hn Hmax Hk.
  - assert (n = 2) as -> by lia. reflexivity.
  - rewrite interval_step by lia.
    rewrite (IH (n - 1)) by lia. simpl.
    destruct (index_Some efs (n - 1)) as [ef Hef]; [lia|]. rewrite Hef. simpl.
    unfold index in Hef. destruct (Z.ltb_spec (n - 1) 0); [lia|].
    erewrite (take_S_r _ k ef).
    + by rewrite foldl_app.
    + rewrite lookup_drop. by replace (2 + k)%nat with (Z.to_nat (n - 1)) by lia.
Qed.

(** X2. [interval(n)] is one day for the first review and, from the second on,
    six days times the easiness values of the reviews 3 to [n], multiplied up
    in that order: the easiness values recorded for the first two reviews are
    never read. It panics when [n] is below 1 (the recursion never reaches 2)
    or when the card holds fewer than [n] easiness values. *)
Theorem interval_closed_form :
  ∀ (efs : list float) (n : Z),
    GoInt.min_int <= n <= GoInt.max_int ->
    (n = 1 -> interval efs n = Some 1%float) ∧
    (2 <= n <= len efs -> interval efs n = Some (interval_product efs n)) ∧
    (2 <= n <= len efs ->
     ∀ ef1 ef2, interval (ef1 :: ef2 :: drop 2 efs) n = interval efs n) ∧
    (n < 1 ∨ (3 <= n ∧ len efs < n) -> interval efs n = None).
Proof.
  intros efs n [Hmin Hmax]. split_and!.
  - by intros ->.
  - intros Hn. by apply interval_closed.
  - intros Hn ef1 ef2. rewrite (interval_closed efs) by done.
    rewrite interval_closed; [done| |done].
    unfold len in *. rewrite !length_cons, length_drop. lia.
  - intros [Hlow|[Hn Hlen]]; [by apply interval_None_low|by apply interval_None_short].
Qed.

Lemma interval_closed_form_witness :
  interval [1.75; 1.75; 1.61; 1.47]%float 4 = Some (6 * 1.61 * 1.47)%float ∧
  interval [2.5; 0; 1.61; 1.47]%float 4 = Some (6 * 1.61 * 1.47)%float ∧
  interval [1.75; 1.75; 1.61; 1.47]%float 5 = None ∧
  interval [1.75; 1.75; 1.61; 1.47]%float 0 = None.
Proof.
  destruct (interval_closed_form [1.75; 1.75; 1.61; 1.47]%float 4)
    as (_ & H4 & Hsame & _); [done|].
  destruct (interval_closed_form [1.75; 1.75; 1.61; 1.47]%float 5)
    as (_ & _ & _ & H5); [done|].
  destruct (interval_closed_form [1.75; 1.75; 1.61; 1.47]%float 0)
    as (_ & _ & _ & H0); [done|].
  split_and!.
  - rewrite H4; [reflexivity|]. unfold len. simpl. lia.
  - etrans; [exact (Hsame ltac:(unfold len; simpl; lia) 2.5%float 0%float)|].
    rewrite H4; [reflexivity|]. unfold len. simpl. lia.
  - apply H5. right. unfold len. simpl. lia.
  - apply H0. left. lia.
Defined.

(** ** A study session only appends *)

Lemma CalcNextRep_fields (now : Time) (hardness : Z) (c c' : Card) :
  CalcNextRep now hardness c = Some c' ->
  Id c' = Id c ∧ Prompt c' = Prompt c ∧ Answer c' = Answer c ∧
  Reps c' = GoInt.add (Reps c) 1 ∧
  Hardnesses c' = Hardnesses c ++ [hardness] ∧
  ∃ ef, EFs c' = EFs c ++ [ef].
Proof.
  unfold CalcNextRep.
  destruct (_ =? 1); [intros [= <-]; simpl; by eauto 10|].
  destruct (_ =? 2); [intros [= <-]; simpl; by eauto 10|].
  destruct (index (EFs c) _); [|done]. simpl.
  destruct (index (Hardnesses c ++ _) _); [|done]. simpl.
  destruct (interval _ _); [|done]. simpl. intros [= <-]. simpl. by eauto 10.
Qed.

Lemma CalcNextRep_000_fields (now : Time) (hardness : Z) (c c' : Card) :
  Part000.CalcNextRep now hardness c = Some c' ->
  Id c' = Id c ∧ Prompt c' = Prompt c ∧ Answer c' = Answer c ∧
  Reps c' = GoInt.add (Reps c) 1 ∧
  Hardnesses c' = Hardnesses c ++ [hardness] ∧
  ∃ ef, EFs c' = EFs c ++ [ef].
Proof.
  unfold Part000.CalcNextRep.
  destruct (_ =? 1); [intros [= <-]; simpl; by eauto 10|].
  destruct (_ =? 2); [intros [= <-]; simpl; by eauto 10|].
  destruct (index (EFs c) _); [|done]. simpl.
  destruct (index (Hardnesses c ++ _) _); [|done]. simpl.
  destruct (_ =? 5); [intros [= <-]; simpl; by eauto 10|].
  destruct (interval _ _); [|done]. simpl. intros [= <-]. simpl. by eauto 10.
Qed.

Lemma reviews_fields (rs : list (Time * Z)) (c c' : Card) :
  reviews rs c = Some c' ->
  Id c' = Id c ∧ Prompt c' = Prompt c ∧ Answer c' = Answer c ∧
  Hardnesses c' = Hardnesses c ++ rs.*2 ∧
  ∃ efs, EFs c' = EFs c ++ efs ∧ length efs = length rs.
Proof.
  revert c. induction rs as [|[now hardness] rs IH]; intros c; simpl.
  - intros [= <-]. rewrite app_nil_r. split_and!; try done. exists [].
    by rewrite app_nil_r.
  - destruct (CalcNextRep now hardness c) as [c1|] eqn:Hstep; [|done]. simpl.
    intros Hrun.
    destruct (CalcNextRep_fields _ _ _ _ Hstep) as (Hi & Hp & Ha & _ & Hh & ef & He).
    destruct (IH _ Hrun) as (Hi' & Hp' & Ha' & Hh' & efs & He' & Hlen).
    split_and!; try congruence.
    + rewrite Hh', Hh, <- app_assoc. done.
    + exists (ef :: efs). rewrite He', He, <- app_assoc. simpl. by rewrite Hlen.
Qed.

Lemma reviews_000_fields (rs : list (Time * Z)) (c c' : Card) :
  reviews_000 rs c = Some c' ->
  Id c' = Id c ∧ Prompt c' = Prompt c ∧ Answer c' = Answer c ∧
  Hardnesses c' = Hardnesses c ++ rs.*2 ∧
  ∃ efs, EFs c' = EFs c ++ efs ∧ length efs = length rs.
Proof.
  revert c. induction rs as [|[now hardness] rs IH]; intros c; simpl.
  - intros [= <-]. rewrite app_nil_r. split_and!; try done. exists [].
    by rewrite app_nil_r.
  - destruct (Part000.CalcNextRep now hardness c) as [c1|] eqn:Hstep; [|done]. simpl.
    intros Hrun.
    destruct (CalcNextRep_000_fields _ _ _ _ Hstep) as (Hi & Hp & Ha & _ & Hh & ef & He).
    destruct (IH _ Hrun) as (Hi' & Hp' & Ha' & Hh' & efs & He' & Hlen).
    split_and!; try congruence.
    + rewrite Hh', Hh, <- app_assoc. done.
    + exists (ef :: efs). rewrite He', He, <- app_assoc. simpl. by rewrite Hlen.
Qed.

(** X3. A study session never rewrites what a card holds: the id, the prompt
    and the answer stay, the hardness history grows by exactly the values
    entered, in order, and the easiness history by one value per review, the
    earlier entries of both kept. Both revisions of the scheduler. *)
Theorem reviews_append_only :
  ∀ (rs : list (Time * Z)) (c c' : Card),
    reviews rs c = Some c' ∨ reviews_000 rs c = Some c' ->
    Id c' = Id c ∧ Prompt c' = Prompt c ∧ Answer c' = Answer c ∧
    Hardnesses c' = Hardnesses c ++ rs.*2 ∧
    ∃ efs, EFs c' = EFs c ++ efs ∧ length efs = length rs.
Proof.
  intros rs c c' [Hrun|Hrun]; [by apply reviews_fields|by apply reviews_000_fields].
Qed.

Lemma reviews_append_only_witness :
  ∃ c', reviews [(0, 3); (86400000000000, 9); (432000000000000, -2)]
          (NewCard 0 "prompt" "answer") = Some c' ∧
        Prompt c' = "prompt" ∧ Hardnesses c' = [3; 9; -2] ∧
        length (EFs c') = 3%nat.
Proof.
  destruct (reviews [(0, 3); (86400000000000, 9); (432000000000000, -2)]
              (NewCard 0 "prompt" "answer")) as [c'|] eqn:Hrun;
    [|by vm_compute in Hrun].
  exists c'. split; [done|].
  destruct (reviews_append_only _ _ _ (or_introl Hrun))
    as (_ & Hp & _ & Hh & efs & He & Hlen).
  split_and!; [done|done|]. rewrite He. simpl. done.
Defined.

(** ** The ids of a deck in memory *)

Lemma increasing_NoDup (ids : list Z) : StronglySorted Z.lt ids -> NoDup ids.
Proof.
  induction 1 as [|i ids _ IH Hall]; constructor; [|done].
  intros Hin. rewrite Forall_forall in Hall. specialize (Hall i Hin). lia.
Qed.

Lemma ids_positional_below (cs : list Card) :
  ids_positional cs -> ids_below (len cs) cs.
Proof.
  intros Hpos. split; [by apply ids_positional_increasing|].
  apply Forall_lookup. intros i c Hc. rewrite (Hpos i c Hc).
  apply lookup_lt_Some in Hc. unfold len. lia.
Qed.

Lemma ids_below_mono (b b' : Z) (cs : list Card) :
  b <= b' -> ids_below b cs -> ids_below b' cs.
Proof.
  intros Hb [Hinc Hall]. split; [done|].
  eapply Forall_impl; [exact Hall|]. simpl. lia.
Qed.

Lemma AddCard_ids_below (b : Z) (card : Card) (d : Deck) :
  0 <= b < GoInt.max_int -> ids_below b (Cards d) ->
  ids_below (b + 1) (Cards (AddCard card d)).
Proof.
  intros Hb [Hinc Hall].
  assert (Hlast : ∀ l, last (Cards d) = Some l -> 0 <= Id l < b).
  { intros l Hl. rewrite Forall_forall in Hall. apply Hall.
    rewrite last_lookup in Hl. by apply list_elem_of_lookup_2 in Hl. }
  split.
  - apply AddCard_ids_increasing; [done|]. intros l Hl.
    specialize (Hlast l Hl). unfold GoInt.min_int, GoInt.max_int in *. lia.
  - unfold AddCard. simpl. apply Forall_app. split.
    + eapply Forall_impl; [exact Hall|]. simpl. lia.
    + constructor; [|done]. destruct (last (Cards d)) as [l|] eqn:Hl; simpl; [|lia].
      specialize (Hlast l eq_refl).
      rewrite add_small by (unfold GoInt.min_int, GoInt.max_int in *; lia). lia.
Qed.

Lemma DeleteCard_Forall (P : Card -> Prop) (id : Z) (d : Deck) :
  Forall P (Cards d) -> Forall P (Cards (DeleteCard id d)).
Proof.
  unfold DeleteCard. intros Hall.
  destruct (DeleteCard_loop_spec id d [] (Cards d)) as
    [(mid & card & post & Hcards & _ & _ & Hdel)|[_ Hdel]]; [done..| |];
    simpl in Hdel; rewrite Hdel; [|done].
  simpl. rewrite Hcards in Hall. apply Forall_app in Hall as [Hmid Hpost].
  apply Forall_cons in Hpost as [_ Hpost]. by apply Forall_app.
Qed.

Lemma DeleteCard_ids_below (b : Z) (id : Z) (d : Deck) :
  ids_below b (Cards d) -> ids_below b (Cards (DeleteCard id d)).
Proof.
  intros [Hinc Hall]. split; [by apply DeleteCard_ids_increasing|].
  by apply DeleteCard_Forall.
Qed.

Lemma insert_ids (i : nat) (c c' : Card) (cs : list Card) :
  cs !! i = Some c -> Id c' = Id c -> Id <$> <[i := c']> cs = Id <$> cs.
Proof.
  intros Hc Hid. rewrite list_fmap_insert, Hid.
  apply list_insert_id. by rewrite list_lookup_fmap, Hc.
Qed.

Lemma apply_change_ids_below (b : Z) (ch : change) (d d' : Deck) :
  0 <= b < GoInt.max_int -> ids_below b (Cards d) ->
  apply_change ch d = Some d' -> ids_below (b + 1) (Cards d').
Proof.
  intros Hb Hinv.
  assert (Hinsert : ∀ i c c', Cards d !! i = Some c -> Id c' = Id c ->
                      ids_below (b + 1) (<[i := c']> (Cards d))).
  { intros i c c' Hc Hid. apply (ids_below_mono b); [lia|].
    pose proof (insert_ids i c c' (Cards d) Hc Hid) as Hids.
    destruct Hinv as [Hinc Hall]. split.
    - unfold ids_increasing. by rewrite Hids.
    - apply (Forall_fmap Id (λ i, 0 <= i < b)). rewrite Hids.
      by apply (Forall_fmap Id (λ i, 0 <= i < b)). }
  destruct ch as [card|id|i now hardness|i prompt answer|db dirty]; simpl.
  - intros [= <-]. by apply AddCard_ids_below.
  - intros [= <-]. apply (ids_below_mono b); [lia|]. by apply DeleteCard_ids_below.
  - destruct (Cards d !! i) as [c|] eqn:Hc; [|done]. simpl.
    destruct (CalcNextRep now hardness c) as [c'|] eqn:Hstep; [|done]. simpl.
    intros [= <-]. simpl.
    apply (Hinsert i c c' Hc (CalcNextRep_Id _ _ _ _ Hstep)).
  - destruct (Cards d !! i) as [c|] eqn:Hc; [|done]. simpl.
    intros [= <-]. simpl. by apply (Hinsert i c).
  - intros [= <-]. simpl. apply (ids_below_mono b); [lia|done].
Qed.

Lemma apply_changes_ids_below (b : Z) (chs : list change) (d d' : Deck) :
  0 <= b -> b + len chs <= GoInt.max_int -> ids_below b (Cards d) ->
  apply_changes chs d = Some d' -> ids_below (b + len chs) (Cards d').
Proof.
  revert b d. induction chs as [|ch chs IH]; intros b d Hb Hmax Hinv; simpl.
  - intros [= <-]. unfold len. simpl. by rewrite Z.add_0_r.
  - assert (Hlen : len (ch :: chs) = 1 + len chs) by (unfold len; simpl; lia).
    rewrite Hlen in *. pose proof (len_nonneg chs) as Hpos.
    destruct (apply_change ch d) as [d1|] eqn:Hch; [|done]. simpl. intros Hrun.
    rewrite Z.add_assoc.
    apply (IH (b + 1) d1); [lia|lia| |done].
    apply (apply_change_ids_below b ch d); [lia|done..].
Qed.

(** X4. In every deck the program builds in memory the ids are distinct, and
    ascending along the order of the cards: [OpenDeck] numbers the cards by
    position, [AddCard] counts on from the last id, [DeleteCard], the
    reviews, the edits and [Sync] keep the ids of the cards that stay. So
    the id [AddCard] gives is an id no card of the deck has. (An [int] holds the ids as long as the
    cards loaded and the changes made number at most [max_int].) *)
Theorem deck_ids_distinct :
  ∀ (faults : nat -> bool) (now : Time) (path : string) (w w' : World)
    (d d' : Deck) (chs : list change),
    OpenDeck faults now path w = (Ok d, w') ->
    len (Cards d) + len chs < GoInt.max_int ->
    apply_changes chs d = Some d' ->
    ids_increasing (Cards d') ∧ NoDup (Id <$> Cards d') ∧
    ∀ card c, last (Cards (AddCard card d')) = Some c ->
              Id c ∉ (Id <$> Cards d').
Proof.
  intros faults now path w w' d d' chs Hopen Hmax Hrun.
  pose proof (len_nonneg (Cards d)) as Hpos.
  pose proof (len_nonneg chs) as Hpos'.
  assert (Hinv : ids_below (len (Cards d) + len chs) (Cards d')).
  { apply (apply_changes_ids_below _ chs d); [done|lia| |done].
    apply ids_positional_below.
    destruct (OpenDeck_add_all _ _ _ _ _ _ Hopen) as (cs & Hcards).
    rewrite Hcards in *. apply add_all_ids_positional; [by intros i c|lia]. }
  split; [apply Hinv|]. split; [apply increasing_NoDup, Hinv|].
  intros card c Hlast.
  pose proof (AddCard_ids_below (len (Cards d) + len chs) card d'
                ltac:(lia) Hinv) as [Hinc _].
  unfold AddCard in Hlast, Hinc. simpl in Hlast, Hinc.
  rewrite last_snoc in Hlast. injection Hlast as <-.
  unfold ids_increasing in Hinc. rewrite fmap_app in Hinc. simpl in Hinc.
  apply increasing_below_last in Hinc. rewrite Forall_forall in Hinc.
  intros Hin. specialize (Hinc _ Hin). lia.
Qed.

Lemma deck_ids_distinct_witness :
  let t := {| cards := [mkCardRow 10 "p1" "a1" 0 500; mkCardRow 20 "p2" "a2" 0 100;
                        mkCardRow 7 "p3" "a3" 0 300];
              efs := []; hardnesses := [] |} in
  let w := {| files := {[ "deck.db" := Schema t ]}; tick := 0 |} in
  let chs := [delete_card 1; add_card (NewCard 0 "p4" "a4"); review_card 0 0 3; delete_card 0;
              add_card (NewCard 0 "p5" "a5")] in
  ∃ d d', fst (OpenDeck no_faults 0 "deck.db" w) = Ok d ∧
          apply_changes chs d = Some d' ∧
          Id <$> Cards d' = [2; 3; 4] ∧ NoDup (Id <$> Cards d').
Proof.
  intros t w chs.
  destruct (OpenDeck no_faults 0 "deck.db" w) as [r w'] eqn:Hopen.
  destruct r as [d|e|]; [|by vm_compute in Hopen..].
  destruct (apply_changes chs d) as [d'|] eqn:Hrun.
  2:{ vm_compute in Hopen. injection Hopen as <- _. by vm_compute in Hrun. }
  exists d, d'. split; [done|]. split; [done|]. split.
  - vm_compute in Hopen. injection Hopen as <- _. vm_compute in Hrun.
    by injection Hrun as <-.
  - apply (deck_ids_distinct no_faults 0 "deck.db" w w' d d' chs Hopen); [|done].
    vm_compute in Hopen. injection Hopen as <- _. by vm_compute.
Defined.

(** ** [DeleteCard] on a deck with distinct ids *)

Lemma increasing_app_inv (l k : list Z) :
  StronglySorted Z.lt (l ++ k) -> ∀ i j, i ∈ l -> j ∈ k -> i < j.
Proof.
  intros Hs i j Hi Hj. apply StronglySorted_app in Hs as (Hlt & _ & _).
  by apply Hlt.
Qed.

(** X5. On a deck whose ids ascend (every deck the program builds),
    [DeleteCard] removes the id altogether: afterwards no card has it, every
    card with another id is still there, the ids still ascend, and the deck
    has one card less exactly when the id was there. *)
Theorem DeleteCard_id_gone :
  ∀ (id : Z) (d : Deck),
    ids_increasing (Cards d) ->
    (id ∉ (Id <$> Cards (DeleteCard id d))) ∧
    ids_increasing (Cards (DeleteCard id d)) ∧
    (∀ c, c ∈ Cards d -> Id c ≠ id -> c ∈ Cards (DeleteCard id d)) ∧
    (id ∈ (Id <$> Cards d) ->
     S (length (Cards (DeleteCard id d))) = length (Cards d)) ∧
    (id ∉ (Id <$> Cards d) -> DeleteCard id d = d).
Proof.
  intros id d Hinc.
  pose proof (DeleteCard_ids_increasing id d Hinc) as Hinc'.
  unfold DeleteCard in *.
  destruct (DeleteCard_loop_spec id d [] (Cards d)) as
    [(mid & card & post & Hcards & Hid & Hmid & Hdel)|[Hall Hdel]]; [done..| |];
    simpl in Hdel; rewrite Hdel in *; simpl in *.
  - split_and!; [|done| | |].
    + (* the card removed was the only one with the id *)
      unfold ids_increasing in Hinc. rewrite Hcards, fmap_app, fmap_cons in Hinc.
      rewrite fmap_app. intros Hin. apply elem_of_app in Hin as [Hin|Hin].
      * apply list_elem_of_fmap in Hin as (c & -> & Hc).
        rewrite Forall_forall in Hmid. by apply (Hmid c Hc).
      * apply StronglySorted_app in Hinc as (_ & _ & Hpost).
        apply StronglySorted_inv in Hpost as [_ Hpost].
        rewrite Forall_forall in Hpost. specialize (Hpost id Hin). lia.
    + intros c Hc Hne. rewrite Hcards in Hc.
      apply elem_of_app in Hc as [Hc|Hc]; [apply elem_of_app; by left|].
      apply elem_of_cons in Hc as [->|Hc]; [done|]. apply elem_of_app. by right.
    + intros _. rewrite Hcards, !length_app. simpl. lia.
    + intros Hnot. exfalso. apply Hnot. rewrite Hcards, fmap_app, fmap_cons.
      apply elem_of_app. right. rewrite Hid. by left.
  - assert (Hnot : id ∉ (Id <$> Cards d)).
    { intros Hin. apply list_elem_of_fmap in Hin as (c & -> & Hc).
      rewrite Forall_forall in Hall. by apply (Hall c Hc). }
    split_and!; done.
Qed.

Lemma DeleteCard_id_gone_witness :
  let card id prompt := set_Id id (NewCard 0 prompt "") in
  let d := {| Path := "deck.db"; DB := Some "deck.db";
              Cards := [card 0 "a"; card 2 "b"; card 5 "c"]; Dirty := false |} in
  (2 ∉ (Id <$> Cards (DeleteCard 2 d))) ∧
  length (Cards (DeleteCard 2 d)) = 2%nat ∧
  DeleteCard 3 d = d.
Proof.
  intros card d.
  destruct (DeleteCard_id_gone 2 d) as (Hgone & _ & _ & Hlen & _);
    [repeat constructor|].
  destruct (DeleteCard_id_gone 3 d) as (_ & _ & _ & _ & Hsame);
    [repeat constructor|].
  split; [exact Hgone|]. split.
  - assert (Hin : 2 ∈ (Id <$> Cards d)) by (right; left).
    exact (eq_add_S _ _ (Hlen Hin)).
  - apply Hsame. simpl. rewrite !elem_of_cons, elem_of_nil. lia.
Defined.

(** X6. [AddCard] and then [DeleteCard] of the id the new card got give back
    the cards the deck had, in their order, on every deck whose ids ascend:
    the new id is above every id of the deck, so the card found is the one
    just added. The deck stays marked dirty. *)
Theorem DeleteCard_AddCard :
  ∀ (card : Card) (d : Deck),
    ids_increasing (Cards d) ->
    (∀ l, last (Cards d) = Some l -> GoInt.min_int <= Id l < GoInt.max_int) ->
    ∃ c, last (Cards (AddCard card d)) = Some c ∧
         DeleteCard (Id c) (AddCard card d) =
           {| Path := Path d; DB := DB d; Cards := Cards d; Dirty := true |}.
Proof.
  intros card d Hinc Hrange.
  pose proof (AddCard_ids_increasing card d Hinc Hrange) as Hinc'.
  unfold AddCard in *. simpl in *.
  set (c := match last (Cards d) with
            | Some l => set_Id (GoInt.add (Id l) 1) card
            | None => set_Id 0 card
            end) in *.
  exists c. split; [by rewrite last_snoc|].
  unfold DeleteCard. simpl.
  set (d1 := {| Path := Path d; DB := DB d; Cards := Cards d ++ [c]; Dirty := true |}).
  destruct (DeleteCard_loop_spec (Id c) d1 [] (Cards d ++ [c])) as
    [(mid & card' & post & Hcards & Hid & Hmid & Hdel)|[Hall Hdel]]; [done..| |].
  - simpl in Hdel. change (Cards d1) with (Cards d ++ [c]) in Hdel. rewrite Hdel.
    unfold d1. simpl. f_equal.
    (* the match is the last card *)
    assert (Hpost : post = []).
    { destruct post as [|p post _] using rev_ind; [done|]. exfalso.
      change (card' :: post ++ [p]) with ((card' :: post) ++ [p]) in Hcards.
      rewrite app_assoc in Hcards. apply app_inj_tail in Hcards as [Hd Hc].
      unfold ids_increasing in Hinc'. rewrite fmap_app in Hinc'. simpl in Hinc'.
      apply increasing_below_last in Hinc'. rewrite Forall_forall in Hinc'.
      assert (Hin : Id card' ∈ (Id <$> Cards d)).
      { rewrite Hd, fmap_app, fmap_cons. apply elem_of_app. right. by left. }
      specialize (Hinc' _ Hin). lia. }
    subst post. apply app_inj_tail in Hcards as [-> _]. by rewrite app_nil_r.
  - exfalso. apply Forall_app in Hall as [_ Hall].
    by apply Forall_cons in Hall as [Hall _].
Qed.

Lemma DeleteCard_AddCard_witness :
  let card id := set_Id id (NewCard 0 "prompt" "answer") in
  let d := {| Path := "deck.db"; DB := None; Cards := [card 0; card 3];
              Dirty := false |} in
  ∃ c, last (Cards (AddCard (card 0) d)) = Some c ∧ Id c = 4 ∧
       Cards (DeleteCard (Id c) (AddCard (card 0) d)) = [card 0; card 3].
Proof.
  intros card d.
  destruct (DeleteCard_AddCard (card 0) d) as (c & Hlast & Hdel).
  - repeat constructor.
  - intros l [= <-]. done.
  - exists c. split; [exact Hlast|]. split.
    + vm_compute in Hlast. by injection Hlast as <-.
    + by rewrite Hdel.
Defined.

(** ** [AddCard] on the decks the program builds *)

(** Where the ids grow along the order, the id [AddCard] gives is the
    largest id of the deck plus 1. *)
Lemma AddCard_max_Id (card : Card) (d : Deck) (m : Z) :
  ids_increasing (Cards d) -> max_Id (Cards d) = Some m ->
  GoInt.min_int <= m < GoInt.max_int ->
  Cards (AddCard card d) = Cards d ++ [set_Id (m + 1) card].
Proof.
  intros Hinc Hmax Hrange. unfold AddCard. simpl.
  destruct (Cards d) as [|l cs _] using rev_ind; [done|].
  rewrite (last_max_Id cs l Hinc) in Hmax. injection Hmax as <-.
  rewrite last_snoc.
  by rewrite add_small by (unfold GoInt.min_int, GoInt.max_int in *; lia).
Qed.

Lemma max_Id_elem_of (cs : list Card) (m : Z) :
  max_Id cs = Some m -> m ∈ (Id <$> cs).
Proof.
  unfold max_Id. destruct (Id <$> cs) as [|i ids]; [done|]. intros [= <-].
  induction ids as [|j ids IH] using rev_ind; simpl; [left|].
  rewrite foldr_max_snoc.
  destruct (Z.max_spec (foldr Z.max i ids) j) as [[_ ->]|[_ ->]].
  - rewrite app_comm_cons. apply elem_of_app. right. left.
  - rewrite app_comm_cons. apply elem_of_app. by left.
Qed.

(** C7. In every deck the program builds -- a deck [OpenDeck] returned, with
    the changes made to it by [AddCard], [DeleteCard], the reviews of
    [study], the edits of [editCard] and [Sync] -- [AddCard] gives the card
    id 0 when the deck is empty and
    otherwise the largest id of the deck plus 1, appends the card at the end
    and marks the deck dirty. The code takes the id of the last card; in
    these decks the ids grow along the order, so the last id is the largest.
    (An [int] holds the ids as long as the cards loaded and the changes made
    number less than [max_int].) *)
Theorem AddCard_max_id_plus_1 :
  ∀ (faults : nat -> bool) (now : Time) (path : string) (w w' : World)
    (d0 d : Deck) (chs : list change) (card : Card),
    OpenDeck faults now path w = (Ok d0, w') ->
    len (Cards d0) + len chs < GoInt.max_int ->
    apply_changes chs d0 = Some d ->
    Path (AddCard card d) = Path d ∧ DB (AddCard card d) = DB d ∧
    Dirty (AddCard card d) = true ∧
    (Cards d = [] -> Cards (AddCard card d) = [set_Id 0 card]) ∧
    (∀ m, max_Id (Cards d) = Some m ->
          Cards (AddCard card d) = Cards d ++ [set_Id (m + 1) card]).
Proof.
  intros faults now path w w' d0 d chs card Hopen Hmax Hrun.
  split_and!; [done..| |].
  - unfold AddCard. simpl. by intros ->.
  - intros m Hm.
    pose proof (len_nonneg (Cards d0)) as Hpos.
    pose proof (len_nonneg chs) as Hpos'.
    assert (Hinv : ids_below (len (Cards d0) + len chs) (Cards d)).
    { apply (apply_changes_ids_below _ chs d0); [done|lia| |done].
      apply ids_positional_below.
      destruct (OpenDeck_add_all _ _ _ _ _ _ Hopen) as (cs & Hcards).
      rewrite Hcards in *. apply add_all_ids_positional; [by intros i c|lia]. }
    destruct Hinv as [Hinc Hall].
    apply AddCard_max_Id; [done..|].
    apply max_Id_elem_of in Hm.
    apply (Forall_fmap Id (λ i, 0 <= i < len (Cards d0) + len chs)) in Hall.
    rewrite Forall_forall in Hall. specialize (Hall m Hm).
    unfold GoInt.min_int, GoInt.max_int in *. lia.
Qed.

Lemma AddCard_max_id_plus_1_witness :
  let t := {| cards := [mkCardRow 10 "p1" "a1" 0 500; mkCardRow 20 "p2" "a2" 0 100;
                        mkCardRow 7 "p3" "a3" 0 300];
              efs := []; hardnesses := [] |} in
  let w := {| files := {[ "deck.db" := Schema t ]}; tick := 0 |} in
  let chs := [add_card (NewCard 0 "p4" "a4"); delete_card 3; delete_card 0;
              review_card 0 0 3; edit_card 1 "p" "a"; sync_deck None true] in
  let card := NewCard 0 "p5" "a5" in
  ∃ d0 d, fst (OpenDeck no_faults 0 "deck.db" w) = Ok d0 ∧
          apply_changes chs d0 = Some d ∧
          Id <$> Cards d = [1; 2] ∧
          Cards (AddCard card d) = Cards d ++ [set_Id 3 card].
Proof.
  intros t w chs card.
  destruct (OpenDeck no_faults 0 "deck.db" w) as [r w'] eqn:Hopen.
  destruct r as [d0|e|]; [|by vm_compute in Hopen..].
  destruct (apply_changes chs d0) as [d|] eqn:Hrun.
  2:{ vm_compute in Hopen. injection Hopen as <- _. by vm_compute in Hrun. }
  exists d0, d. split; [done|]. split; [done|].
  assert (Hids : Id <$> Cards d = [1; 2]).
  { vm_compute in Hopen. injection Hopen as <- _. vm_compute in Hrun.
    by injection Hrun as <-. }
  split; [done|].
  destruct (AddCard_max_id_plus_1 no_faults 0 "deck.db" w w' d0 d chs card Hopen)
    as (_ & _ & _ & _ & Hadd); [|done|].
  - vm_compute in Hopen. injection Hopen as <- _. by vm_compute.
  - apply (Hadd 2). unfold max_Id. by rewrite Hids.
Defined.

(** On a deck put together by hand the last id need not be the largest: with
    ids 5 and 3 in that order the new card gets 4. No deck the program
    builds is like that. *)
Example AddCard_last_not_max :
  let card id := set_Id id (NewCard 0 "prompt" "answer") in
  let d := {| Path := "deck.db"; DB := None; Cards := [card 5; card 3];
              Dirty := false |} in
  max_Id (Cards d) = Some 5 ∧ ¬ ids_increasing (Cards d) ∧
  Id <$> Cards (AddCard (card 0) d) = [5; 3; 4].
Proof.
  intros card d. split_and!; [done| |done].
  intros H. apply StronglySorted_inv in H as [_ H].
  apply Forall_cons in H as [H _]. simpl in H. lia.
Qed.

(** ** Runs of the storage operations under any failures *)

Lemma regular_ret {A} (a : A) : regular (λ _, ret a).
Proof.
  intros f w r w' [= <- <-]. split_and!; [done| |done].
  intros _ _ k Hk. lia.
Qed.

Lemma regular_bind {A B} (m : (nat -> bool) -> M A) (k : A -> (nat -> bool) -> M B) :
  regular m -> (∀ a, regular (k a)) -> regular (λ f, bind (m f) (λ a, k a f)).
Proof.
  intros Hm Hk f w r w'. unfold bind.
  destruct (m f w) as [[a|e|] w1] eqn:Hmw.
  - intros Hkw. destruct (Hm _ _ _ _ Hmw) as (Ht1 & Hok1 & Hsame1).
    destruct (Hk a _ _ _ _ Hkw) as (Ht2 & Hok2 & Hsame2).
    split_and!; [lia| |].
    + intros b Hb j Hj. destruct (decide (j < tick w1)%nat).
      * apply (Hok1 a eq_refl). lia.
      * apply (Hok2 b Hb). lia.
    + intros f' Hf'. rewrite (Hsame1 f') by (intros j Hj; apply Hf'; lia).
      apply Hsame2. intros j Hj. apply Hf'. lia.
  - intros [= <- <-]. destruct (Hm _ _ _ _ Hmw) as (Ht1 & _ & Hsame1).
    split_and!; [done|done|]. intros f' Hf'. by rewrite (Hsame1 f').
  - intros [= <- <-]. destruct (Hm _ _ _ _ Hmw) as (Ht1 & _ & Hsame1).
    split_and!; [done|done|]. intros f' Hf'. by rewrite (Hsame1 f').
Qed.

Lemma regular_io {A} (p : string)
    (op : option SqliteFile -> result A * option SqliteFile) :
  regular (λ f, io f p op).
Proof.
  intros f w r w'. unfold io. destruct (f (tick w)) eqn:Hf.
  - intros [= <- <-]. simpl. split_and!; [lia|done|].
    intros f' Hf'. rewrite Hf' by lia. by rewrite Hf.
  - destruct (op (files w !! p)) as [r0 f0]. intros [= <- <-]. simpl.
    split_and!; [lia| |].
    + intros _ _ k Hk. by replace k with (tick w) by lia.
    + intros f' Hf'. rewrite Hf' by lia. by rewrite Hf.
Qed.

Lemma regular_LastInsertId (res : Z) : regular (λ f, res_LastInsertId f res).
Proof.
  intros f w r w'. unfold res_LastInsertId. destruct (f (tick w)) eqn:Hf;
    intros [= <- <-]; simpl.
  - split_and!; [lia|done|]. intros f' Hf'. rewrite Hf' by lia. by rewrite Hf.
  - split_and!; [lia| |].
    + intros _ _ k Hk. by replace k with (tick w) by lia.
    + intros f' Hf'. rewrite Hf' by lia. by rewrite Hf.
Qed.

Lemma regular_Sync_EFs db id efs0 : regular (λ f, Sync_EFs f db id efs0).
Proof.
  induction efs0 as [|ef efs0 IH]; simpl; [apply regular_ret|].
  apply (regular_bind (λ f, db_Exec_insertEF f db id ef)
                      (λ _ f, Sync_EFs f db id efs0)); [|done].
  apply regular_io.
Qed.

Lemma regular_Sync_Hardnesses db id hs : regular (λ f, Sync_Hardnesses f db id hs).
Proof.
  induction hs as [|h hs IH]; simpl; [apply regular_ret|].
  apply (regular_bind (λ f, db_Exec_insertHardness f db id h)
                      (λ _ f, Sync_Hardnesses f db id hs)); [|done].
  apply regular_io.
Qed.

Lemma regular_Sync_Cards db cs : regular (λ f, Sync_Cards f db cs).
Proof.
  induction cs as [|c cs IH]; simpl; [apply regular_ret|].
  apply (regular_bind
           (λ f, db_Exec_insertCard f db (Prompt c) (Answer c) (Reps c)
                   (Time_Unix (NextRep c)))
           (λ res f, id <- res_LastInsertId f res ;;
                     _ <- Sync_EFs f db id (EFs c) ;;
                     _ <- Sync_Hardnesses f db id (Hardnesses c) ;;
                     Sync_Cards f db cs)); [apply regular_io|]. intros res.
  apply (regular_bind (λ f, res_LastInsertId f res)
           (λ id f, _ <- Sync_EFs f db id (EFs c) ;;
                    _ <- Sync_Hardnesses f db id (Hardnesses c) ;;
                    Sync_Cards f db cs)); [apply regular_LastInsertId|]. intros id.
  apply (regular_bind (λ f, Sync_EFs f db id (EFs c))
           (λ _ f, _ <- Sync_Hardnesses f db id (Hardnesses c) ;;
                   Sync_Cards f db cs)); [apply regular_Sync_EFs|]. intros _.
  apply (regular_bind (λ f, Sync_Hardnesses f db id (Hardnesses c))
           (λ _ f, Sync_Cards f db cs)); [apply regular_Sync_Hardnesses|done].
Qed.

(** The insertions of [Sync] into a store that has its tables: under any
    failures, a run that returns normally leaves the tables of the
    insertions, and a run meets no failure exactly when it does. *)
Lemma Sync_Cards_run (f : nat -> bool) (db : string) (cs : list Card)
    (t : Tables) (w : World) :
  files w !! db = Some (Schema t) ->
  (∀ k, (k < cards_ops cs)%nat -> f (tick w + k)%nat = false) ->
  Sync_Cards f db cs w = (Ok (), with_file db (store_Cards cs t) (cards_ops cs) w).
Proof.
  intros Hf Hclear.
  destruct (Sync_Cards_no_faults db cs t w Hf) as [n Hrun].
  destruct (writes_at_Sync_Cards no_faults db cs _ _ _ Hrun) as (_ & _ & Hok).
  destruct (Hok () eq_refl) as [Htick _]. simpl in Htick.
  assert (n = cards_ops cs) as -> by lia.
  destruct (regular_Sync_Cards db cs no_faults _ _ _ Hrun) as (_ & _ & Hsame).
  apply Hsame. simpl. intros k Hk. unfold no_faults.
  replace k with (tick w + (k - tick w))%nat by lia. apply Hclear. lia.
Qed.

Lemma Sync_Cards_Ok (f : nat -> bool) (db : string) (cs : list Card)
    (t : Tables) (w w' : World) :
  files w !! db = Some (Schema t) ->
  Sync_Cards f db cs w = (Ok (), w') ->
  w' = with_file db (store_Cards cs t) (cards_ops cs) w ∧
  ∀ k, (k < cards_ops cs)%nat -> f (tick w + k)%nat = false.
Proof.
  intros Hf Hrun.
  destruct (writes_at_Sync_Cards f db cs _ _ _ Hrun) as (_ & _ & Hok).
  destruct (Hok () eq_refl) as [_ Hclear]. split; [|done].
  pose proof (Sync_Cards_run f db cs t w Hf Hclear) as Hrun'. congruence.
Qed.

(** *** The single operations *)

Lemma sql_Open_inv (f : nat -> bool) (p : string) (w : World) r w' :
  sql_Open f p w = (r, w') ->
  w' = ticked 1 w ∧
  (r = Ok p ∧ f (tick w) = false ∨ r = Err ErrIO ∧ f (tick w) = true).
Proof.
  unfold sql_Open, io. destruct (f (tick w)); intros [= <- <-].
  - rewrite tick_S. split; [done|by right].
  - rewrite partial_alter_same, tick_S. split; [done|by left].
Qed.

Lemma createDeckStmt_inv (f : nat -> bool) (db : string) (w : World) r w' :
  db_Exec_createDeckStmt f db w = (r, w') ->
  (f (tick w) = true ∧ r = Err ErrIO ∧ w' = ticked 1 w) ∨
  (f (tick w) = false ∧ (∃ t, files w !! db = Some (Schema t)) ∧
   r = Err (ErrorString "table cards already exists") ∧ w' = ticked 1 w) ∨
  (f (tick w) = false ∧ (files w !! db = None ∨ files w !! db = Some Blank) ∧
   r = Ok () ∧ w' = with_file db (mkTables [] [] []) 1 w).
Proof.
  unfold db_Exec_createDeckStmt, io. destruct (f (tick w)).
  - intros [= <- <-]. left. by rewrite tick_S.
  - destruct (files w !! db) as [[|t]|] eqn:Hf; intros [= <- <-].
    + right; right. split_and!; [done|by right|done|done].
    + right; left. split_and!; [done|by eexists|done|].
      rewrite <- Hf, partial_alter_same. apply tick_S.
    + right; right. split_and!; [done|by left|done|done].
Qed.

Lemma os_Remove_inv (f : nat -> bool) (p : string) (w : World) r w' :
  os_Remove f p w = (r, w') ->
  (f (tick w) = true ∧ r = Err ErrIO ∧ w' = ticked 1 w) ∨
  (f (tick w) = false ∧ files w !! p = None ∧ r = Err ErrNotExist ∧
   w' = ticked 1 w) ∨
  (f (tick w) = false ∧ is_Some (files w !! p) ∧ r = Ok () ∧
   w' = {| files := delete p (files w); tick := S (tick w) |}).
Proof.
  unfold os_Remove, io. destruct (f (tick w)).
  - intros [= <- <-]. left. by rewrite tick_S.
  - destruct (files w !! p) as [fl|] eqn:Hf; intros [= <- <-].
    + right; right. split_and!; [done|by eexists|done|done].
    + right; left. split_and!; [done..|].
      rewrite <- Hf, partial_alter_same. apply tick_S.
Qed.

Lemma os_Rename_inv (f : nat -> bool) (old new : string) (w : World) r w' :
  os_Rename f old new w = (r, w') ->
  ((∃ e, r = Err e) ∧ w' = ticked 1 w) ∨
  (f (tick w) = false ∧ r = Ok () ∧
   ∃ fl, files w !! old = Some fl ∧
         w' = {| files := <[new := fl]> (delete old (files w));
                 tick := S (tick w) |}).
Proof.
  unfold os_Rename. destruct (f (tick w)).
  - intros [= <- <-]. left. rewrite tick_S. split; [by eexists|done].
  - destruct (files w !! old) as [fl|] eqn:Hf; intros [= <- <-].
    + right. split_and!; [done..|]. by exists fl.
    + left. rewrite tick_S. split; [by eexists|done].
Qed.

Lemma cards_ops_write_ops (d : Deck) : write_ops d = (2 + cards_ops (Cards d))%nat.
Proof. done. Qed.

(** The steps of [Sync] up to the removal of the old file, when none of
    them fails. *)
Lemma Sync_write_phase_run (f : nat -> bool) (d : Deck) (w : World) :
  files w !! (Path d +:+ ".sync") = None ∨
    files w !! (Path d +:+ ".sync") = Some Blank ->
  (∀ k, (k < write_ops d)%nat -> f (tick w + k)%nat = false) ->
  (db <- sql_Open f (Path d +:+ ".sync") ;;
   _ <- db_Exec_createDeckStmt f db ;;
   Sync_Cards f db (Cards d)) w =
  (Ok (), with_file (Path d +:+ ".sync") (tables_of (Cards d)) (write_ops d) w).
Proof.
  intros Htmp Hclear. set (tmp := Path d +:+ ".sync") in *.
  unfold bind at 1.
  destruct (sql_Open f tmp w) as [r1 w1] eqn:H1.
  apply sql_Open_inv in H1 as [-> [[-> _]|[_ Hf]]].
  2:{ rewrite <- (Nat.add_0_r (tick w)), Hclear in Hf; [done|].
      rewrite cards_ops_write_ops. lia. }
  unfold bind at 1.
  destruct (db_Exec_createDeckStmt f tmp (ticked 1 w)) as [r2 w2] eqn:H2.
  apply createDeckStmt_inv in H2 as
    [(Hf & _)|[(_ & [t Ht] & _)|(_ & _ & -> & ->)]].
  - simpl in Hf. rewrite Hclear in Hf; [done|]. rewrite cards_ops_write_ops. lia.
  - simpl in Ht. destruct Htmp; congruence.
  - rewrite (Sync_Cards_run f tmp (Cards d) (mkTables [] [] [])).
    + f_equal. unfold with_file, ticked, tables_of. simpl.
      rewrite insert_insert_eq. f_equal. lia.
    + apply with_file_lookup.
    + intros k Hk. simpl.
      replace (S (tick w + 1 + k)) with (tick w + (2 + k))%nat by lia.
      apply Hclear. rewrite cards_ops_write_ops. lia.
Qed.

(** ** What a [Sync] that returns nil has done *)

Lemma tables_of_stored (cs : list Card) :
  stored (tables_of cs) (number_from 1 cs) (1 + len cs).
Proof. exact (stored_Cards cs _ _ _ stored_init). Qed.

(** What a [Sync] that returned nil has done. *)
Lemma Sync_Ok_inv :
  ∀ (f : nat -> bool) (d d' : Deck) (w w' : World),
    Sync f d w = ((Ok (), d'), w') ->
    d' = {| Path := Path d; DB := Some (Path d); Cards := Cards d;
            Dirty := false |} ∧
    is_Some (files w !! Path d) ∧
    files w' !! Path d = Some (Schema (tables_of (Cards d))) ∧
    files w' !! (Path d +:+ ".sync") = None ∧
    (∀ p, p ≠ Path d -> p ≠ Path d +:+ ".sync" -> files w' !! p = files w !! p) ∧
    tick w' = (tick w + write_ops d + 3)%nat ∧
    (∀ k, (k < write_ops d + 3)%nat -> f (tick w + k)%nat = false).
Proof.
  intros f d d' w w' Hsync. pose proof (sync_path_ne (Path d)) as Hne.
  unfold Sync in Hsync. cbv zeta in Hsync.
  set (tmp := Path d +:+ ".sync") in *.
  unfold bind at 1 in Hsync.
  destruct (sql_Open f tmp w) as [r1 w1] eqn:H1.
  apply sql_Open_inv in H1 as [-> [[-> Hf0]|[-> _]]]; [|done].
  unfold bind at 1 in Hsync.
  destruct (db_Exec_createDeckStmt f tmp (ticked 1 w)) as [r2 w2] eqn:H2.
  apply createDeckStmt_inv in H2 as
    [(_ & -> & _)|[(_ & _ & -> & _)|(Hf1 & Htmp & -> & ->)]]; [done..|].
  simpl in Hf1, Htmp. unfold bind at 1 in Hsync.
  destruct (Sync_Cards f tmp (Cards d) _) as [[[]|e|] w3] eqn:H3; [|done..].
  apply (Sync_Cards_Ok _ _ _ (mkTables [] [] [])) in H3 as [-> Hclear];
    [|apply with_file_lookup].
  fold (tables_of (Cards d)) in Hsync. unfold bind at 1 in Hsync.
  destruct (os_Remove f (Path d) _) as [r4 w4] eqn:H4.
  apply os_Remove_inv in H4 as
    [(_ & -> & _)|[(_ & _ & -> & _)|(Hf4 & Hfile & -> & ->)]]; [done..|].
  simpl in Hf4, Hfile.
  rewrite !lookup_insert_ne in Hfile by done.
  destruct (os_Rename f tmp (Path d) _) as [r5 w5] eqn:H5.
  apply os_Rename_inv in H5 as [[[e5 ->] ->]|(Hf5 & -> & fl & Hfl & ->)]; [done|].
  simpl in Hf5, Hfl.
  rewrite lookup_delete_ne, lookup_insert_eq in Hfl by done.
  injection Hfl as <-.
  destruct (sql_Open f (Path d) _) as [r6 w6] eqn:H6.
  apply sql_Open_inv in H6 as [-> [[-> Hf6]|[-> _]]]; [|done].
  injection Hsync as <- <-. simpl in *.
  split_and!; [done|done| | | | |].
  - apply lookup_insert_eq.
  - rewrite lookup_insert_ne by done. apply lookup_delete_eq.
  - intros p Hp Hp'.
    rewrite lookup_insert_ne, lookup_delete_ne, lookup_delete_ne by done.
    by rewrite !lookup_insert_ne by done.
  - rewrite cards_ops_write_ops. lia.
  - intros k Hk. set (n := cards_ops (Cards d)) in *.
    assert (Hcases : (k = 0 ∨ k = 1 ∨ (∃ j, j < n ∧ k = 2 + j) ∨
                      k = n + 2 ∨ k = n + 3 ∨ k = n + 4)%nat).
    { destruct (decide (2 <= k < 2 + n)%nat); [|lia].
      right; right; left. exists (k - 2)%nat. lia. }
    destruct Hcases as [->|[->|[(j & Hj & ->)|[->|[->| ->]]]]].
    + by rewrite Nat.add_0_r.
    + done.
    + rewrite <- (Hclear j Hj). f_equal. lia.
    + rewrite <- Hf4. f_equal. lia.
    + rewrite <- Hf5. f_equal. lia.
    + rewrite <- Hf6. f_equal. lia.
Qed.

(** X7. Whenever [Sync] returns nil, whatever operations were set to fail:
    none of its operations failed; the deck file existed before; it now holds
    exactly the tables written from the cards in memory, whatever it held
    before (the cards under the rowids 1, 2, ... in the order of the deck,
    with prompt, answer, count and due second, the ids of the cards not
    stored); the temporary file is gone; no other file changed; and the deck
    is clean, with its cards as they were and a handle on its path. *)
Theorem Sync_success :
  ∀ (f : nat -> bool) (d d' : Deck) (w w' : World),
    Sync f d w = ((Ok (), d'), w') ->
    d' = {| Path := Path d; DB := Some (Path d); Cards := Cards d;
            Dirty := false |} ∧
    is_Some (files w !! Path d) ∧
    files w' !! Path d = Some (Schema (tables_of (Cards d))) ∧
    cards (tables_of (Cards d)) = row_of <$> number_from 1 (Cards d) ∧
    files w' !! (Path d +:+ ".sync") = None ∧
    (∀ p, p ≠ Path d -> p ≠ Path d +:+ ".sync" -> files w' !! p = files w !! p) ∧
    tick w' = (tick w + write_ops d + 3)%nat ∧
    (∀ k, (k < write_ops d + 3)%nat -> f (tick w + k)%nat = false).
Proof.
  intros f d d' w w' Hsync.
  destruct (Sync_Ok_inv f d d' w w' Hsync) as
    (Hdeck & Hold & Hfile & Htmp & Hother & Htick & Hclear).
  split_and!; [done..| |done|done|done|done].
  by destruct (tables_of_stored (Cards d)) as [Hcards _].
Qed.

Lemma Sync_success_witness :
  let c := {| Id := 7; Prompt := "prompt"; Answer := "answer"; Reps := 2;
              NextRep := 5 * Day + 3; EFs := [1.75; 1.75]%float;
              Hardnesses := [3; 4] |} in
  let d := {| Path := "deck.db"; DB := None; Cards := [c]; Dirty := true |} in
  let old := {| cards := [mkCardRow 1 "old" "card" 0 0; mkCardRow 2 "other" "card" 0 0];
                efs := []; hardnesses := [] |} in
  let w := {| files := {[ "deck.db" := Schema old ]}; tick := 0 |} in
  ∃ d' w', Sync no_faults d w = ((Ok (), d'), w') ∧
    Dirty d' = false ∧
    files w' !! "deck.db" =
      Some (Schema {| cards := [mkCardRow 1 "prompt" "answer" 2 432000];
                      efs := [mkEfRow 1 1 1.75; mkEfRow 2 1 1.75]%float;
                      hardnesses := [mkHardnessRow 1 1 3; mkHardnessRow 2 1 4] |}) ∧
    files w' !! "deck.db.sync" = None.
Proof.
  intros c d old w.
  destruct (Sync no_faults d w) as [[r d'] w'] eqn:Hsync.
  assert (r = Ok ()) as ->.
  { apply (f_equal (λ x, x.1.1)) in Hsync. vm_compute in Hsync. done. }
  exists d', w'. split; [done|].
  destruct (Sync_success no_faults d d' w w' Hsync)
    as (-> & _ & Hfile & _ & Htmp & _).
  split; [done|]. split; [|exact Htmp].
  etrans; [exact Hfile|]. by vm_compute.
Defined.

(** ** What a [Sync] that fails leaves behind *)

(** A store under the temporary name makes every [Sync] fail, under any
    failures, with no file changed. *)
Lemma Sync_stale_any (f : nat -> bool) (d : Deck) (w : World) (t : Tables) :
  files w !! (Path d +:+ ".sync") = Some (Schema t) ->
  ∃ e w', Sync f d w = ((Err e, d), w') ∧ files w' = files w.
Proof.
  intros Htmp. unfold Sync. cbv zeta. set (tmp := Path d +:+ ".sync") in *.
  unfold bind at 1.
  destruct (sql_Open f tmp w) as [r1 w1] eqn:H1.
  apply sql_Open_inv in H1 as [-> [[-> Hf0]|[-> _]]]; [|by eexists _, _].
  unfold bind at 1.
  destruct (db_Exec_createDeckStmt f tmp (ticked 1 w)) as [r2 w2] eqn:H2.
  apply createDeckStmt_inv in H2 as
    [(_ & -> & ->)|[(_ & _ & -> & ->)|(_ & [Hn|Hn] & _)]];
    [by eexists _, _..| |]; simpl in Hn; congruence.
Qed.

(** The insertions keep the tables of a store in place, whatever fails. *)
Section Keeps.

Variable f : nat -> bool.
Variable db : string.

Lemma keeps_ret {A} (a : A) : keeps_tables db (ret a).
Proof. by intros w r w' [= <- <-]. Qed.

Lemma keeps_bind {A B} (m : M A) (k : A -> M B) :
  keeps_tables db m -> (∀ a, keeps_tables db (k a)) -> keeps_tables db (bind m k).
Proof.
  intros Hm Hk w r w'. unfold bind.
  destruct (m w) as [[a|e|] w1] eqn:Hmw.
  - intros Hkw Ht. eapply Hk; [done|]. by eapply Hm.
  - intros [= <- <-]. by eapply Hm.
  - intros [= <- <-]. by eapply Hm.
Qed.

Lemma keeps_io {A} (op : option SqliteFile -> result A * option SqliteFile) :
  (∀ t, ∃ t', snd (op (Some (Schema t))) = Some (Schema t')) ->
  keeps_tables db (io f db op).
Proof.
  intros Hop w r w'. unfold io. destruct (f (tick w)).
  - by intros [= <- <-].
  - intros Hrun [t Ht]. rewrite Ht in Hrun. destruct (Hop t) as [t' Ht'].
    destruct (op (Some (Schema t))) as [r0 f0]. simpl in Ht'. subst f0.
    injection Hrun as <- <-. simpl. exists t'. apply lookup_partial_alter_eq.
Qed.

Lemma keeps_LastInsertId res : keeps_tables db (res_LastInsertId f res).
Proof.
  intros w r w'. unfold res_LastInsertId.
  by destruct (f (tick w)); intros [= <- <-].
Qed.

Lemma keeps_Sync_EFs id efs0 : keeps_tables db (Sync_EFs f db id efs0).
Proof.
  induction efs0 as [|ef efs0 IH]; simpl; [apply keeps_ret|].
  apply keeps_bind; [|done]. apply keeps_io. intros t. by eexists.
Qed.

Lemma keeps_Sync_Hardnesses id hs : keeps_tables db (Sync_Hardnesses f db id hs).
Proof.
  induction hs as [|h hs IH]; simpl; [apply keeps_ret|].
  apply keeps_bind; [|done]. apply keeps_io. intros t. by eexists.
Qed.

Lemma keeps_Sync_Cards cs : keeps_tables db (Sync_Cards f db cs).
Proof.
  induction cs as [|c cs IH]; simpl; [apply keeps_ret|].
  apply keeps_bind; [apply keeps_io; intros t; by eexists|]. intros res.
  apply keeps_bind; [apply keeps_LastInsertId|]. intros id.
  apply keeps_bind; [apply keeps_Sync_EFs|]. intros _.
  apply keeps_bind; [apply keeps_Sync_Hardnesses|done].
Qed.

End Keeps.

(** X8. A [Sync] that returns an error after it created the tables of its
    temporary store (the first two operations did not fail, and no store was
    in the way) has either left that store behind, with the deck as it was
    and the deck file untouched or already removed, or failed only to reopen
    the deck file, which then holds the new tables. In the first case every
    later [Sync] of that path fails, whatever the deck holds and whatever
    fails or not, and changes no file: the tables cannot be created again
    under the temporary name. *)
Theorem Sync_failure_outcomes :
  ∀ (f : nat -> bool) (d d' : Deck) (w w' : World) (e : error),
    files w !! (Path d +:+ ".sync") = None ∨
      files w !! (Path d +:+ ".sync") = Some Blank ->
    f (tick w) = false -> f (S (tick w)) = false ->
    Sync f d w = ((Err e, d'), w') ->
    (d' = d ∧
     (∃ t, files w' !! (Path d +:+ ".sync") = Some (Schema t)) ∧
     (files w' !! Path d = files w !! Path d ∨ files w' !! Path d = None) ∧
     ∀ (f2 : nat -> bool) (d2 : Deck),
       Path d2 = Path d ->
       ∃ e2 w2, Sync f2 d2 w' = ((Err e2, d2), w2) ∧ files w2 = files w')
    ∨
    (files w' !! (Path d +:+ ".sync") = None ∧
     files w' !! Path d = Some (Schema (tables_of (Cards d))) ∧
     DB d' = None ∧ Cards d' = Cards d ∧ Dirty d' = Dirty d).
Proof.
  intros f d d' w w' e Htmp Hf0 Hf1 Hsync.
  pose proof (sync_path_ne (Path d)) as Hne.
  assert (Hlater : ∀ w1, (∃ t, files w1 !! (Path d +:+ ".sync") = Some (Schema t)) ->
            ∀ (f2 : nat -> bool) (d2 : Deck), Path d2 = Path d ->
              ∃ e2 w2, Sync f2 d2 w1 = ((Err e2, d2), w2) ∧ files w2 = files w1).
  { intros w1 [t Ht] f2 d2 Hpath. apply (Sync_stale_any f2 d2 w1 t).
    by rewrite Hpath. }
  unfold Sync in Hsync. cbv zeta in Hsync.
  set (tmp := Path d +:+ ".sync") in *.
  unfold bind at 1 in Hsync.
  destruct (sql_Open f tmp w) as [r1 w1] eqn:H1.
  apply sql_Open_inv in H1 as [-> [[-> _]|[_ Hf]]]; [|congruence].
  unfold bind at 1 in Hsync.
  destruct (db_Exec_createDeckStmt f tmp (ticked 1 w)) as [r2 w2] eqn:H2.
  apply createDeckStmt_inv in H2 as
    [(Hf & _)|[(_ & [t Ht] & _)|(_ & _ & -> & ->)]].
  { simpl in Hf. rewrite Nat.add_1_r in Hf. congruence. }
  { simpl in Ht. destruct Htmp; congruence. }
  unfold bind at 1 in Hsync.
  destruct (Sync_Cards f tmp (Cards d) _) as [r3 w3] eqn:H3.
  pose proof (keeps_Sync_Cards f tmp (Cards d) _ _ _ H3
                (ex_intro _ _ (with_file_lookup _ _ _ _))) as Htmp3.
  destruct (writes_at_Sync_Cards f tmp (Cards d) _ _ _ H3) as (Hother & Hpanic & _).
  assert (Hpath3 : files w3 !! Path d = files w !! Path d).
  { rewrite Hother by done. simpl. by rewrite lookup_insert_ne. }
  destruct r3 as [[]|e3|]; [| |done].
  2:{ injection Hsync as <- <- <-. left. split_and!; [done|done|by left|].
      by apply Hlater. }
  apply (Sync_Cards_Ok _ _ _ (mkTables [] [] [])) in H3 as [-> _];
    [|apply with_file_lookup].
  fold (tables_of (Cards d)) in *. unfold bind at 1 in Hsync.
  destruct (os_Remove f (Path d) _) as [r4 w4] eqn:H4.
  apply os_Remove_inv in H4 as
    [(_ & -> & ->)|[(_ & _ & -> & ->)|(_ & _ & -> & ->)]].
  { injection Hsync as <- <- <-. left. split_and!; [done|done|by left|].
    by apply Hlater. }
  { injection Hsync as <- <- <-. left. split_and!; [done|done|by left|].
    by apply Hlater. }
  destruct (os_Rename f tmp (Path d) _) as [r5 w5] eqn:H5.
  apply os_Rename_inv in H5 as [[[e5 ->] ->]|(_ & -> & fl & Hfl & ->)].
  { injection Hsync as <- <- <-. destruct Htmp3 as [t3 Ht3]. left.
    split_and!; [done| | |].
    - exists t3. simpl. by rewrite lookup_delete_ne.
    - right. simpl. apply lookup_delete_eq.
    - apply Hlater. exists t3. simpl. by rewrite lookup_delete_ne. }
  simpl in Hfl. rewrite lookup_delete_ne, lookup_insert_eq in Hfl by done.
  injection Hfl as <-.
  destruct (sql_Open f (Path d) _) as [r6 w6] eqn:H6.
  apply sql_Open_inv in H6 as [-> [[-> _]|[-> _]]]; [done|].
  injection Hsync as <- <- <-. right. simpl. split_and!; [|apply lookup_insert_eq|done..].
  rewrite lookup_insert_ne by done. apply lookup_delete_eq.
Qed.

Lemma Sync_failure_outcomes_witness :
  let c := {| Id := 0; Prompt := "prompt"; Answer := "answer"; Reps := 2;
              NextRep := 5 * Day; EFs := [1.75; 1.75]%float;
              Hardnesses := [3; 4] |} in
  let d := {| Path := "deck.db"; DB := Some "deck.db"; Cards := [c];
              Dirty := true |} in
  let w := {| files := {[ "deck.db" := Schema (mkTables [] [] []) ]};
              tick := 0 |} in
  ∃ e w',
    Sync (λ n, bool_decide (n = 5%nat)) d w = ((Err e, d), w') ∧
    (∃ t, files w' !! "deck.db.sync" = Some (Schema t)) ∧
    ∀ (f2 : nat -> bool) (d2 : Deck),
      Path d2 = "deck.db" ->
      ∃ e2 w2, Sync f2 d2 w' = ((Err e2, d2), w2) ∧ files w2 = files w'.
Proof.
  intros c d w.
  assert (Hr : (Sync (λ n, bool_decide (n = 5%nat)) d w).1.1 = Err ErrIO)
    by (by vm_compute).
  assert (Htmp : is_Some (files (Sync (λ n, bool_decide (n = 5%nat)) d w).2
                            !! "deck.db.sync"))
    by (vm_compute; by eexists).
  destruct (Sync (λ n, bool_decide (n = 5%nat)) d w) as [[r d'] w'] eqn:Hsync.
  simpl in Hr, Htmp. subst r.
  destruct (Sync_failure_outcomes (λ n, bool_decide (n = 5%nat)) d d' w w' ErrIO) as
    [(-> & Ht & _ & Hlater)|(Hnone & _)]; [by left|done|done|exact Hsync| |].
  - by exists ErrIO, w'.
  - change (Path d +:+ ".sync") with "deck.db.sync" in Hnone.
    rewrite Hnone in Htmp. by destruct Htmp.
Defined.

(** ** [Sync] when the deck file is missing *)

(** X9. [Sync] does not create the deck file: when there is no file at the
    path of the deck, [Sync] writes the whole deck into the temporary store
    and then fails on the removal of the old file, although no operation was
    set to fail. The deck stays as it was (dirty if it was), there is still
    no file at its path, and the cards are in the store under the temporary
    name. *)
Theorem Sync_missing_deck_file :
  ∀ (d : Deck) (w : World),
    files w !! Path d = None ->
    files w !! (Path d +:+ ".sync") = None ∨
      files w !! (Path d +:+ ".sync") = Some Blank ->
    ∃ w', Sync no_faults d w = ((Err ErrNotExist, d), w') ∧
          files w' !! Path d = None ∧
          files w' !! (Path d +:+ ".sync") = Some (Schema (tables_of (Cards d))).
Proof.
  intros d w Hfile Htmp. pose proof (sync_path_ne (Path d)) as Hne.
  pose proof (Sync_write_phase_run no_faults d w Htmp (λ _ _, eq_refl)) as Hwrite.
  unfold Sync. cbv zeta. set (tmp := Path d +:+ ".sync") in *.
  unfold bind at 1 2 in Hwrite. unfold bind at 1 2 3.
  destruct (sql_Open no_faults tmp w) as [[db|e|] w1]; [|done..].
  destruct (db_Exec_createDeckStmt no_faults db w1) as [[[]|e|] w2]; [|done..].
  rewrite Hwrite. unfold bind at 1.
  destruct (os_Remove no_faults (Path d) _) as [r4 w4] eqn:H4.
  apply os_Remove_inv in H4 as
    [(Hf & _)|[(_ & _ & -> & ->)|(_ & [fl Hfl] & _)]]; [done| |].
  - eexists. split; [done|]. simpl. split.
    + by rewrite lookup_insert_ne.
    + apply lookup_insert_eq.
  - simpl in Hfl. rewrite lookup_insert_ne in Hfl by done. congruence.
Qed.

Lemma Sync_missing_deck_file_witness :
  let c := {| Id := 0; Prompt := "prompt"; Answer := "answer"; Reps := 0;
              NextRep := 5 * Day; EFs := []; Hardnesses := [] |} in
  let d := {| Path := "deck.db"; DB := Some "deck.db"; Cards := [c];
              Dirty := true |} in
  let w := {| files := ∅; tick := 0 |} in
  ∃ w', Sync no_faults d w = ((Err ErrNotExist, d), w') ∧
        files w' !! "deck.db" = None ∧
        files w' !! "deck.db.sync" =
          Some (Schema {| cards := [mkCardRow 1 "prompt" "answer" 0 432000];
                          efs := []; hardnesses := [] |}).
Proof.
  intros c d w.
  destruct (Sync_missing_deck_file d w) as (w' & Hsync & Hfile & Htmp);
    [done|by left|].
  exists w'. split_and!; [done|done|]. etrans; [exact Htmp|]. by vm_compute.
Defined.

(** ** [OpenDeck] where there is no store *)

Lemma OpenDeck_fresh (now : Time) (path : string) (w : World) :
  files w !! path = None ∨ files w !! path = Some Blank ->
  OpenDeck no_faults now path w =
    (Ok (empty_deck path), with_file path (mkTables [] [] []) 3 w).
Proof.
  intros Hf. unfold OpenDeck, bind at 1. rewrite sql_Open_no_faults.
  assert (Hq : db_Query_cards no_faults path (ticked 1 w) =
               (Err (ErrorString "no such table: cards"), ticked 2 w)).
  { unfold db_Query_cards, io. simpl.
    assert (∀ o : option SqliteFile, o = files w !! path ->
              partial_alter (λ _, o) path (files w) = files w) as Hsame.
    { intros o ->. apply partial_alter_same. }
    destruct Hf as [Hf|Hf]; rewrite Hf; rewrite Hsame by done;
      unfold ticked; simpl; do 2 f_equal; lia. }
  rewrite Hq. simpl. unfold bind, ret.
  rewrite db_Exec_createDeckStmt_no_faults by done.
  unfold with_file, ticked, empty_deck. simpl. do 2 f_equal. lia.
Qed.

(** ** [Sync] when the renaming fails *)

(** X10. When the operations of [Sync] succeed up to the removal of the old
    deck file and the renaming of the temporary file then fails, the deck
    file is gone: [Sync] returns the error, the cards are in the store under
    the temporary name only, and [OpenDeck] on the path of the deck creates
    a new store there and returns a deck without cards. *)
Theorem Sync_rename_failure :
  ∀ (f : nat -> bool) (d : Deck) (w : World) (now : Time),
    is_Some (files w !! Path d) ->
    files w !! (Path d +:+ ".sync") = None ∨
      files w !! (Path d +:+ ".sync") = Some Blank ->
    (∀ k, (k < write_ops d + 1)%nat -> f (tick w + k)%nat = false) ->
    f (tick w + (write_ops d + 1))%nat = true ->
    ∃ w', Sync f d w = ((Err ErrIO, d), w') ∧
          files w' !! Path d = None ∧
          files w' !! (Path d +:+ ".sync") = Some (Schema (tables_of (Cards d))) ∧
          ∃ w'', OpenDeck no_faults now (Path d) w' = (Ok (empty_deck (Path d)), w'') ∧
                 files w'' !! Path d = Some (Schema (mkTables [] [] [])).
Proof.
  intros f d w now Hfile Htmp Hclear Hfault.
  pose proof (sync_path_ne (Path d)) as Hne.
  assert (Hwrite := Sync_write_phase_run f d w Htmp).
  unfold Sync. cbv zeta. set (tmp := Path d +:+ ".sync") in *.
  unfold bind at 1 2 in Hwrite. unfold bind at 1 2 3.
  destruct (sql_Open f tmp w) as [[db|e|] w1];
    try (by (discriminate Hwrite; intros k Hk; apply Hclear; lia)).
  destruct (db_Exec_createDeckStmt f db w1) as [[[]|e|] w2];
    try (by (discriminate Hwrite; intros k Hk; apply Hclear; lia)).
  rewrite Hwrite by (intros k Hk; apply Hclear; lia). unfold bind at 1.
  destruct (os_Remove f (Path d) _) as [r4 w4] eqn:H4.
  apply os_Remove_inv in H4 as
    [(Hf & _)|[(_ & Hnone & _)|(_ & _ & -> & ->)]].
  { exfalso. simpl in Hf. pose proof (Hclear (write_ops d) ltac:(lia)) as Hc.
    replace (tick w + write_ops d)%nat with (write_ops d + tick w)%nat in Hc by lia.
    simpl in Hc. congruence. }
  { simpl in Hnone. rewrite lookup_insert_ne in Hnone by done.
    rewrite Hnone in Hfile. by destruct Hfile. }
  unfold os_Rename. simpl.
  replace (tick w + (write_ops d + 1))%nat with (S (write_ops d + tick w)) in Hfault
    by lia.
  simpl in Hfault. rewrite Hfault. eexists. split; [done|]. simpl.
  split; [apply lookup_delete_eq|]. split.
  { rewrite lookup_delete_ne by done. apply lookup_insert_eq. }
  eexists. split.
  - apply OpenDeck_fresh. left. simpl. apply lookup_delete_eq.
  - apply with_file_lookup.
Qed.

Lemma Sync_rename_failure_witness :
  let c := {| Id := 0; Prompt := "prompt"; Answer := "answer"; Reps := 2;
              NextRep := 5 * Day; EFs := [1.75; 1.75]%float;
              Hardnesses := [3; 4] |} in
  let d := {| Path := "deck.db"; DB := Some "deck.db"; Cards := [c];
              Dirty := true |} in
  let old := {| cards := [mkCardRow 1 "prompt" "answer" 1 86400];
                efs := [mkEfRow 1 1 1.75%float];
                hardnesses := [mkHardnessRow 1 1 3] |} in
  let w := {| files := {[ "deck.db" := Schema old ]}; tick := 0 |} in
  ∃ w', Sync (λ n, bool_decide (n = 9%nat)) d w = ((Err ErrIO, d), w') ∧
        files w' !! "deck.db" = None ∧
        ∃ w'', OpenDeck no_faults 0 "deck.db" w' = (Ok (empty_deck "deck.db"), w'').
Proof.
  intros c d old w.
  destruct (Sync_rename_failure (λ n, bool_decide (n = 9%nat)) d w 0)
    as (w' & Hsync & Hfile & _ & w'' & Hopen & _).
  - by eexists.
  - by left.
  - intros k Hk. apply bool_decide_eq_false. vm_compute in Hk. simpl. lia.
  - reflexivity.
  - exists w'. split_and!; [done|done|]. by exists w''.
Defined.

(** X11. On a path where there is no file, or a file without tables,
    [OpenDeck] creates the store: it returns a clean deck without cards,
    and the file then holds the three tables, empty. Opening it once more
    changes nothing. *)
Theorem OpenDeck_creates_store :
  ∀ (now now' : Time) (path : string) (w : World),
    files w !! path = None ∨ files w !! path = Some Blank ->
    ∃ w' w'',
      OpenDeck no_faults now path w = (Ok (empty_deck path), w') ∧
      files w' = <[path := Schema (mkTables [] [] [])]> (files w) ∧
      OpenDeck no_faults now' path w' = (Ok (empty_deck path), w'') ∧
      files w'' = files w'.
Proof.
  intros now now' path w Hf.
  destruct (OpenDeck_no_faults now' path
              (with_file path (mkTables [] [] []) 3 w) (mkTables [] [] []))
    as [n Hopen]; [apply with_file_lookup|].
  eexists _, _. split; [by apply OpenDeck_fresh|]. split; [done|].
  split; [exact Hopen|done].
Qed.

Lemma OpenDeck_creates_store_witness :
  ∃ w', OpenDeck no_faults 0 "deck.db" {| files := ∅; tick := 0 |} =
          (Ok {| Path := "deck.db"; DB := Some "deck.db"; Cards := [];
                 Dirty := false |}, w') ∧
        files w' = {[ "deck.db" := Schema (mkTables [] [] []) ]}.
Proof.
  destruct (OpenDeck_creates_store 0 0 "deck.db" {| files := ∅; tick := 0 |})
    as (w' & _ & Hopen & Hfiles & _); [by left|].
  exists w'. split; [exact Hopen|]. exact Hfiles.
Defined.

(** What [Sync] does to the deck in memory, however it ends: it never
    panics, it keeps the path and the cards, and it changes the dirty flag
    only to clear it on success. *)
Lemma Sync_deck (f : nat -> bool) (d d' : Deck) (w w' : World) r :
  Sync f d w = ((r, d'), w') ->
  Path d' = Path d ∧ Cards d' = Cards d ∧ r ≠ Panic ∧
  (r = Ok () -> Dirty d' = false) ∧ (∀ e, r = Err e -> Dirty d' = Dirty d).
Proof.
  unfold Sync. cbv zeta. set (tmp := Path d +:+ ".sync").
  set (body := bind _ _).
  assert (Hbody : (body w).1 ≠ Panic).
  { unfold body. unfold bind at 1.
    destruct (sql_Open f tmp w) as [r1 w1] eqn:H1.
    apply sql_Open_inv in H1 as [-> [[-> _]|[-> _]]]; [|done].
    unfold bind at 1.
    destruct (db_Exec_createDeckStmt f tmp (ticked 1 w)) as [r2 w2] eqn:H2.
    apply createDeckStmt_inv in H2 as
      [(_ & -> & _)|[(_ & _ & -> & _)|(_ & _ & -> & ->)]]; [done..|].
    unfold bind at 1.
    destruct (Sync_Cards f tmp (Cards d) _) as [r3 w3] eqn:H3.
    destruct (writes_at_Sync_Cards f tmp (Cards d) _ _ _ H3) as (_ & Hpanic & _).
    destruct r3 as [[]|e3|]; [|done..].
    unfold bind at 1.
    destruct (os_Remove f (Path d) w3) as [r4 w4] eqn:H4.
    apply os_Remove_inv in H4 as
      [(_ & -> & _)|[(_ & _ & -> & _)|(_ & _ & -> & ->)]]; [done..|].
    destruct (os_Rename f tmp (Path d) _) as [r5 w5] eqn:H5.
    by apply os_Rename_inv in H5 as [[[e5 ->] ->]|(_ & -> & _)]. }
  destruct (body w) as [[[]|e|] w1]; [| |done].
  - destruct (sql_Open f (Path d) w1) as [r6 w6] eqn:H6.
    apply sql_Open_inv in H6 as [-> [[-> _]|[-> _]]]; intros [= <- <- <-];
      split_and!; done.
  - intros [= <- <- <-]. split_and!; done.
Qed.

(** ** [OpenDeck] writes nothing to a store that has its tables *)

Section Reads.

Variable f : nat -> bool.
Variable path : string.

Lemma reads_only_ret {A} (a : A) : reads_only path (ret a).
Proof. by intros w r w' [= <- <-]. Qed.

Lemma reads_only_bind {A B} (m : M A) (k : A -> M B) :
  reads_only path m -> (∀ a, reads_only path (k a)) -> reads_only path (bind m k).
Proof.
  intros Hm Hk w r w'. unfold bind.
  destruct (m w) as [[a|e|] w1] eqn:Hmw.
  - intros Hkw. destruct (Hm _ _ _ Hmw) as [Ho1 Hs1].
    destruct (Hk a _ _ _ Hkw) as [Ho2 Hs2]. split.
    + intros p Hp. by rewrite Ho2, Ho1.
    + intros Ht. rewrite <- (Hs1 Ht). apply Hs2. by rewrite (Hs1 Ht).
  - intros [= <- <-]. by apply (Hm _ _ _ Hmw).
  - intros [= <- <-]. by apply (Hm _ _ _ Hmw).
Qed.

Lemma reads_only_io {A} (op : option SqliteFile -> result A * option SqliteFile) :
  (∀ t, snd (op (Some (Schema t))) = Some (Schema t)) ->
  reads_only path (io f path op).
Proof.
  intros Hop w r w'. unfold io. destruct (f (tick w)).
  - by intros [= <- <-].
  - destruct (op (files w !! path)) as [r0 f0] eqn:Hrun. intros [= <- <-]. simpl.
    split.
    + intros p Hp. by rewrite lookup_partial_alter_ne.
    + intros [t Ht]. rewrite Ht in Hrun. specialize (Hop t).
      rewrite Hrun in Hop. simpl in Hop. subst f0. rewrite <- Ht.
      apply partial_alter_same.
Qed.

Lemma reads_only_Scan {A} (row : A) : reads_only path (rows_Scan f row).
Proof.
  intros w r w'. unfold rows_Scan. by destruct (f (tick w)); intros [= <- <-].
Qed.

Lemma reads_only_efRows efRows card : reads_only path (OpenDeck_efRows f efRows card).
Proof.
  revert card. induction efRows as [|ef efRows IH]; intros card; simpl.
  - apply reads_only_ret.
  - apply reads_only_bind; [apply reads_only_Scan|]. intros a. apply IH.
Qed.

Lemma reads_only_hardnessRows hardnessRows card :
  reads_only path (OpenDeck_hardnessRows f hardnessRows card).
Proof.
  revert card. induction hardnessRows as [|h hardnessRows IH]; intros card; simpl.
  - apply reads_only_ret.
  - apply reads_only_bind; [apply reads_only_Scan|]. intros a. apply IH.
Qed.

Lemma reads_only_Query_efs id : reads_only path (db_Query_efs f path id).
Proof. apply reads_only_io. by intros t. Qed.

Lemma reads_only_Query_hardnesses id : reads_only path (db_Query_hardnesses f path id).
Proof. apply reads_only_io. by intros t. Qed.

Lemma reads_only_Query_cards : reads_only path (db_Query_cards f path).
Proof. apply reads_only_io. by intros t. Qed.

(** Two runs in a row. *)
Lemma reads_only_steps (w w1 w' : World) :
  (∀ p, p ≠ path -> files w1 !! p = files w !! p) ∧
    ((∃ t, files w !! path = Some (Schema t)) -> files w1 = files w) ->
  (∀ p, p ≠ path -> files w' !! p = files w1 !! p) ∧
    ((∃ t, files w1 !! path = Some (Schema t)) -> files w' = files w1) ->
  (∀ p, p ≠ path -> files w' !! p = files w !! p) ∧
    ((∃ t, files w !! path = Some (Schema t)) -> files w' = files w).
Proof.
  intros [Ho1 Hs1] [Ho2 Hs2]. split.
  - intros p Hp. by rewrite Ho2, Ho1.
  - intros Ht. rewrite <- (Hs1 Ht). apply Hs2. by rewrite (Hs1 Ht).
Qed.

Lemma reads_only_card now row : reads_only path (OpenDeck_card f now path row).
Proof.
  unfold OpenDeck_card.
  apply reads_only_bind; [apply reads_only_Scan|]. intros r.
  apply reads_only_bind.
  - intros w r0 w' Hrun.
    destruct (db_Query_efs f path (card_id r) w) as [res w1] eqn:Hq.
    apply (reads_only_steps w w1 w'); [by apply (reads_only_Query_efs _ _ _ _ Hq)|].
    destruct res as [efRows|e|]; [by apply (reads_only_efRows _ _ _ _ _ Hrun)| |].
    + destruct e; try (by injection Hrun as <- <-).
      destruct (0 <? _); by injection Hrun as <- <-.
    + by injection Hrun as <- <-.
  - intros card w r0 w' Hrun.
    destruct (db_Query_hardnesses f path (card_id r) w) as [res w1] eqn:Hq.
    apply (reads_only_steps w w1 w');
      [by apply (reads_only_Query_hardnesses _ _ _ _ Hq)|].
    destruct res as [hardnessRows|e|];
      [by apply (reads_only_hardnessRows _ _ _ _ _ Hrun)| |].
    + destruct e; try (by injection Hrun as <- <-).
      destruct (0 <? _); by injection Hrun as <- <-.
    + by injection Hrun as <- <-.
Qed.

Lemma reads_only_cardRows now cardRows deck :
  reads_only path (OpenDeck_cardRows f now path cardRows deck).
Proof.
  revert deck. induction cardRows as [|row cardRows IH]; intros deck; simpl.
  - apply reads_only_ret.
  - apply reads_only_bind; [apply reads_only_card|]. intros card. apply IH.
Qed.

End Reads.

(** X12. [OpenDeck] never changes a file other than the one at its path, and
    never changes that one when it holds the tables of a deck, whatever the
    tables hold, whichever operations fail and however the call ends: a
    store is only read. (The file is written in one case, to create the
    tables where there are none.) *)
Theorem OpenDeck_reads_only :
  ∀ (f : nat -> bool) (now : Time) (path : string) (w : World),
    (∀ p, p ≠ path ->
       files (OpenDeck f now path w).2 !! p = files w !! p) ∧
    (∀ t, files w !! path = Some (Schema t) ->
       files (OpenDeck f now path w).2 = files w).
Proof.
  intros f now path w.
  cut (reads_only path (OpenDeck f now path)).
  { intros Hro. destruct (OpenDeck f now path w) as [r w'] eqn:Hrun.
    destruct (Hro _ _ _ Hrun) as [Ho Hs]. split; [done|].
    intros t Ht. apply Hs. by exists t. }
  clear w. intros w r w' Hrun. unfold OpenDeck, bind at 1 in Hrun.
  destruct (sql_Open f path w) as [r1 w1] eqn:H1.
  apply sql_Open_inv in H1 as [-> [[-> _]|[-> _]]];
    [|by injection Hrun as <- <-].
  destruct (db_Query_cards f path (ticked 1 w)) as [res w2] eqn:Hq.
  apply (reads_only_steps path (ticked 1 w) w2 w');
    [by apply (reads_only_Query_cards _ _ _ _ _ Hq)|].
  destruct res as [cardRows|e|]; [| |by injection Hrun as <- <-].
  - revert Hrun. apply reads_only_bind; [apply reads_only_cardRows|].
    intros deck. apply reads_only_ret.
  - destruct (no_such_table e).
    + revert Hrun. apply reads_only_bind; [|intros u; apply reads_only_ret].
      intros w3 r3 w3' Hrun. unfold db_Exec_createDeckStmt, io in Hrun.
      destruct (f (tick w3)); [by injection Hrun as <- <-|].
      destruct (files w3 !! path) as [[|t]|] eqn:Hf; injection Hrun as <- <-; simpl.
      * split; [intros p Hp; by rewrite lookup_partial_alter_ne|]. by intros [t [=]].
      * split; [intros p Hp; by rewrite lookup_partial_alter_ne|]. intros _.
        rewrite <- Hf. apply partial_alter_same.
      * split; [intros p Hp; by rewrite lookup_partial_alter_ne|]. by intros [t [=]].
    + destruct e; by injection Hrun as <- <-.
Qed.

Lemma OpenDeck_reads_only_witness :
  let t := {| cards := [mkCardRow 1 "prompt" "answer" 3 100];
              efs := []; hardnesses := [] |} in
  let w := {| files := {[ "deck.db" := Schema t; "other.db" := Blank ]};
              tick := 0 |} in
  files (OpenDeck (λ n, bool_decide (n = 3%nat)) 0 "deck.db" w).2 = files w.
Proof.
  intros t w.
  destruct (OpenDeck_reads_only (λ n, bool_decide (n = 3%nat)) 0 "deck.db" w)
    as [_ H].
  by apply (H t).
Defined.


(** ** What [OpenDeck] makes of a store *)

Lemma select_cards_Permutation (t : Tables) : select_cards t ≡ₚ cards t.
Proof. unfold select_cards. by rewrite !sort_by_Permutation. Qed.

Lemma nextrep_of_load_card (t : Tables) (row : CardRow) :
  nextrep_of (load_card t row) = card_nextrep row.
Proof.
  unfold nextrep_of, load_card, Time_Unix, time_Unix. simpl. by apply Z.div_mul.
Qed.

Lemma nextrep_of_forget_Id (c : Card) : nextrep_of (forget_Id c) = nextrep_of c.
Proof. done. Qed.

Lemma sorted_by_forget_Id (cs cs' : list Card) :
  forget_Id <$> cs = forget_Id <$> cs' ->
  sorted_by nextrep_of cs' -> sorted_by nextrep_of cs.
Proof.
  intros Heq Hs. apply (sorted_by_fmap_inv forget_Id nextrep_of). rewrite Heq.
  by apply (StronglySorted_fmap forget_Id (λ x y, nextrep_of x <= nextrep_of y)).
Qed.

(** X13. Without a failure, [OpenDeck] on a store that has its tables returns
    one card per row of [cards], whatever the tables hold: each card has the
    prompt, answer, count and due second of its row and, as histories, the
    values of the rows of [efs] and [hardnesses] that name the id of the row,
    in the order of their rowids; the cards come in ascending order of their
    due second; the deck is clean, and no file has changed. *)
Theorem OpenDeck_one_card_per_row :
  ∀ (now : Time) (path : string) (w : World) (t : Tables),
    files w !! path = Some (Schema t) ->
    ∃ d w',
      OpenDeck no_faults now path w = (Ok d, w') ∧ files w' = files w ∧
      Path d = path ∧ DB d = Some path ∧ Dirty d = false ∧
      length (Cards d) = length (cards t) ∧
      forget_Id <$> Cards d ≡ₚ forget_Id <$> (load_card t <$> cards t) ∧
      sorted_by nextrep_of (Cards d).
Proof.
  intros now path w t Hf.
  destruct (OpenDeck_no_faults now path w t Hf) as [n Hopen].
  eexists _, _. split; [exact Hopen|]. simpl.
  assert (Heq : forget_Id <$> Cards (add_all (load_card t <$> select_cards t)
                                             (empty_deck path)) =
                forget_Id <$> (load_card t <$> select_cards t)).
  { by rewrite add_all_forget_Id. }
  split_and!; [done..| | |].
  - apply (f_equal length) in Heq. rewrite !length_fmap in Heq.
    by rewrite Heq, select_cards_Permutation.
  - by rewrite Heq, select_cards_Permutation.
  - apply (sorted_by_forget_Id _ _ Heq).
    unfold sorted_by, select_cards.
    eapply StronglySorted_fmap; [|apply (sort_by_sorted card_nextrep)].
    intros x y. simpl. by rewrite !nextrep_of_load_card.
Qed.

Lemma OpenDeck_one_card_per_row_witness :
  let t := {| cards := [mkCardRow 10 "p1" "a1" 2 500; mkCardRow 20 "p2" "a2" 0 100];
              efs := [mkEfRow 5 10 1.75; mkEfRow 2 20 2.5; mkEfRow 1 10 1.3]%float;
              hardnesses := [mkHardnessRow 1 10 4] |} in
  let w := {| files := {[ "deck.db" := Schema t ]}; tick := 0 |} in
  ∃ d w',
    OpenDeck no_faults 0 "deck.db" w = (Ok d, w') ∧ files w' = files w ∧
    Cards d =
      [ {| Id := 0; Prompt := "p2"; Answer := "a2"; Reps := 0;
           NextRep := 100 * Second; EFs := [2.5%float]; Hardnesses := [] |};
        {| Id := 1; Prompt := "p1"; Answer := "a1"; Reps := 2;
           NextRep := 500 * Second; EFs := [1.3; 1.75]%float;
           Hardnesses := [4] |} ].
Proof.
  intros t w.
  destruct (OpenDeck_one_card_per_row 0 "deck.db" w t)
    as (d & w' & Hopen & Hfiles & _); [done|].
  exists d, w'. split_and!; [done..|].
  assert (Hd : (OpenDeck no_faults 0 "deck.db" w).1 =
               Ok {| Path := "deck.db"; DB := Some "deck.db";
                     Cards :=
                       [ {| Id := 0; Prompt := "p2"; Answer := "a2"; Reps := 0;
                            NextRep := 100 * Second; EFs := [2.5%float];
                            Hardnesses := [] |};
                         {| Id := 1; Prompt := "p1"; Answer := "a1"; Reps := 2;
                            NextRep := 500 * Second; EFs := [1.3; 1.75]%float;
                            Hardnesses := [4] |} ];
                     Dirty := false |}) by (by vm_compute).
  rewrite Hopen in Hd. simpl in Hd. by injection Hd as ->.
Defined.

(** ** [Close] *)

Lemma OpenDeck_fields (f : nat -> bool) now path w d w' :
  OpenDeck f now path w = (Ok d, w') ->
  Path d = path ∧ DB d = Some path ∧ Dirty d = false.
Proof.
  unfold OpenDeck, bind at 1.
  destruct (sql_Open f path w) as [r1 w1] eqn:H1.
  apply sql_Open_inv in H1 as [-> [[-> _]|[-> _]]]; [|done].
  destruct (db_Query_cards f path (ticked 1 w)) as [[rows|e|] w2]; [| |done].
  - unfold bind, ret.
    destruct (OpenDeck_cardRows f now path rows _ w2)
      as [[deck|e|] w3] eqn:Hloop; [|done..].
    intros [= <- <-]. simpl.
    destruct (OpenDeck_cardRows_add_all _ _ _ _ _ _ _ _ Hloop) as (cs & _ & ->).
    by destruct (add_all_fields cs {| Path := path; DB := Some path; Cards := [];
                                      Dirty := false |}) as [-> ->].
  - destruct (no_such_table e).
    + unfold bind, ret.
      destruct (db_Exec_createDeckStmt f path w2) as [[[]|e'|] w3]; [|done..].
      by intros [= <- <-].
    + destruct e; try done. by intros [= <- <-].
Qed.

(** X14. [Close] on a deck that [OpenDeck] has just returned, or that [Sync]
    has just written, makes no storage operation and returns nil, whatever
    would fail: the deck is clean, so nothing is written. In general
    [Close] on a clean deck that has its handle changes nothing. *)
Theorem Close_clean :
  ∀ (f f' : nat -> bool) (now : Time) (path : string) (d0 d : Deck)
    (w w' : World),
    OpenDeck f now path w = (Ok d, w') ∨ Sync f d0 w = ((Ok (), d), w') ->
    Close f' d w' = ((Ok (), d), w').
Proof.
  intros f f' now path d0 d w w' [Hopen|Hsync]; unfold Close, DB_Close.
  - by destruct (OpenDeck_fields _ _ _ _ _ _ Hopen) as (_ & -> & ->).
  - by destruct (Sync_Ok_inv _ _ _ _ _ Hsync) as (-> & _).
Qed.

Lemma Close_clean_witness :
  let t := {| cards := [mkCardRow 1 "prompt" "answer" 0 100];
              efs := []; hardnesses := [] |} in
  let w := {| files := {[ "deck.db" := Schema t ]}; tick := 0 |} in
  ∃ d w', OpenDeck no_faults 0 "deck.db" w = (Ok d, w') ∧
          Close (λ _, true) d w' = ((Ok (), d), w').
Proof.
  intros t w.
  destruct (OpenDeck_no_faults 0 "deck.db" w t) as [n Hopen]; [done|].
  eexists _, _. split; [exact Hopen|].
  apply (Close_clean no_faults (λ _, true) 0 "deck.db" (empty_deck "") _ w).
  left. exact Hopen.
Defined.

Lemma tables_of_roundtrip (cs : list Card) (path : string) :
  forget_Id <$> Cards (add_all (load_card (tables_of cs) <$>
                                  select_cards (tables_of cs)) (empty_deck path)) =
  forget_Id <$> sort_by nextrep_of (to_second <$> cs).
Proof.
  rewrite add_all_forget_Id. simpl.
  rewrite (stored_roundtrip _ _ _ (tables_of_stored cs)).
  by rewrite number_from_snd.
Qed.

(** X15. [Close] saves a dirty deck: without a failure, on a deck marked
    dirty whose file exists, [Close] returns nil and leaves the deck clean
    and the file holding the tables of its cards, so that [OpenDeck] then
    returns these cards (ids apart, due times cut to the second, in the
    order of the due seconds). *)
Theorem Close_saves_dirty_deck :
  ∀ (d : Deck) (w : World) (fl : SqliteFile) (now : Time),
    Dirty d = true ->
    files w !! Path d = Some fl ->
    files w !! (Path d +:+ ".sync") = None ∨
      files w !! (Path d +:+ ".sync") = Some Blank ->
    ∃ d1 w1 d2 w2,
      Close no_faults d w = ((Ok (), d1), w1) ∧
      Cards d1 = Cards d ∧ Dirty d1 = false ∧
      files w1 !! Path d = Some (Schema (tables_of (Cards d))) ∧
      OpenDeck no_faults now (Path d) w1 = (Ok d2, w2) ∧
      forget_Id <$> Cards d2 =
        forget_Id <$> sort_by nextrep_of (to_second <$> Cards d).
Proof.
  intros d w fl now Hdirty Hf Htmp.
  destruct (Sync_no_faults d w fl Hf Htmp) as (w1 & Hsync & Hfile & _).
  destruct (OpenDeck_no_faults now (Path d) w1 _ Hfile) as [n Hopen].
  eexists _, w1, _, _. unfold Close. rewrite Hdirty, Hsync. simpl.
  split; [done|]. split; [done|]. split; [done|]. split; [exact Hfile|].
  split; [exact Hopen|]. simpl. apply tables_of_roundtrip.
Qed.

Lemma Close_saves_dirty_deck_witness :
  let d := AddCard (NewCard (3 * Day + 7) "p2" "a2")
             (AddCard (NewCard (5 * Day) "p1" "a1") (empty_deck "deck.db")) in
  let w := {| files := {[ "deck.db" := Schema (mkTables [] [] []) ]};
              tick := 0 |} in
  ∃ d1 w1 d2 w2,
    Close no_faults d w = ((Ok (), d1), w1) ∧ Dirty d1 = false ∧
    OpenDeck no_faults 0 "deck.db" w1 = (Ok d2, w2) ∧
    forget_Id <$> Cards d2 =
      forget_Id <$> [NewCard (3 * Day) "p2" "a2"; NewCard (5 * Day) "p1" "a1"].
Proof.
  intros d w.
  destruct (Close_saves_dirty_deck d w (Schema (mkTables [] [] [])) 0)
    as (d1 & w1 & d2 & w2 & Hclose & _ & Hclean & _ & Hopen & Hcards);
    [done|done|by left|].
  exists d1, w1, d2, w2. split_and!; [done..|].
  etrans; [exact Hcards|]. by vm_compute.
Defined.

Import Console.

(** ** The terminal *)

Lemma offline_pure {A} (a : A) : offline (pure a).
Proof. done. Qed.

Lemma offline_and_then {A B} (io : IO A) (k : A -> IO B) :
  offline io -> (∀ a, offline (k a)) -> offline (and_then io k).
Proof.
  intros Hio Hk m. unfold and_then. specialize (Hio m).
  destruct (io m) as [[a|e|] m1]; simpl in *; [|done..].
  by rewrite Hk.
Qed.

Lemma offline_fmt c : offline (fmt c).
Proof. done. Qed.

Lemma offline_ReadString : offline ReadString.
Proof. intros m. unfold ReadString. by destruct (stdin m) as [|[]]. Qed.

Lemma offline_getInput prompt : offline (Vergessen.getInput prompt).
Proof.
  unfold Vergessen.getInput. apply offline_and_then; [apply offline_fmt|]. intros _.
  apply offline_and_then; [apply offline_ReadString|]. intros input.
  apply offline_pure.
Qed.

Lemma offline_study_hardness fuel card : offline (Vergessen.study_hardness fuel card).
Proof.
  induction fuel as [|fuel IH]; simpl; [done|].
  apply offline_and_then; [apply offline_fmt|]. intros _.
  apply offline_and_then; [apply offline_getInput|]. intros hardStr.
  destruct (strconv_Atoi _); [apply offline_pure|].
  apply offline_and_then; [apply offline_fmt|done].
Qed.

(** The loop that asks for the hardness ends by itself: it is never out of
    [fuel], given one round more than there are reads to come. *)
Lemma study_hardness_ends fuel card m :
  (length (stdin m) < fuel)%nat ->
  (Vergessen.study_hardness fuel card m).1 ≠ Panics.
Proof.
  revert m. induction fuel as [|fuel IH]; intros m Hfuel; [lia|]. simpl.
  unfold and_then at 1. simpl. unfold and_then at 1.
  unfold Vergessen.getInput, and_then at 1. simpl. unfold and_then at 1.
  unfold ReadString at 1. simpl.
  destruct (stdin m) as [|[s| |] rest] eqn:Hin; simpl; try done.
  destruct (strconv_Atoi _); [done|].
  unfold and_then. simpl. apply IH. simpl. simpl in Hfuel. lia.
Qed.

Lemma and_then_Panics {A B} (io : IO A) (k : A -> IO B) m m' :
  and_then io k m = (Panics, m') ->
  io m = (Panics, m') ∨ ∃ a m1, io m = (Val a, m1) ∧ k a m1 = (Panics, m').
Proof.
  unfold and_then. destruct (io m) as [[a|e|] m1]; [|done|].
  - intros Hk. right. by exists a, m1.
  - intros [= <-]. by left.
Qed.

Lemma getInput_not_Panics prompt m : (Vergessen.getInput prompt m).1 ≠ Panics.
Proof.
  unfold Vergessen.getInput, and_then, ReadString. simpl.
  by destruct (stdin m) as [|[]].
Qed.

Lemma and_then_Fails {A B} (io : IO A) (k : A -> IO B) m e m' :
  and_then io k m = (Fails e, m') ->
  io m = (Fails e, m') ∨ ∃ a m1, io m = (Val a, m1) ∧ k a m1 = (Fails e, m').
Proof.
  unfold and_then. destruct (io m) as [[a|e0|] m1]; [| |done].
  - intros Hk. right. by exists a, m1.
  - intros [= <- <-]. by left.
Qed.

Lemma getInput_Fails prompt m e m' :
  Vergessen.getInput prompt m = (Fails e, m') -> e = io_EOF ∨ e = read_error.
Proof.
  unfold Vergessen.getInput, and_then, ReadString. simpl.
  destruct (stdin m) as [|[]]; intros [= <- _]; auto.
Qed.

Lemma study_hardness_Fails fuel card m e m' :
  Vergessen.study_hardness fuel card m = (Fails e, m') ->
  e = io_EOF ∨ e = read_error.
Proof.
  revert m. induction fuel as [|fuel IH]; intros m; [done|]. simpl. intros Hrun.
  apply and_then_Fails in Hrun as [Hrun|(a & m1 & _ & Hrun)]; [done|].
  apply and_then_Fails in Hrun as [Hrun|(s & m2 & _ & Hrun)];
    [by eapply getInput_Fails|].
  destruct (strconv_Atoi _); [done|].
  apply and_then_Fails in Hrun as [Hrun|(u & m3 & _ & Hrun)]; [done|].
  by eapply IH.
Qed.

Lemma study_ask_Fails card m e m' :
  (_ <~ fmt (fmt_Println [str (Prompt card)]) ;;
   _ <~ Vergessen.getInput "Press ENTER to see the ANSWER" ;;
   λ m, Vergessen.study_hardness (S (length (stdin m))) card m) m = (Fails e, m') ->
  e = io_EOF ∨ e = read_error.
Proof.
  intros Hrun.
  apply and_then_Fails in Hrun as [Hrun|(a & m1 & _ & Hrun)]; [done|].
  apply and_then_Fails in Hrun as [Hrun|(s & m2 & _ & Hrun)];
    [by eapply getInput_Fails|].
  by eapply study_hardness_Fails.
Qed.

(** What [study] does at a card that is due, up to the review. *)
Lemma study_ask_not_Panics card m :
  ((_ <~ fmt (fmt_Println [str (Prompt card)]) ;;
    _ <~ Vergessen.getInput "Press ENTER to see the ANSWER" ;;
    λ m, Vergessen.study_hardness (S (length (stdin m))) card m) m).1 ≠ Panics.
Proof.
  destruct (and_then _ _ m) as [r m'] eqn:Hrun. simpl. intros ->.
  apply and_then_Panics in Hrun as [Hrun|(a & m1 & _ & Hrun)]; [done|].
  apply and_then_Panics in Hrun as [Hrun|(s & m2 & _ & Hrun)].
  - apply (getInput_not_Panics "Press ENTER to see the ANSWER" m1). by rewrite Hrun.
  - apply (study_hardness_ends (S (length (stdin m2))) card m2); [lia|].
    by rewrite Hrun.
Qed.

(** ** [study] *)

Lemma add_1_ne (x : Z) : GoInt.add x 1 ≠ x.
Proof.
  unfold GoInt.add, GoInt.wrap. intros Heq.
  pose proof (Z.div_mod (x + 1 + 2 ^ 63) (2 ^ 64) ltac:(lia)) as Hdm.
  pose proof (Z.mod_pos_bound (x + 1 + 2 ^ 63) (2 ^ 64) ltac:(lia)) as Hb.
  lia.
Qed.

Lemma CalcNextRep_Reps now hardness c c' :
  CalcNextRep now hardness c = Some c' -> Reps c' ≠ Reps c.
Proof.
  intros Hstep. destruct (CalcNextRep_fields _ _ _ _ Hstep) as (_ & _ & _ & -> & _).
  apply add_1_ne.
Qed.

Lemma reviewed_same (cs : list Card) : reviewed cs cs = 0%nat.
Proof.
  induction cs as [|c cs IH]; simpl; [done|]. by rewrite bool_decide_eq_true_2.
Qed.

Lemma reviewed_app (pre cs cs' : list Card) :
  reviewed (pre ++ cs) (pre ++ cs') = reviewed cs cs'.
Proof.
  induction pre as [|c pre IH]; simpl; [done|]. by rewrite bool_decide_eq_true_2.
Qed.

Lemma studied_as_same clock (cs : list Card) : Forall2 (studied_as clock) cs cs.
Proof. induction cs; constructor; [by left|done]. Qed.

Section Study.

Variable faults : nat -> bool.
Variable clock : nat -> Time.

Lemma study_loop_cons i card rest studied d m :
  Vergessen.study_loop clock i (card :: rest) studied d m =
    let m1 := (Now clock m).2 in
    if Time_Unix (clock (nows m)) <? Time_Unix (NextRep card) then
      Vergessen.study_loop clock (S i) rest studied d m1
    else
      match (_ <~ fmt (fmt_Println [str (Prompt card)]) ;;
             _ <~ Vergessen.getInput "Press ENTER to see the ANSWER" ;;
             λ m, Vergessen.study_hardness (S (length (stdin m))) card m) m1 with
      | (Val hardness, m2) =>
          match CalcNextRep (clock (nows m2)) hardness card with
          | Some card' =>
              let d1 := {| Path := Path d; DB := DB d;
                           Cards := <[i := card']> (Cards d); Dirty := true |} in
              if Vergessen.maxStudy <? GoInt.add studied 1
              then ((Val (), d1), (Now clock m2).2)
              else Vergessen.study_loop clock (S i) rest (GoInt.add studied 1) d1
                     (Now clock m2).2
          | None => ((Panics, d), m2)
          end
      | (Fails e, m2) => ((Fails e, d), m2)
      | (Panics, m2) => ((Panics, d), m2)
      end.
Proof. reflexivity. Qed.

(** The loop of [study] from index [length pre] on. *)
Lemma study_loop_spec (rest pre : list Card) (studied : Z) (d : Deck) (m : Machine) :
  Cards d = pre ++ rest -> 0 <= studied <= Vergessen.maxStudy ->
  ∃ r d' m' rest',
    Vergessen.study_loop clock (length pre) rest studied d m = ((r, d'), m') ∧
    Path d' = Path d ∧ DB d' = DB d ∧ world m' = world m ∧
    Cards d' = pre ++ rest' ∧
    Forall2 (studied_as clock) rest rest' ∧
    (reviewed rest rest' <= Z.to_nat (Vergessen.maxStudy + 1 - studied))%nat ∧
    (Dirty d' = true ∨ (d' = d ∧ rest' = rest)) ∧
    (r = Panics -> ∃ c k hardness, c ∈ rest ∧ CalcNextRep (clock k) hardness c = None) ∧
    (∀ e, r = Fails e -> e = io_EOF ∨ e = read_error).
Proof.
  revert pre studied d m.
  induction rest as [|card rest IH]; intros pre studied d m Hcards Hstudied.
  { exists (Val ()), d, m, []. simpl.
    split_and!; [done|done|done|done|done|constructor|lia|by right|done|done]. }
  rewrite study_loop_cons. cbv zeta.
  set (m1 := (Now clock m).2).
  assert (Hnext : ∀ d1 m2 card1 (studied1 : Z),
            Cards d1 = pre ++ card1 :: rest -> Path d1 = Path d -> DB d1 = DB d ->
            world m2 = world m -> 0 <= studied1 <= Vergessen.maxStudy ->
            studied_as clock card card1 ->
            (studied1 = studied ∧ d1 = d ∧ card1 = card ∨
             studied1 = studied + 1 ∧ Dirty d1 = true ∧ Reps card1 ≠ Reps card) ->
            ∃ r d' m' rest',
              Vergessen.study_loop clock (S (length pre)) rest studied1 d1 m2 =
                ((r, d'), m') ∧
              Path d' = Path d ∧ DB d' = DB d ∧ world m' = world m ∧
              Cards d' = pre ++ rest' ∧
              Forall2 (studied_as clock) (card :: rest) rest' ∧
              (reviewed (card :: rest) rest' <=
                 Z.to_nat (Vergessen.maxStudy + 1 - studied))%nat ∧
              (Dirty d' = true ∨ (d' = d ∧ rest' = card :: rest)) ∧
              (r = Panics -> ∃ c k hardness,
                 c ∈ card :: rest ∧ CalcNextRep (clock k) hardness c = None) ∧
              (∀ e, r = Fails e -> e = io_EOF ∨ e = read_error)).
  { intros d1 m2 card1 studied1 Hc1 Hp1 Hdb1 Hw1 Hs1 Has Hcase.
    destruct (IH (pre ++ [card1]) studied1 d1 m2) as
      (r & d' & m' & rest' & Hrun & Hp & Hdb & Hw & Hc & Hall & Hcount & Hdirty & Hpanic
         & Hfails).
    { by rewrite <- app_assoc. }
    { done. }
    rewrite length_app in Hrun. simpl in Hrun.
    replace (length pre + 1)%nat with (S (length pre)) in Hrun by lia.
    exists r, d', m', (card1 :: rest'). rewrite Hrun.
    split_and!; [done|congruence|congruence|congruence| | | | | |done].
    - by rewrite Hc, <- app_assoc.
    - by constructor.
    - simpl. destruct Hcase as [(-> & _ & ->)|(-> & _ & Hreps)].
      + rewrite bool_decide_eq_true_2 by done. lia.
      + rewrite bool_decide_eq_false_2 by done. unfold Vergessen.maxStudy in *. lia.
    - destruct Hdirty as [Hd|[-> ->]]; [by left|].
      destruct Hcase as [(_ & -> & ->)|(_ & Hd & _)]; [by right|by left].
    - intros Hr. destruct (Hpanic Hr) as (c & k & h & Hc' & Hnone).
      exists c, k, h. split; [by right|done]. }
  destruct (Z.ltb_spec (Time_Unix (clock (nows m))) (Time_Unix (NextRep card)))
    as [Hnot_due|Hdue].
  { (* continue *)
    apply (Hnext d m1 card studied); try done; [by left|]. left. done. }
  set (io := and_then _ _).
  assert (Hio : offline io).
  { unfold io. apply offline_and_then; [apply offline_fmt|]. intros _.
    apply offline_and_then; [apply offline_getInput|]. intros _.
    intros m2. apply offline_study_hardness. }
  specialize (Hio m1). destruct (io m1) as [[hardness|e|] m2] eqn:Hrun; simpl in Hio.
  - destruct (CalcNextRep (clock (nows m2)) hardness card) as [card'|] eqn:Hstep.
    + assert (Hins : <[length pre := card']> (Cards d) = pre ++ card' :: rest).
      { rewrite Hcards, insert_app_r_alt, Nat.sub_diag by done. done. }
      assert (Has : studied_as clock card card').
      { right. split; [by exists (nows m)|]. by exists (nows m2), hardness. }
      rewrite add_small by (unfold GoInt.min_int, GoInt.max_int, Vergessen.maxStudy in *; lia).
      destruct (Z.ltb_spec Vergessen.maxStudy (studied + 1)) as [Hstop|Hgo].
      * (* break *)
        eexists _, _, _, (card' :: rest). split; [done|]. simpl.
        split_and!; [done|done|done|done| | |by left|done|done].
        -- constructor; [done|apply studied_as_same].
        -- rewrite bool_decide_eq_false_2 by (by eapply CalcNextRep_Reps).
           rewrite reviewed_same. unfold Vergessen.maxStudy in *. lia.
      * apply (Hnext _ _ card' (studied + 1)); try done; [lia|].
        right. split_and!; [done|done|]. by eapply CalcNextRep_Reps.
    + eexists _, _, _, (card :: rest). split; [done|].
      split_and!; [done|done|done|done|apply studied_as_same| |by right| |done].
      * rewrite reviewed_same. lia.
      * intros _. exists card, (nows m2), hardness. split; [by left|done].
  - eexists _, _, _, (card :: rest). split; [done|].
    split_and!; [done|done|done|done|apply studied_as_same| |by right|done|].
    + rewrite reviewed_same. lia.
    + intros e' [= <-]. by apply (study_ask_Fails card m1 e m2).
  - eexists _, _, _, (card :: rest). split; [done|].
    split_and!; [done|done|done|done|apply studied_as_same| |by right| |done].
    + rewrite reviewed_same. lia.
    + intros _. exfalso. apply (study_ask_not_Panics card m1).
      fold io. by rewrite Hrun.
Qed.

End Study.

(** What a call of [study] is: its loop and, when that returns normally, a
    [Sync]. *)
Lemma study_spec (faults : nat -> bool) (clock : nat -> Time) (d : Deck)
    (args : list string) (m : Machine) :
  ∃ r1 d1 m1 r d' m',
    Vergessen.study_loop clock 0 (Cards d) 0 d m = ((r1, d1), m1) ∧
    Vergessen.study faults clock d args m = ((r, d'), m') ∧
    Path d1 = Path d ∧ DB d1 = DB d ∧ world m1 = world m ∧
    Forall2 (studied_as clock) (Cards d) (Cards d1) ∧
    (reviewed (Cards d) (Cards d1) <= 21)%nat ∧
    (Dirty d1 = true ∨ d1 = d) ∧
    (r1 = Panics -> ∃ c k hardness,
       c ∈ Cards d ∧ CalcNextRep (clock k) hardness c = None) ∧
    (∀ e, r1 = Fails e -> e = io_EOF ∨ e = read_error) ∧
    Path d' = Path d ∧ Cards d' = Cards d1 ∧
    (r1 ≠ Val () -> r = r1 ∧ d' = d1 ∧ m' = m1) ∧
    (r1 = Val () ->
     ∃ r2 w2, Sync faults d1 (world m) = ((r2, d'), w2) ∧ world m' = w2 ∧
              match r2 with
              | Ok _ => r = Val ()
              | Err e => r = Fails (deck_error e)
              | Panic => r = Panics
              end).
Proof.
  destruct (study_loop_spec clock (Cards d) [] 0 d m) as
    (r1 & d1 & m1 & rest' & Hloop & Hp & Hdb & Hw & Hc & Hall & Hcount & Hdirty
       & Hpanic & Hfails); [done|done|].
  simpl in Hloop, Hc. subst rest'.
  unfold Vergessen.study. rewrite Hloop.
  exists r1, d1, m1.
  destruct r1 as [[]|e|].
  - unfold deck_Sync. rewrite Hw.
    destruct (Sync faults d1 (world m)) as [[r2 d2] w2] eqn:Hsync.
    destruct (Sync_deck _ _ _ _ _ _ Hsync) as (Hp2 & Hc2 & Hnp & _).
    exists (match r2 with
            | Ok _ => Val ()
            | Err e => Fails (deck_error e)
            | Panic => Panics
            end), d2,
           {| world := w2; stdin := stdin m1; stdout := stdout m1;
              nows := nows m1; runs := runs m1 |}.
    split; [done|]. split; [by destruct r2|].
    split_and!; try done; try congruence.
    + destruct Hdirty as [?|[? _]]; auto.
    + intros _. exists r2, w2. split; [done|]. by destruct r2.
  - eexists _, _, _. split; [done|]. split; [done|].
    split_and!; try done.
    destruct Hdirty as [?|[? _]]; auto.
  - eexists _, _, _. split; [done|]. split; [done|].
    split_and!; try done.
    destruct Hdirty as [?|[? _]]; auto.
Qed.



(** X17. How a call of [study] ends. When it returns nil the deck is clean and
    the deck file holds the tables of the cards as reviewed. When it returns
    an error, that is the end of file or an error of the terminal, met at a
    prompt before any storage operation was made, or the error of [Sync];
    the reviews made so far are not lost: they are in the deck in memory,
    which is marked dirty. It panics only on a card [CalcNextRep] cannot
    review, before any storage operation, and never in [Sync]. *)
Theorem study_outcomes :
  ∀ (faults : nat -> bool) (clock : nat -> Time) (d : Deck)
    (args : list string) (m : Machine),
    match Vergessen.study faults clock d args m with
    | ((r, d'), m') =>
        Path d' = Path d ∧
        match r with
        | Val _ =>
            Dirty d' = false ∧
            files (world m') !! Path d = Some (Schema (tables_of (Cards d')))
        | Fails e =>
            (Dirty d' = true ∨ (Cards d' = Cards d ∧ Dirty d' = Dirty d)) ∧
            ((e = io_EOF ∨ e = read_error) ∧ world m' = world m
             ∨ ∃ e', e = deck_error e')
        | Panics =>
            world m' = world m ∧
            ∃ c k hardness, c ∈ Cards d ∧ CalcNextRep (clock k) hardness c = None
        end
    end.
Proof.
  intros faults clock d args m.
  destruct (study_spec faults clock d args m) as
    (r1 & d1 & m1 & r & d' & m' & _ & -> & Hp1 & _ & Hw1 & _ & _ & Hdirty & Hpanic
       & Hfails & Hp & Hc & Hstop & Hsync).
  split; [done|].
  destruct r1 as [[]|e|].
  - destruct Hsync as (r2 & w2 & Hsync & <- & Hr); [done|].
    destruct (Sync_deck _ _ _ _ _ _ Hsync) as (_ & _ & Hnp & _ & Herr).
    destruct r2 as [[]|e|]; [|clear Hstop|done]; subst r.
    + destruct (Sync_Ok_inv _ _ _ _ _ Hsync) as (Hd' & _ & Hfile & _).
      rewrite Hd'. simpl. by rewrite <- Hp1.
    + split; [|right; by exists e].
      rewrite (Herr e eq_refl), Hc.
      destruct Hdirty as [?|Hsame]; [auto|]. rewrite Hsame. auto.
  - destruct Hstop as (Hr & Hd' & Hm'); [done|]. subst r d' m'.
    split; [|left; split; [by apply Hfails|done]].
    destruct Hdirty as [?|Hsame]; [auto|]. rewrite Hsame. auto.
  - destruct Hstop as (Hr & Hd' & Hm'); [done|]. subst r d' m'.
    split; [done|]. by apply Hpanic.
Qed.

(** ** [editCard] and [newCard] *)

Lemma offline_spawnEditor EDITOR TempFile edited prefix contents :
  offline (Vergessen.spawnEditor EDITOR TempFile edited prefix contents).
Proof.
  intros m. unfold Vergessen.spawnEditor.
  destruct (String.eqb EDITOR ""); [done|]. unfold and_then. simpl.
  destruct (TempFile _ _ _); [|done..]. simpl.
  by destruct (edited _ _ _).
Qed.


Lemma edited_deck_refl d : edited_deck d d.
Proof.
  split_and!; [done..|]. induction (Cards d); constructor; [|done].
  by split_and!.
Qed.

Lemma edited_deck_set_card d d' i c c' :
  edited_deck d d' -> Cards d !! i = Some c -> edited_as c c' ->
  edited_deck d (Vergessen.set_card i c' d').
Proof.
  intros (Hp & Hdb & Hdirty & Hall) Hc Hedit.
  split_and!; [done..|]. simpl.
  rewrite <- (list_insert_id (Cards d) i c Hc).
  by apply Forall2_insert.
Qed.

Lemma edited_deck_Close f d d' w :
  edited_deck d d' -> Dirty d = false -> is_Some (DB d) ->
  Close f d' w = ((Ok (), d'), w).
Proof.
  intros (_ & Hdb & Hdirty & _) Hclean [db Hsome].
  unfold Close, DB_Close. by rewrite Hdirty, Hclean, Hdb, Hsome.
Qed.

Lemma set_Prompt_edited prompt c c0 : edited_as c0 c -> edited_as c0 (Vergessen.set_Prompt prompt c).
Proof. done. Qed.

Lemma set_Answer_edited answer c c0 : edited_as c0 c -> edited_as c0 (Vergessen.set_Answer answer c).
Proof. done. Qed.

Lemma edited_as_refl c : edited_as c c.
Proof. by split_and!. Qed.

(** X18. [editCard] changes nothing but the prompt and the answer of cards,
    makes no storage operation, and leaves the [Dirty] flag as it was,
    however it ends. So an edit made on a clean deck is not saved by
    [Close]: [Close] finds the deck clean and writes nothing. *)
Theorem editCard_leaves_deck_clean :
  ∀ (EDITOR : string) (TempFile edited : nat -> string -> string -> res string)
    (d : Deck) (args : list string) (m : Machine),
    match Vergessen.editCard EDITOR TempFile edited d args m with
    | ((r, d'), m') =>
        Path d' = Path d ∧ DB d' = DB d ∧ Dirty d' = Dirty d ∧
        Forall2 edited_as (Cards d) (Cards d') ∧
        world m' = world m ∧
        ∀ f, Dirty d = false -> is_Some (DB d) ->
             Close f d' (world m') = ((Ok (), d'), world m')
    end.
Proof.
  intros EDITOR TempFile edited d args m.
  assert (Hgoal : ∀ d' m', edited_deck d d' -> world m' = world m ->
            Path d' = Path d ∧ DB d' = DB d ∧ Dirty d' = Dirty d ∧
            Forall2 edited_as (Cards d) (Cards d') ∧
            world m' = world m ∧
            ∀ f, Dirty d = false -> is_Some (DB d) ->
                 Close f d' (world m') = ((Ok (), d'), world m')).
  { intros d' m' Hed Hw. pose proof Hed as (? & ? & ? & ?).
    split_and!; [done..|]. intros f. by apply edited_deck_Close. }
  unfold Vergessen.editCard.
  destruct (Vergessen.cardNumberFromArgs args) as [id|e|];
    [|apply Hgoal; [apply edited_deck_refl|done]..].
  destruct (list_find _ _) as [[i c]|] eqn:Hfind;
    [|apply Hgoal; [apply edited_deck_refl|done]].
  apply list_find_Some in Hfind as (Hc & _ & _).
  assert (Hanswer : ∀ c1 d1 m1,
            edited_deck d d1 -> edited_as c c1 -> world m1 = world m ->
            match
              match Vergessen.getInput
                      "Press ENTER to edit the ANSWER, or CTRL+D to leave as is" m1 with
              | (Val _, m) =>
                  match Vergessen.spawnEditor EDITOR TempFile edited "answer"
                          (Answer c1) m with
                  | (Val newAnswer, m) =>
                      ((Val (), Vergessen.set_card i (Vergessen.set_Answer newAnswer c1) d1), m)
                  | (Fails e, m) => ((Fails e, d1), m)
                  | (Panics, m) => ((Panics, d1), m)
                  end
              | (Fails io_EOF, m) =>
                  let '(_, m) := fmt (fmt_Print [str LF]) m in ((Val (), d1), m)
              | (Fails e, m) => ((Fails e, d1), m)
              | (Panics, m) => ((Panics, d1), m)
              end
            with
            | ((r, d'), m') =>
                Path d' = Path d ∧ DB d' = DB d ∧ Dirty d' = Dirty d ∧
                Forall2 edited_as (Cards d) (Cards d') ∧
                world m' = world m ∧
                ∀ f, Dirty d = false -> is_Some (DB d) ->
                     Close f d' (world m') = ((Ok (), d'), world m')
            end).
  { intros c1 d1 m1 Hed Hc1 Hw1.
    pose proof (offline_getInput
                  "Press ENTER to edit the ANSWER, or CTRL+D to leave as is" m1) as Hw2.
    destruct (Vergessen.getInput _ m1) as [[s|e|] m2]; simpl in Hw2.
    - pose proof (offline_spawnEditor EDITOR TempFile edited "answer" (Answer c1) m2)
        as Hw3.
      destruct (Vergessen.spawnEditor _ _ _ _ _ m2) as [[s'|e|] m3]; simpl in Hw3.
      + apply Hgoal; [|congruence]. by apply (edited_deck_set_card d d1 i c).
      + apply Hgoal; [done|congruence].
      + apply Hgoal; [done|congruence].
    - destruct e; simpl; (apply Hgoal; [done|simpl; congruence]).
    - apply Hgoal; [done|congruence]. }
  pose proof (offline_getInput
                "Press ENTER to edit the PROMPT, or CTRL+D to leave as is" m) as Hw1.
  destruct (Vergessen.getInput _ m) as [[s|e|] m1]; simpl in Hw1.
  - pose proof (offline_spawnEditor EDITOR TempFile edited "prompt" (Prompt c) m1)
      as Hw2.
    destruct (Vergessen.spawnEditor _ _ _ _ _ m1) as [[s'|e|] m2]; simpl in Hw2.
    + apply Hanswer; [|done|congruence].
      apply (edited_deck_set_card d d i c); [apply edited_deck_refl|done..].
    + apply Hgoal; [apply edited_deck_refl|congruence].
    + apply Hgoal; [apply edited_deck_refl|congruence].
  - destruct e; try (apply Hgoal; [apply edited_deck_refl|congruence]).
    simpl. apply Hanswer; [apply edited_deck_refl|apply edited_as_refl|done].
  - apply Hgoal; [apply edited_deck_refl|congruence].
Qed.

Lemma editCard_leaves_deck_clean_witness :
  let c := set_Id 0 (NewCard 0 "old prompt" "answer") in
  let d := {| Path := "deck.db"; DB := Some "deck.db"; Cards := [c];
              Dirty := false |} in
  let m := {| world := {| files := {[ "deck.db" := Schema (tables_of [c]) ]};
                          tick := 0 |};
              stdin := [Line ""; EndOfFile]; stdout := []; nows := 0; runs := 0 |} in
  let run := Vergessen.editCard "vi" (λ _ _ _, Val "/tmp/vergessen.prompt.1")
               (λ _ _ _, Val "new prompt") d ["0"] m in
  run.1.1 = Val () ∧ Prompt <$> Cards run.1.2 = ["new prompt"] ∧
  ∀ f, Close f run.1.2 (world m) = ((Ok (), run.1.2), world m).
Proof.
  intros c d m run.
  split; [by vm_compute|]. split; [by vm_compute|]. intros f.
  pose proof (editCard_leaves_deck_clean "vi" (λ _ _ _, Val "/tmp/vergessen.prompt.1")
                (λ _ _ _, Val "new prompt") d ["0"] m) as H.
  fold run in H. destruct run as [[r d'] m'].
  destruct H as (_ & _ & _ & _ & Hw & Hclose). cbn [fst snd]. rewrite <- Hw.
  apply Hclose; [done|by eexists].
Defined.










(** ** [list] *)

Lemma last_byte_None (s : string) : Vergessen.last_byte s = None ↔ s = "".
Proof.
  split; [|by intros ->].
  induction s as [|a s IH]; [done|]. simpl. destruct s; [done|].
  intros H. by apply IH in H.
Qed.

Lemma list_loop_spec (cs : list Card) (m : Machine) (r : res unit) (m' : Machine) :
  Vergessen.list_loop cs m = (r, m') ->
  world m' = world m ∧ stdin m' = stdin m ∧
  (r = Panics ↔ Exists (λ c, Prompt c = "") cs) ∧
  (r = Val () ↔ Forall (λ c, Prompt c ≠ "") cs).
Proof.
  revert m. induction cs as [|card cs IH]; intros m; simpl.
  { intros [= <- <-]. split_and!; [done..| |]; split; try done.
    by intros ?%Exists_nil. }
  unfold and_then at 1. simpl.
  destruct (Vergessen.last_byte (Prompt card)) as [b|] eqn:Hlast.
  - assert (Hne : Prompt card ≠ "").
    { intros Hp. apply last_byte_None in Hp. congruence. }
    unfold and_then at 1.
    set (m1 := {| world := world m; stdin := stdin m;
                  stdout := stdout m ++ [_]; nows := nows m; runs := runs m |}).
    assert (Hstep : ∃ m2, (if bool_decide (b ≠ "010"%char)
                           then fmt (fmt_Print [str LF]) else pure ()) m1 = (Val (), m2) ∧
                          world m2 = world m ∧ stdin m2 = stdin m).
    { destruct (bool_decide _); eexists; by split. }
    destruct Hstep as (m2 & -> & Hw & Hin). intros Hrun.
    destruct (IH m2 Hrun) as (Hw' & Hin' & Hpanic & Hval).
    split_and!; [congruence|congruence| |].
    + rewrite Hpanic, Exists_cons. split; [by right|by intros [?|?]].
    + rewrite Hval, Forall_cons. split; [done|by intros [_ ?]].
  - apply last_byte_None in Hlast. intros [= <- <-].
    split_and!; [done..| |].
    + split; [|done]. intros _. by left.
    + split; [done|]. by intros [? _]%Forall_cons.
Qed.

(** X20. [list] panics exactly when the deck holds a card whose prompt is the
    empty string (the index [len(card.Prompt)-1] is then out of range), and
    returns nil otherwise; it never returns an error. It reads nothing,
    makes no storage operation and leaves the deck as it is. *)
Theorem list_panics_iff_empty_prompt :
  ∀ (d : Deck) (args : list string) (m : Machine),
    match Vergessen.list d args m with
    | ((r, d'), m') =>
        d' = d ∧ world m' = world m ∧ stdin m' = stdin m ∧
        (r = Panics ↔ ∃ c, c ∈ Cards d ∧ Prompt c = "") ∧
        (r = Val () ↔ ∀ c, c ∈ Cards d -> Prompt c ≠ "") ∧
        (∀ e, r ≠ Fails e)
    end.
Proof.
  intros d args m. unfold Vergessen.list.
  destruct (Vergessen.list_loop (Cards d) m) as [r m'] eqn:Hrun.
  destruct (list_loop_spec (Cards d) m r m' Hrun) as (Hw & Hin & Hpanic & Hval).
  split_and!; [done..| | |].
  - by rewrite Hpanic, Exists_exists.
  - by rewrite Hval, Forall_forall.
  - intros e ->.
    destruct (decide (Forall (λ c, Prompt c ≠ "") (Cards d))) as [Hall|Hex].
    + by apply Hval in Hall.
    + apply not_Forall_Exists in Hex; [|apply _].
      assert (Hex' : Exists (λ c, Prompt c = "") (Cards d)).
      { eapply Exists_impl; [exact Hex|]. simpl. intros c Hc.
        by destruct (decide (Prompt c = "")). }
      by apply Hpanic in Hex'.
Qed.

(** ** The later program: [showCard], [dueCards] and [fmtDue] *)

(** X21. [showCard] of the later program shows the card at the position its
    argument names, not the card that has that id: it prints the prompt and
    the answer of [d.Cards[id]], and answers [Invalid card id] for a number
    that is no position of the deck. The two agree on a deck whose ids are
    the positions, as [OpenDeck] returns it, and part once a card was
    deleted. [showCard] never panics, makes no storage operation and leaves
    the deck as it is. *)
Theorem showCard_by_position :
  ∀ (d : Deck) (args : list string) (m : Machine),
    len (Cards d) <= GoInt.max_int ->
    match Part001b.showCard d args m with
    | ((r, d'), m') =>
        d' = d ∧ world m' = world m ∧
        match r with
        | Val _ =>
            ∃ id c, Vergessen.cardNumberFromArgs args = Val id ∧ 0 <= id ∧
                    Cards d !! Z.to_nat id = Some c ∧
                    stdout m' = stdout m ++
                      [fmt_Println [str ("PROMPT" +:+ LF)]; fmt_Println [str (Prompt c)];
                       fmt_Println [str ("ANSWER" +:+ LF)]; fmt_Println [str (Answer c)]] ∧
                    (ids_positional (Cards d) -> Id c = id)
        | Fails e =>
            m' = m ∧
            (Vergessen.cardNumberFromArgs args = Fails e ∨
             ∃ id, Vergessen.cardNumberFromArgs args = Val id ∧
                   (id < 0 ∨ len (Cards d) <= id) ∧
                   e = errors_New "Invalid card id")
        | Panics => False
        end
    end.
Proof.
  intros d args m Hlen. unfold Part001b.showCard.
  pose proof (len_nonneg (Cards d)) as Hpos.
  destruct (Vergessen.cardNumberFromArgs args) as [id|e|] eqn:Hargs.
  - rewrite sub_small by (unfold GoInt.min_int, GoInt.max_int in *; lia).
    destruct (Z.ltb_spec (len (Cards d) - 1) id) as [Hhi|Hhi]; simpl.
    { split_and!; [done..|]. right. exists id. split_and!; [done|lia|done]. }
    destruct (Z.ltb_spec id 0) as [Hlo|Hlo]; simpl.
    { split_and!; [done..|]. right. exists id. split_and!; [done|lia|done]. }
    destruct (index_is_Some (Cards d) id) as [_ [c Hc]]; [lia|].
    rewrite Hc. unfold index in Hc.
    destruct (Z.ltb_spec id 0) as [|_]; [lia|].
    split_and!; [done..|]. exists id, c. split_and!; [done..| |].
    + simpl. by rewrite <- !app_assoc.
    + intros Hids. rewrite (Hids _ _ Hc). lia.
  - split_and!; [done..|]. by left.
  - unfold Vergessen.cardNumberFromArgs in Hargs.
    destruct args as [|a ?]; [done|]. by destruct (strconv_Atoi a).
Qed.

Lemma showCard_by_position_witness :
  let card id prompt := set_Id id (NewCard 0 prompt "answer") in
  let d := {| Path := "deck.db"; DB := Some "deck.db";
              Cards := [card 0 "zero"; card 1 "one"; card 2 "two"];
              Dirty := false |} in
  let m := {| world := {| files := ∅; tick := 0 |}; stdin := []; stdout := [];
              nows := 0; runs := 0 |} in
  let d' := DeleteCard 1 d in
  Id <$> Cards d' = [0; 2] ∧
  (∃ c, stdout (Part001b.showCard d' ["1"] m).2 =
          [fmt_Println [str ("PROMPT" +:+ LF)]; fmt_Println [str (Prompt c)];
           fmt_Println [str ("ANSWER" +:+ LF)]; fmt_Println [str (Answer c)]] ∧
        Id c = 2) ∧
  (Part001b.showCard d' ["2"] m).1.1 = Fails (errors_New "Invalid card id").
Proof.
  intros card d m d'. split; [by vm_compute|]. split; [|by vm_compute].
  pose proof (showCard_by_position d' ["1"] m) as H.
  assert (Hr : (Part001b.showCard d' ["1"] m).1.1 = Val ()) by by vm_compute.
  assert (Hc : Cards d' !! 1%nat = Some (card 2 "two")) by by vm_compute.
  destruct (Part001b.showCard d' ["1"] m) as [[r d1] m1].
  simpl in Hr. subst r.
  destruct H as (_ & _ & id & c & Hid & _ & Hc' & Hout & _); [by vm_compute|].
  assert (id = 1) as -> by (vm_compute in Hid; congruence).
  change (Z.to_nat 1) with 1%nat in Hc'. rewrite Hc in Hc'. injection Hc' as <-.
  exists (card 2 "two"). by split.
Defined.

Lemma dueCards_loop_count (cs : list Card) (now due : Z) :
  0 <= due -> due + len cs <= GoInt.max_int ->
  Part001.dueCards_loop cs now due =
    due + len (filter (λ c, Time_Unix (NextRep c) < now) cs).
Proof.
  revert due. induction cs as [|c cs IH]; intros due Hdue Hmax; simpl.
  { unfold len. simpl. lia. }
  assert (Hlen : len (c :: cs) = 1 + len cs) by (unfold len; simpl; lia).
  rewrite Hlen in Hmax. pose proof (len_nonneg cs) as Hpos.
  rewrite filter_cons.
  destruct (Z.ltb_spec (Time_Unix (NextRep c)) now) as [Hlt|Hge].
  - rewrite decide_True by done.
    rewrite add_small by (unfold GoInt.min_int, GoInt.max_int in *; lia).
    rewrite IH by lia. unfold len. simpl. lia.
  - rewrite decide_False by lia. by rewrite IH by lia.
Qed.

(** X22. [dueCards] prints the number of cards whose due second lies before
    the second of the clock, strictly: a card due in the very second of the
    call is not counted. It reads the clock once, reads nothing from the
    terminal, makes no storage operation, leaves the deck as it is and
    returns nil. *)
Theorem dueCards_counts :
  ∀ (clock : nat -> Time) (d : Deck) (args : list string) (m : Machine),
    len (Cards d) <= GoInt.max_int ->
    Part001.dueCards clock d args m =
      ((Val (), d),
       {| world := world m; stdin := stdin m;
          stdout := stdout m ++
            [fmt_Println
               [int (len (filter (λ c, Time_Unix (NextRep c) <
                                       Time_Unix (clock (nows m))) (Cards d)));
                str "cards due."]];
          nows := S (nows m); runs := runs m |}).
Proof.
  intros clock d args m Hlen. unfold Part001.dueCards. simpl.
  by rewrite dueCards_loop_count by lia.
Qed.

Lemma dueCards_counts_witness :
  let card due := {| Id := 0; Prompt := "p"; Answer := "a"; Reps := 0;
                     NextRep := due * Second; EFs := []; Hardnesses := [] |} in
  let d := {| Path := "deck.db"; DB := Some "deck.db";
              Cards := [card 99; card 100; card 101; card 5]; Dirty := false |} in
  let m := {| world := {| files := ∅; tick := 0 |}; stdin := []; stdout := [];
              nows := 0; runs := 0 |} in
  stdout (Part001.dueCards (λ _, 100 * Second) d [] m).2 =
    [fmt_Println [int 2; str "cards due."]].
Proof.
  intros card d m.
  rewrite (dueCards_counts (λ _, 100 * Second) d [] m) by by vm_compute.
  by vm_compute.
Defined.

Lemma fmtDue_tests (clock : nat -> Time) (dueTime : Z) (m : Machine) :
  let ahead := dueTime - Time_Unix (clock (nows m)) in
  let days := ahead `quot` (24 * 60 * 60) in
  GoInt.min_int <= ahead <= GoInt.max_int ->
  (Part001.fmtDue clock dueTime m).1 =
    (if ahead <? 0 then "now"
     else if (0 <? days) && (days <? 7) then Sprintf_d days +:+ " days"
     else if (7 <=? days) && (days <=? 365) then Sprintf_d (days `quot` 7) +:+ " weeks"
     else Sprintf_d (days `quot` 30) +:+ " months") ∧
  (Part001b.fmtDue clock dueTime m).1 =
    (if ahead <? 0 then "now"
     else if days =? 0 then
       Sprintf_d (ahead `quot` (60 * 60)) +:+ " " +:+
         (if 0 <? ahead `quot` (60 * 60) then "hours" else "hour")
     else if (0 <? days) && (days <? 7) then
       Sprintf_d days +:+ " " +:+ (if 1 <? days then "days" else "day")
     else if (7 <=? days) && (days <=? 365) then
       Sprintf_d (days `quot` 7) +:+ " " +:+
         (if 1 <? days `quot` 7 then "weeks" else "week")
     else
       Sprintf_d (days `quot` 30) +:+ " " +:+
         (if 1 <? days `quot` 30 then "months" else "month")).
Proof.
  intros ahead days Hrange.
  unfold Part001.fmtDue, Part001b.fmtDue. simpl.
  rewrite !sub_small by done. fold ahead. fold days.
  split.
  - destruct (ahead <? 0); [done|].
    destruct ((0 <? days) && (days <? 7)); [done|].
    by destruct ((7 <=? days) && (days <=? 365)).
  - destruct (ahead <? 0); [done|].
    destruct (days =? 0); [by destruct (0 <? _)|].
    destruct ((0 <? days) && (days <? 7)); [by destruct (1 <? _)|].
    destruct ((7 <=? days) && (days <=? 365)); by destruct (1 <? _).
Qed.

Lemma div_between (a b lo hi : Z) :
  0 < b -> lo * b <= a < hi * b -> lo <= a / b < hi.
Proof.
  intros Hb [Hlo Hhi]. split.
  - apply Z.div_le_lower_bound; lia.
  - apply Z.div_lt_upper_bound; lia.
Qed.

Lemma div_above (a b lo : Z) : 0 < b -> lo * b <= a -> lo <= a / b.
Proof. intros Hb Hlo. apply Z.div_le_lower_bound; lia. Qed.

Local Ltac tests :=
  repeat match goal with
  | |- context [?a <? ?b] => destruct (Z.ltb_spec a b); try lia
  | |- context [?a <=? ?b] => destruct (Z.leb_spec a b); try lia
  | |- context [?a =? ?b] => destruct (Z.eqb_spec a b); try lia
  end.

(** X23. What [fmtDue] prints for a due time [ahead] seconds after the second
    of the clock, in the two revisions of the later program. A time gone by
    is [now] in both. Less than a day ahead the first revision prints
    [0 months] (no case takes a day count of 0 but the last), the second
    counts hours, as [0 hour] and then [1 hours], [2 hours], ... From one
    day on both count days up to 6, weeks up to 365 days and months of 30
    days beyond; the first revision always writes the plural ([1 days],
    [1 weeks]), the second the singular for 1. *)
Theorem fmtDue_table :
  ∀ (clock : nat -> Time) (dueTime : Z) (m : Machine),
    let ahead := dueTime - Time_Unix (clock (nows m)) in
    let one := (Part001.fmtDue clock dueTime m).1 in
    let two := (Part001b.fmtDue clock dueTime m).1 in
    GoInt.min_int <= ahead <= GoInt.max_int ->
    (ahead < 0 -> one = "now" ∧ two = "now") ∧
    (0 <= ahead < 3600 -> one = "0 months" ∧ two = "0 hour") ∧
    (3600 <= ahead < 86400 ->
       one = "0 months" ∧ two = Sprintf_d (ahead / 3600) +:+ " hours") ∧
    (86400 <= ahead < 2 * 86400 -> one = "1 days" ∧ two = "1 day") ∧
    (2 * 86400 <= ahead < 7 * 86400 ->
       one = Sprintf_d (ahead / 86400) +:+ " days" ∧ two = one) ∧
    (7 * 86400 <= ahead < 14 * 86400 -> one = "1 weeks" ∧ two = "1 week") ∧
    (14 * 86400 <= ahead < 366 * 86400 ->
       one = Sprintf_d (ahead / 86400 / 7) +:+ " weeks" ∧ two = one) ∧
    (366 * 86400 <= ahead ->
       one = Sprintf_d (ahead / 86400 / 30) +:+ " months" ∧ two = one).
Proof.
  intros clock dueTime m ahead one two Hrange.
  destruct (fmtDue_tests clock dueTime m Hrange) as [Hone Htwo].
  fold ahead in Hone, Htwo. fold one in Hone. fold two in Htwo.
  change (24 * 60 * 60) with 86400 in Hone, Htwo.
  change (60 * 60) with 3600 in Htwo.
  clearbody one two ahead. subst one two.
  split_and!; intros Hahead.
  - by rewrite !(proj2 (Z.ltb_lt ahead 0)) by lia.
  - rewrite !(proj2 (Z.ltb_ge ahead 0)) by lia.
    rewrite !Z.quot_small by lia. done.
  - rewrite !(proj2 (Z.ltb_ge ahead 0)) by lia.
    rewrite (Z.quot_small ahead 86400) by lia.
    rewrite !(Z.quot_div_nonneg ahead) by lia. split; [done|].
    pose proof (div_above ahead 3600 1 ltac:(lia) ltac:(lia)).
    simpl. rewrite (proj2 (Z.ltb_lt 0 (ahead / 3600))) by lia. done.
  - rewrite !(proj2 (Z.ltb_ge ahead 0)) by lia.
    rewrite !(Z.quot_div_nonneg ahead) by lia.
    pose proof (div_between ahead 86400 1 2 ltac:(lia) ltac:(lia)).
    replace (ahead / 86400) with 1 by lia. done.
  - rewrite !(proj2 (Z.ltb_ge ahead 0)) by lia.
    rewrite !(Z.quot_div_nonneg ahead) by lia.
    pose proof (div_between ahead 86400 2 7 ltac:(lia) ltac:(lia)). tests; by split.
  - rewrite !(proj2 (Z.ltb_ge ahead 0)) by lia.
    rewrite !(Z.quot_div_nonneg ahead) by lia.
    pose proof (div_between ahead 86400 7 14 ltac:(lia) ltac:(lia)) as Hdays.
    rewrite !(Z.quot_div_nonneg (ahead / 86400)) by lia.
    pose proof (div_between (ahead / 86400) 7 1 2 ltac:(lia) ltac:(lia)).
    replace (ahead / 86400 / 7) with 1 by lia. tests; by split.
  - rewrite !(proj2 (Z.ltb_ge ahead 0)) by lia.
    rewrite !(Z.quot_div_nonneg ahead) by lia.
    pose proof (div_between ahead 86400 14 366 ltac:(lia) ltac:(lia)) as Hdays.
    rewrite !(Z.quot_div_nonneg (ahead / 86400)) by lia.
    pose proof (div_above (ahead / 86400) 7 2 ltac:(lia) ltac:(lia)). tests; by split.
  - rewrite !(proj2 (Z.ltb_ge ahead 0)) by lia.
    rewrite !(Z.quot_div_nonneg ahead) by lia.
    pose proof (div_above ahead 86400 366 ltac:(lia) ltac:(lia)) as Hdays.
    rewrite !(Z.quot_div_nonneg (ahead / 86400)) by lia.
    pose proof (div_above (ahead / 86400) 30 12 ltac:(lia) ltac:(lia)). tests; by split.
Qed.

Lemma fmtDue_table_witness :
  let m := {| world := {| files := ∅; tick := 0 |}; stdin := []; stdout := [];
              nows := 0; runs := 0 |} in
  (Part001.fmtDue (λ _, 1000 * Second) 6000 m).1 = "0 months" ∧
  (Part001b.fmtDue (λ _, 1000 * Second) 6000 m).1 = "1 hours".
Proof.
  intros m.
  destruct (fmtDue_table (λ _, 1000 * Second) 6000 m) as (_ & _ & H & _);
    [by vm_compute|].
  destruct H as [H1 H2]; [by vm_compute|].
  split; [exact H1|]. rewrite H2. by vm_compute.
Defined.

(** ** [delCard] *)

(** X24. [delCard] returns nil for every argument that is a number, whether a
    card has that id or not: the deck is then what [DeleteCard] makes of it,
    unchanged (and not marked dirty) when no card has the id. Without an
    argument, or with one that is no number, it returns the error and leaves
    the deck as it is. It reads and prints nothing, makes no storage
    operation, and ignores the arguments after the first. *)
Theorem delCard_outcomes :
  ∀ (d : Deck) (args : list string) (m : Machine),
    match Vergessen.delCard d args m with
    | ((r, d'), m') =>
        m' = m ∧
        match r with
        | Val _ =>
            ∃ a rest id, args = a :: rest ∧ strconv_Atoi a = Some id ∧
                         d' = DeleteCard id d ∧
                         (Forall (λ c, Id c ≠ id) (Cards d) -> d' = d) ∧
                         (length (Cards d') = length (Cards d) -> d' = d)
        | Fails e =>
            d' = d ∧
            (args = [] ∧ e = errors_New "No card # given" ∨
             ∃ a rest, args = a :: rest ∧ strconv_Atoi a = None ∧ e = NumError a)
        | Panics => False
        end
    end.
Proof.
  intros d args m. unfold Vergessen.delCard, Vergessen.cardNumberFromArgs.
  destruct args as [|a rest]; [by split_and!; [..|left]|].
  destruct (strconv_Atoi a) as [id|] eqn:Ha.
  - split; [done|]. exists a, rest, id. split_and!; [done..| |].
    + intros Hall. unfold DeleteCard.
      destruct (DeleteCard_loop_spec id d [] (Cards d)) as
        [(mid & card & post & Hcards & Hid & _ & _)|[_ Hdel]]; [done..| |done].
      rewrite Hcards in Hall. apply Forall_app in Hall as [_ Hall].
      by apply Forall_cons in Hall as [Hne _].
    + unfold DeleteCard.
      destruct (DeleteCard_loop_spec id d [] (Cards d)) as
        [(mid & card & post & Hcards & _ & _ & Hdel)|[_ Hdel]]; [done..| |done].
      simpl in Hdel. rewrite Hdel, Hcards. simpl. rewrite !length_app. simpl. lia.
  - split_and!; [done..|]. right. by exists a, rest.
Qed.
